(** * n2v: the modified Ryabinkin-Kohut-Staroverov (mRKS) inversion

    A shallow embedding of [n2v/methods/rmks.py] (class [MRKS]) and the
    properties of its fixed-point loop, of its grid quadratures and of its
    configuration checks.

    Conventions of the embedding.
    - A Python / NumPy [float64] is Rocq's primitive binary64 [float]; its
      arithmetic is the IEEE one ([nan], [infinity], signed zeros included).
    - A one-dimensional [np.ndarray] is a [list float], a matrix a list of
      rows.  Sums made by [np.sum], [np.linalg.norm] and
      [opt_einsum.contract] are taken in index order: the libraries do not
      fix the order of their additions, and no statement below depends on
      it.
    - Python exceptions are values of [exn]; a computation that can raise
      returns a [result].  The solver object [self] is an explicit record
      threaded through the methods of [MRKS], together with the trace of the
      requests sent to the quantum-chemistry engine and of the lines printed.
    - Where the program decides which arrays meet, NumPy's errors are
      modelled: the element-wise operations on one-dimensional arrays
      broadcast an operand of one entry and raise [ValueError] for any other
      pair of different sizes; indexing by an index map raises [IndexError]
      outside the array; a contraction, and the product with the matrix of
      occupations, raise [ValueError] when the columns of the orbital matrix
      and the entries of the eigenvalues or occupations differ in number
      (one of them being broadcast when it is one); a slice assignment
      raises [ValueError] for a right-hand side of another size.
    - What belongs to the engine (psi4: grid construction, basis values on a
      block, Fock build, diagonalisation, initial guess) is a field of the
      record [Engine].  Its arrays are taken with the shapes psi4 gives
      them: the matrices of one basis are square of one size, and the four
      arrays of a block have one entry per point.  The statements that need
      the latter say so ([well_formed], [basis_rows]). *)

From Stdlib Require Import String ZArith Bool Lia Floats List.
From Stdlib Require Uint63.
Import ListNotations.

Set Warnings "-inexact-float".

(** ** Exceptions *)

Inductive exn : Type :=
| ValueError (msg : string)
| AssertionError (msg : string)
| IndexError
| AttributeError (name : string)
| UnboundLocalError (name : string)
| Exception (msg : string).

Inductive result (A : Type) : Type :=
| Ok (a : A)
| Raise (e : exn).

Arguments Ok {A} a.
Arguments Raise {A} e.

Definition rbind {A B} (r : result A) (k : A -> result B) : result B :=
  match r with
  | Ok a => k a
  | Raise e => Raise e
  end.

Declare Scope result_scope.
Delimit Scope result_scope with result.
Notation "'let?' x ':=' r 'in' k" := (rbind r (fun x => k))
  (at level 10, x name, r at level 100, k at level 200) : result_scope.

(** ** binary64 *)

Module F64.
Local Open Scope float_scope.

(** A Python [int] used where a float is expected. *)
Definition of_Z (z : Z) : float :=
  SF2Prim (binary_normalize prec emax z 0 false).

Definition of_nat (n : nat) : float := of_Z (Z.of_nat n).

Definition square (x : float) : float := x * x.

(** [np.maximum]: a [nan] operand wins. *)
Definition maximum (a b : float) : float :=
  if is_nan a then a
  else if is_nan b then b
  else if a <? b then b else a.

(** Neither an infinity nor [nan]. *)
Definition finite (x : float) : bool := is_finite x.

(** The same number: identical, or both a zero (IEEE compares [-0.0] and
[0.0] equal). *)
Definition same (a b : float) : Prop :=
  a = b \/ (is_zero a = true /\ is_zero b = true).
End F64.

(** ** The part of NumPy the solver uses *)

Module NumPy.
Local Open Scope float_scope.

Definition vector := list float.
Definition matrix := list (list float).
Definition tensor4 := list (list (list (list float))).

Definition zeros (n : nat) : vector := repeat 0 n.
Definition ones (n : nat) : vector := repeat 1 n.

Definition at1 (v : vector) (i : nat) : float := nth i v 0.
Definition at2 (m : matrix) (i j : nat) : float := nth j (nth i m []) 0.
Definition at4 (t : tensor4) (i j k l : nat) : float :=
  nth l (nth k (nth j (nth i t []) []) []) 0.

Definition rows (m : matrix) : nat := length m.
Definition cols (m : matrix) : nat := length (hd [] m).

Definition map2 {A B C} (f : A -> B -> C) (a : list A) (b : list B) : list C :=
  map (fun p => f (fst p) (snd p)) (combine a b).

(** Running a fallible function over a list, stopping at the first
exception. *)
Fixpoint mapM {A B} (f : A -> result B) (l : list A) : result (list B) :=
  match l with
  | [] => Ok []
  | a :: rest =>
      match f a with
      | Raise e => Raise e
      | Ok b =>
          match mapM f rest with
          | Raise e => Raise e
          | Ok bs => Ok (b :: bs)
          end
      end
  end.

Definition broadcast_message : string :=
  "operands could not be broadcast together".

(** An element-wise operation on two one-dimensional arrays: arrays of the
same length are combined entry by entry, an array of length one is broadcast
over the other, and any other pair of lengths is a [ValueError]. *)
Definition broadcast2 (f : float -> float -> float) (a b : vector)
  : result vector :=
  if (length a =? length b)%nat then Ok (map2 f a b)
  else if (length a =? 1)%nat then Ok (map (f (hd 0 a)) b)
  else if (length b =? 1)%nat then Ok (map (fun x => f x (hd 0 b)) a)
  else Raise (ValueError broadcast_message).

(** [a + b] and [a - b] on one-dimensional arrays. *)
Definition vadd : vector -> vector -> result vector := broadcast2 add.
Definition vsub : vector -> vector -> result vector := broadcast2 sub.

(** The entry an array contributes at index [i] of a broadcast result: its
only entry when it has length one, its entry [i] otherwise. *)
Definition bat (v : vector) (i : nat) : float :=
  if (length v =? 1)%nat then at1 v 0 else at1 v i.

Definition vadds (v : vector) (c : float) : vector := map (fun x => x + c) v.
Definition vscale (v : vector) (c : float) : vector := map (fun x => x * c) v.

(** [a += rhs] on a one-dimensional array: [rhs] must have the length of
[a], or length one. *)
Definition iadd (a rhs : vector) : result vector :=
  if (length rhs =? length a)%nat then Ok (map2 add a rhs)
  else if (length rhs =? 1)%nat then Ok (vadds a (hd 0 rhs))
  else Raise (ValueError broadcast_message).

(** [a - b] on two matrices of the same shape; the solver subtracts only
matrices the engine returned for the same basis. *)
Definition msub : matrix -> matrix -> matrix := map2 (map2 sub).

(** [np.sum] of a sequence of terms. *)
Definition fsum (l : list float) : float := fold_left add l 0.

(** The sum of [f i] for [i] in [range(n)]. *)
Definition sum_n (n : nat) (f : nat -> float) : float := fsum (map f (seq 0 n)).

(** [np.linalg.norm] with its default order: the 2-norm of the flattened
    array. *)
Definition norm (v : vector) : float := sqrt (fsum (map F64.square v)).
Definition mnorm (m : matrix) : float := norm (concat m).

(** [np.max]: a reduction by [np.maximum]; it has no identity. *)
Definition max (v : vector) : result float :=
  match v with
  | [] => Raise (ValueError "zero-size array to reduction operation maximum which has no identity")
  | x :: rest => Ok (fold_left F64.maximum rest x)
  end.

(** [np.isclose(a, b, rtol, atol)] on one element, for tolerances that are
    not negative: [|a - b| <= atol + rtol * |b|] for finite operands,
    [a == b] otherwise. *)
Definition isclose (a b rtol atol : float) : bool :=
  if F64.finite a && F64.finite b
  then abs (a - b) <=? atol + rtol * abs b
  else a =? b.

Definition rtol_default : float := 1e-5.

(** [a[start:stop] = rhs] on a one-dimensional array, [start <= stop]: the
    slice is clipped to the array; [rhs] must have the slice's length or
    length one (it is then broadcast). *)
Definition set_slice (a : vector) (start stop : nat) (rhs : vector)
  : result vector :=
  let lo := Nat.min start (length a) in
  let hi := Nat.min stop (length a) in
  let m := (hi - lo)%nat in
  if (length rhs =? m)%nat then Ok (firstn lo a ++ rhs ++ skipn hi a)
  else if (length rhs =? 1)%nat then Ok (firstn lo a ++ repeat (hd 0 rhs) m ++ skipn hi a)
  else Raise (ValueError "could not broadcast input array").

(** [a[start:stop] += rhs], same shape rule. *)
Definition add_slice (a : vector) (start stop : nat) (rhs : vector)
  : result vector :=
  let lo := Nat.min start (length a) in
  let hi := Nat.min stop (length a) in
  let m := (hi - lo)%nat in
  let cur := firstn m (skipn lo a) in
  if (length rhs =? m)%nat then Ok (firstn lo a ++ map2 add cur rhs ++ skipn hi a)
  else if (length rhs =? 1)%nat then Ok (firstn lo a ++ vadds cur (hd 0 rhs) ++ skipn hi a)
  else Raise (ValueError "operands could not be broadcast together").

(** [m[i, j]]; an index outside the matrix is an [IndexError]. *)
Definition get2 (m : matrix) (i j : nat) : result float :=
  match nth_error m i with
  | None => Raise IndexError
  | Some row =>
      match nth_error row j with
      | None => Raise IndexError
      | Some v => Ok v
      end
  end.

(** [M[(idx[:, None], idy)]]: the sub-matrix on the rows [idx] and the
    columns [idy].  Every entry read must exist. *)
Definition take2 (m : matrix) (idx idy : list nat) : result matrix :=
  mapM (fun i => mapM (fun j => get2 m i j) idy) idx.

(** [C[idx, :]]: every row asked for must exist. *)
Definition take_rows (m : matrix) (idx : list nat) : result matrix :=
  mapM (fun i => match nth_error m i with
                 | None => Raise IndexError
                 | Some row => Ok row
                 end) idx.

(** [C[:, :n]]. *)
Definition first_cols (m : matrix) (n : nat) : matrix := map (firstn n) m.

(** The size of a label that two operands of a contraction share: sizes
must agree, a size of one being broadcast. *)
Definition label_size (a b : nat) : result nat :=
  if (a =? b)%nat then Ok a
  else if (a =? 1)%nat then Ok b
  else if (b =? 1)%nat then Ok a
  else Raise (ValueError "Size of label does not match previous terms").

(** The size of a dimension of an element-wise operation on two arrays:
the same rule, with the error of broadcasting. *)
Definition broadcast_size (a b : nat) : result nat :=
  if (a =? b)%nat then Ok a
  else if (a =? 1)%nat then Ok b
  else if (b =? 1)%nat then Ok a
  else Raise (ValueError broadcast_message).

(** The array whose entry [(i, j)] is [f i j]. *)
Definition tabulate2 (n m : nat) (f : nat -> nat -> float) : matrix :=
  map (fun i => map (f i) (seq 0 m)) (seq 0 n).

Definition transpose (a : matrix) : matrix :=
  tabulate2 (cols a) (rows a) (fun i j => at2 a j i).

(** [a @ b]. *)
Definition matmul (a b : matrix) : matrix :=
  tabulate2 (rows a) (cols b)
    (fun i j => sum_n (cols a) (fun k => at2 a i k * at2 b k j)).

(** [a + b] on two matrices of the same shape. *)
Definition madd : matrix -> matrix -> matrix := map2 (map2 add).
Definition mscale (c : float) (a : matrix) : matrix := map (map (mul c)) a.
End NumPy.

(** ** The quantum-chemistry engine, as the solver sees it *)

Module Psi4.
Import NumPy.

(** A block of the quadrature grid: coordinates, weights, number of points
and the map from the block's local basis functions to the global ones. *)
Record Block : Type := {
  x : vector;
  y : vector;
  z : vector;
  w : vector;
  npoints : nat;
  functions_local_to_global : list nat
}.

(** [points_func.basis_values()] after [points_func.compute_points(block)]:
one row per point, one column per local basis function. *)
Record BasisValues : Type := {
  PHI : matrix;
  PHI_X : matrix;
  PHI_Y : matrix;
  PHI_Z : matrix
}.

Definition PointsFunc : Type := Block -> BasisValues.

(** [psi4.core.VBase]: the blocks of the DFT grid and [properties()[0]]. *)
Record VBase : Type := {
  blocks : list Block;
  properties0 : PointsFunc
}.

Definition nblocks (V : VBase) : nat := length (blocks V).

(** The alternate grid description [(blocks, npoints, points_func)]. *)
Definition GridInfo : Type := (list Block * nat * PointsFunc)%type.

Record Wavefunction : Type := {
  name : string;
  wDa : matrix;
  wDb : matrix;
  wCa : matrix;
  epsilon_a : vector;
  epsilon_a_occ : vector;          (* epsilon_a_subset("AO", "OCC") *)
  opdm_full : matrix;              (* get_opdm(-1, -1, "SUM", True) *)
  opdm_active : matrix;            (* get_opdm(-1, -1, "SUM", False) *)
  tpdm : tensor4                   (* get_tpdm("SUM", True) *)
}.

Inductive DiagonalizeOrder : Type := Ascending | Descending.

(** The requests the solver sends to the engine. *)
Record Engine : Type := {
  (* psi4.core.VBase.build(self.basis, functional, "RV"), initialised *)
  VBase_build : VBase;
  (* psi4.energy(method, molecule=self.mol, return_wfn=True)[1] *)
  energy : string -> Wavefunction;
  (* self.dft_grid_to_fock(vxc, self.Vpot) *)
  dft_grid_to_fock : vector -> VBase -> matrix;
  (* self.diagonalize(fock, nalpha) = (C, Cocc, D, eigenvalues) *)
  diagonalize : matrix -> nat -> matrix * matrix * matrix * vector;
  (* self.grid_to_blocks(vxc_grid) *)
  grid_to_blocks : matrix -> GridInfo;
  (* psi4.core.MintsHelper(self.basis).ao_eri() *)
  ao_eri : tensor4;
  (* psi4.core.Matrix.diagonalize(order) = (eigenvectors, eigenvalues) *)
  Matrix_diagonalize : matrix -> DiagonalizeOrder -> matrix * vector
}.
End Psi4.

(** ** The solver *)

Module MRKS.
Import NumPy Psi4.
Local Open Scope float_scope.
Local Open Scope result_scope.

(** The attributes of [self] that [MRKS] reads or writes.  [Vpot] and
[vxc_hole_WF] start absent ([None]). *)
Record Solver : Type := {
  wfn : Wavefunction;
  ref : Z;
  guide_potential_components : list string;
  nalpha : nat;
  nbf : nat;
  basis_str : string;
  T : matrix;
  V : matrix;
  va : matrix;
  nt0 : matrix;                    (* self.nt[0] *)
  ct0 : matrix;                    (* self.ct[0] *)
  Vpot : option VBase;
  npoints_DFT : nat;
  vxc_hole_WF : option vector;
  Da : matrix;
  Coca : matrix;
  eigvecs_a : vector;
  Ca : matrix;
  Cb : matrix;
  Db : matrix;
  eigvecs_b : vector;
  shift : float
}.

Definition assert_message : string :=
  "Somehow the whole space is not fully integrated.".

(** *** Pieces shared by the quadrature passes *)

(** [np.array(points_func.basis_values()[key])[:l_npoints, :l_lpos.shape[0]]] *)
Definition local_values (m : matrix) (l_npoints nlocal : nat) : matrix :=
  map (firstn nlocal) (firstn l_npoints m).

(** [contract('pm,mn,pn->p', phi, lD, phi)] *)
Definition contract_pm_mn_pn (nlocal : nat) (phi lD : matrix) : vector :=
  map (fun row =>
         sum_n nlocal (fun m => sum_n nlocal (fun n =>
           at1 row m * at2 lD m n * at1 row n)))
      phi.

(** The grid a pass runs on: the blocks of the outer loop, the zeroed output
array and the basis evaluator. *)
Definition select_grid (self : Solver) (grid_info : option GridInfo)
  : result (list Block * vector * PointsFunc) :=
  match grid_info with
  | None =>
      match Vpot self with
      | None => Raise (AttributeError "Vpot")
      | Some vpot => Ok (blocks vpot, zeros (npoints_DFT self), properties0 vpot)
      end
  | Some (blocks, npoints, points_func) => Ok (blocks, zeros npoints, points_func)
  end.

(** The block loop of the three single-integral passes:
[out[iw:iw + l_npoints] = values(l_grid); iw += l_npoints]. *)
Fixpoint block_loop (values : Block -> result vector) (bs : list Block)
  (out : vector) (iw : nat) : result (vector * nat) :=
  match bs with
  | [] => Ok (out, iw)
  | l_grid :: rest =>
      let l_npoints := npoints l_grid in
      let? v := values l_grid in
      let? out' := set_slice out iw (iw + l_npoints) v in
      block_loop values rest out' (iw + l_npoints)
  end.

(** [assert iw == out.shape[0], "Somehow the whole space is not fully integrated."] *)
Definition assert_fully_integrated (r : vector * nat) : result vector :=
  let '(out, iw) := r in
  if (iw =? length out)%nat then Ok out
  else Raise (AssertionError assert_message).

(** *** [_average_local_orbital_energy] *)

(** The values of one block.  The label [i] of the contraction runs over
the columns of [C] and the entries of [eig]: their numbers must agree, one
of them being broadcast when it is one. *)
Definition ebar_block (points_func : PointsFunc) (D C : matrix) (eig : vector)
  (l_grid : Block) : result vector :=
  let l_npoints := npoints l_grid in
  let l_lpos := functions_local_to_global l_grid in
  let nlocal := length l_lpos in
  let l_phi := local_values (PHI (points_func l_grid)) l_npoints nlocal in
  let? lD := take2 D l_lpos l_lpos in
  let? lC := take_rows C l_lpos in
  let rho := contract_pm_mn_pn nlocal l_phi lD in
  (* contract("pm,mi,ni,i,pn->p", l_phi, lC, lC, eig, l_phi) / rho *)
  let? ni := label_size (cols C) (length eig) in
  let lC_at (m i : nat) : float :=
    at2 lC m (if (cols C =? 1)%nat then 0%nat else i) in
  Ok (map2 div
        (map (fun row =>
                sum_n nlocal (fun m => sum_n ni (fun i => sum_n nlocal (fun n =>
                  at1 row m * lC_at m i * lC_at n i * bat eig i * at1 row n))))
             l_phi)
        rho).

Definition _average_local_orbital_energy (self : Solver) (D C : matrix)
  (eig : vector) (grid_info : option GridInfo) : result vector :=
  let? g := select_grid self grid_info in
  let '(blocks, e_bar, points_func) := g in
  let? r := block_loop (ebar_block points_func D C eig) blocks e_bar 0 in
  assert_fully_integrated r.

(** *** [_pauli_kinetic_energy_density] *)

(** [contract('pm,mi,nj,pn->ijp', a, lC, lC, b)] at [(i, j, p)]. *)
Definition contract_pm_mi_nj_pn (nlocal : nat) (a lC b : matrix)
  (i j p : nat) : float :=
  sum_n nlocal (fun m => sum_n nlocal (fun n =>
    at2 a p m * at2 lC m i * at2 lC n j * at2 b p n)).

(** [np.expand_dims(occ, axis=1) @ np.expand_dims(occ, axis=0)] at [(i, j)]
of the product with an array whose last two dimensions are the columns of
[C]: when [occ] has one entry, that entry is read at every index. *)
Definition occ_matrix (occ : vector) (i j : nat) : float := bat occ i * bat occ j.

(** [occ] defaults to [np.ones(C.shape[1])]. *)
Definition default_occ (C : matrix) (occ : option vector) : vector :=
  match occ with
  | Some o => o
  | None => ones (cols C)
  end.

(** The values of one block.  The product with [occ_matrix] combines the
columns of [C] with the entries of [occ]: their numbers must agree, one of
them being broadcast when it is one. *)
Definition taup_block (points_func : PointsFunc) (D C : matrix) (occ : vector)
  (l_grid : Block) : result vector :=
  let l_npoints := npoints l_grid in
  let l_lpos := functions_local_to_global l_grid in
  let nlocal := length l_lpos in
  let bv := points_func l_grid in
  let l_phi := local_values (PHI bv) l_npoints nlocal in
  let l_phi_x := local_values (PHI_X bv) l_npoints nlocal in
  let l_phi_y := local_values (PHI_Y bv) l_npoints nlocal in
  let l_phi_z := local_values (PHI_Z bv) l_npoints nlocal in
  let? lD := take2 D l_lpos l_lpos in
  let rho := contract_pm_mn_pn nlocal l_phi lD in
  let? lC := take_rows C l_lpos in
  (* (part - np.transpose(part, (1, 0, 2))) ** 2 *)
  let part1 (d : matrix) (i j p : nat) : float :=
    F64.square (contract_pm_mi_nj_pn nlocal l_phi lC d i j p
                - contract_pm_mi_nj_pn nlocal l_phi lC d j i p) in
  (* np.sum((part1_x + part1_y + part1_z).T * occ_matrix, axis=(1,2)) * 0.5 *)
  let? norb := broadcast_size (cols C) (length occ) in
  let c (i : nat) : nat := if (cols C =? 1)%nat then 0%nat else i in
  let taup : vector :=
    map (fun p =>
           sum_n norb (fun j => sum_n norb (fun i =>
             (part1 l_phi_x (c i) (c j) p + part1 l_phi_y (c i) (c j) p
              + part1 l_phi_z (c i) (c j) p)
             * occ_matrix occ j i)) * 0.5)
        (seq 0 (length l_phi)) in
  (* taup / rho ** 2 * 0.5 *)
  Ok (map2 (fun t r => t / F64.square r * 0.5) taup rho).

Definition _pauli_kinetic_energy_density (self : Solver) (D C : matrix)
  (occ : option vector) (grid_info : option GridInfo) : result vector :=
  let occ := default_occ C occ in
  let? g := select_grid self grid_info in
  let '(blocks, taup_rho, points_func) := g in
  let? r := block_loop (taup_block points_func D C occ) blocks taup_rho 0 in
  assert_fully_integrated r.

(** *** [_modified_pauli_kinetic_energy_density] *)



(** *** [_vxc_hole_quadrature] *)

Definition atol_default : float := 1e-4.

(** The densities prepared before the block loops: the two-particle density
matrix in the atomic-orbital basis (correlated input only) and [D2]. *)
Definition Tau_ijkl (wf : Wavefunction) (i j u v : nat) : float :=
  (* contract("pqrs,ip,jq,ur,vs->ijuv", Tau_ijkl, C, C, C, C) *)
  let C := wCa wf in
  let n := length (tpdm wf) in
  sum_n n (fun p => sum_n n (fun q => sum_n n (fun r => sum_n n (fun s =>
    at4 (tpdm wf) p q r s * at2 C i p * at2 C j q * at2 C u r * at2 C v s)))).

Definition D2 (wf : Wavefunction) : matrix :=
  if String.eqb (name wf) "CIWavefunction"
  then matmul (matmul (wCa wf) (opdm_full wf)) (transpose (wCa wf))
  else madd (wDa wf) (wDb wf).

(** The exchange-correlation hole density [n_xc] of an outer and an inner
block, one row per outer point and one column per inner point. *)
(** The mesh of [l_lpos, l_lpos, r_lpos, r_lpos] indexes a tensor whose four
dimensions have the number of rows of the orbital matrix: when the mesh is
not empty, all its indices must be below it. *)
Definition mesh_in_range (wf : Wavefunction) (l_lpos r_lpos : list nat) : bool :=
  match l_lpos, r_lpos with
  | [], _ | _, [] => true
  | _, _ => forallb (fun i => (i <? rows (wCa wf))%nat) (l_lpos ++ r_lpos)
  end.

Definition n_xc_CI (wf : Wavefunction) (l_lpos r_lpos : list nat)
  (l_phi r_phi : matrix) (rho1inv : vector) : result matrix :=
  let nl := length l_lpos in
  let nr := length r_lpos in
  let? lD2 := take2 (D2 wf) r_lpos r_lpos in
  let rho2 := contract_pm_mn_pn nr r_phi lD2 in
  (* Tap_temp = Tau_ijkl[p, q, r, s] on the mesh of l_lpos, l_lpos, r_lpos, r_lpos *)
  let? _ := if mesh_in_range wf l_lpos r_lpos then Ok tt else Raise IndexError in
  let Tap_temp (m n u v : nat) : float :=
    Tau_ijkl wf (nth m l_lpos 0%nat) (nth n l_lpos 0%nat)
                (nth u r_lpos 0%nat) (nth v r_lpos 0%nat) in
  Ok (tabulate2 (length l_phi) (length r_phi) (fun p q =>
    (* contract("mnuv,pm,pn,qu,qv->pq", ...); n_xc *= rho1inv; n_xc -= rho2 *)
    sum_n nl (fun m => sum_n nl (fun n => sum_n nr (fun u => sum_n nr (fun v =>
      Tap_temp m n u v * at2 l_phi p m * at2 l_phi p n
      * at2 r_phi q u * at2 r_phi q v))))
    * at1 rho1inv p - at1 rho2 q)).

Definition n_xc_RHF (wf : Wavefunction) (l_lpos r_lpos : list nat)
  (l_phi r_phi : matrix) (rho1inv : vector) : result matrix :=
  let nl := length l_lpos in
  let nr := length r_lpos in
  let? lD2 := take2 (wDa wf) l_lpos r_lpos in
  Ok (tabulate2 (length l_phi) (length r_phi) (fun p q =>
    (* - 2 * contract("mu,nv,pm,pn,qu,qv->pq", ...); n_xc *= rho1inv *)
    (-2) * sum_n nl (fun m => sum_n nr (fun u => sum_n nl (fun n => sum_n nr (fun v =>
      at2 lD2 m u * at2 lD2 n v * at2 l_phi p m * at2 l_phi p n
      * at2 r_phi q u * at2 r_phi q v))))
    * at1 rho1inv p)).

Definition n_xc (wf : Wavefunction) (l_lpos r_lpos : list nat)
  (l_phi r_phi : matrix) (rho1inv : vector) : result matrix :=
  if String.eqb (name wf) "CIWavefunction"
  then n_xc_CI wf l_lpos r_lpos l_phi r_phi rho1inv
  else if String.eqb (name wf) "RHF"
  then n_xc_RHF wf l_lpos r_lpos l_phi r_phi rho1inv
  else Raise (UnboundLocalError "n_xc").

(** The matrix of squared distances between the outer and the inner points. *)
Definition distance2 (l_grid r_grid : Block) : matrix :=
  tabulate2 (length (x l_grid)) (length (x r_grid)) (fun p q =>
    F64.square (at1 (x l_grid) p - at1 (x r_grid) q)
    + F64.square (at1 (y l_grid) p - at1 (y r_grid) q)
    + F64.square (at1 (z l_grid) p - at1 (z r_grid) q)).

Definition coincident (atol : float) (r2 : float) : bool :=
  isclose r2 0 rtol_default atol.

(** [if np.any(np.isclose(R2, 0.0, atol=atol)):
       R2[np.isclose(R2, 0.0, atol=atol)] = np.inf] *)
Definition guard_coincident (atol : float) (R2 : matrix) : matrix :=
  if existsb (existsb (coincident atol)) R2
  then map (map (fun r2 => if coincident atol r2 then infinity else r2)) R2
  else R2.

(** [Rinv = 1 / np.sqrt(R2)] after the guard. *)
Definition Rinv (atol : float) (l_grid r_grid : Block) : matrix :=
  map (map (fun r2 => 1 / sqrt r2)) (guard_coincident atol (distance2 l_grid r_grid)).

(** [n_xc * Rinv * r_w]: the contribution of every pair of points.  The
three arrays are those of one pair of blocks of the engine: one row per
outer point, one column and one weight per inner point. *)
Definition pair_terms (nxc rinv : matrix) (r_w : vector) : matrix :=
  map (fun row => map2 mul row r_w) (map2 (map2 mul) nxc rinv).

(** [np.sum(n_xc * Rinv * r_w, axis=1)] for an outer block [l_grid], whose
basis values and inverse density are [l_phi] and [rho1inv], and an inner
block [r_grid]. *)
Definition inner_block_sum (wf : Wavefunction) (points_func : PointsFunc)
  (atol : float) (l_grid : Block) (l_phi : matrix) (rho1inv : vector)
  (r_grid : Block) : result vector :=
  let r_w := w r_grid in
  let r_npoints := length r_w in
  let l_lpos := functions_local_to_global l_grid in
  let r_lpos := functions_local_to_global r_grid in
  let r_phi := local_values (PHI (points_func r_grid)) r_npoints (length r_lpos) in
  let? nxc := n_xc wf l_lpos r_lpos l_phi r_phi rho1inv in
  Ok (map fsum (pair_terms nxc (Rinv atol l_grid r_grid) r_w)).

(** The loop over the inner set of blocks: [dvp_l += ...] for each of them. *)
Fixpoint inner_loop (term : Block -> result vector) (r_blocks : list Block)
  (dvp_l : vector) : result vector :=
  match r_blocks with
  | [] => Ok dvp_l
  | r_grid :: rest =>
      let? s := term r_grid in
      let? dvp_l' := iadd dvp_l s in
      inner_loop term rest dvp_l' 
  end.

(** The body of the outer loop: [dvp_l] of one outer block.  The inner loop
runs over [self.Vpot], whatever the grid of the outer loop is. *)
Definition hole_block (self : Solver) (points_func : PointsFunc) (atol : float)
  (l_grid : Block) : result vector :=
  let l_npoints := length (x l_grid) in
  let l_lpos := functions_local_to_global l_grid in
  let nlocal := length l_lpos in
  let l_phi := local_values (PHI (points_func l_grid)) l_npoints nlocal in
  let? lD1 := take2 (D2 (wfn self)) l_lpos l_lpos in
  let rho1 := contract_pm_mn_pn nlocal l_phi lD1 in
  let rho1inv := map (fun r => 1 / r) rho1 in
  let dvp_l := zeros l_npoints in
  match Vpot self with
  | None => Raise (AttributeError "Vpot")
  | Some vpot =>
      inner_loop (inner_block_sum (wfn self) points_func atol l_grid l_phi rho1inv)
                 (blocks vpot) dvp_l
  end.

(** The outer loop:
[vxchole[w1_old:w1_old + l_npoints] += dvp_l; w1_old += l_npoints]. *)
Fixpoint hole_block_loop (dvp : Block -> result vector) (bs : list Block)
  (vxchole : vector) (w1_old : nat) : result (vector * nat) :=
  match bs with
  | [] => Ok (vxchole, w1_old)
  | l_grid :: rest =>
      let l_npoints := length (x l_grid) in
      let? dvp_l := dvp l_grid in
      let? vxchole' := add_slice vxchole w1_old (w1_old + l_npoints) dvp_l in
      hole_block_loop dvp rest vxchole' (w1_old + l_npoints)
  end.

Definition hole_quadrature (self : Solver) (grid_info : option GridInfo)
  (atol : float) : result vector :=
  let? g := select_grid self grid_info in
  let '(blocks, vxchole, points_func) := g in
  let? r := hole_block_loop (hole_block self points_func atol) blocks vxchole 0 in
  assert_fully_integrated r.

(** The method returns its value and the solver, whose cache
[vxc_hole_WF] it fills when it ran on the internal grid.  Its progress
output, which reports the elapsed time, is left out. *)
Definition set_vxc_hole_WF (self : Solver) (v : vector) : Solver :=
  {| wfn := wfn self; ref := ref self;
     guide_potential_components := guide_potential_components self;
     nalpha := nalpha self; nbf := nbf self; basis_str := basis_str self;
     T := T self; V := V self; va := va self; nt0 := nt0 self; ct0 := ct0 self;
     Vpot := Vpot self; npoints_DFT := npoints_DFT self;
     vxc_hole_WF := Some v;
     Da := Da self; Coca := Coca self; eigvecs_a := eigvecs_a self;
     Ca := Ca self; Cb := Cb self; Db := Db self; eigvecs_b := eigvecs_b self;
     shift := shift self |}.

Definition _vxc_hole_quadrature (self : Solver) (grid_info : option GridInfo)
  (atol : float) : result vector * Solver :=
  match vxc_hole_WF self, grid_info with
  | Some cached, None => (Ok cached, self)
  | _, _ =>
      match hole_quadrature self grid_info atol, grid_info with
      | Ok vxchole, None => (Ok vxchole, set_vxc_hole_WF self vxchole)
      | r, _ => (r, self)
      end
  end.

(** *** The state threaded through [mRKS] *)

(** What the solver asks of the engine, and what it prints. *)
Inductive event : Type :=
| BuildGrid                          (* VBase.build(...) and initialize() *)
| SetPointers                        (* points_func.set_pointers(wfn.Da()) *)
| Clean                              (* psi4.core.clean() *)
| AoEri                              (* MintsHelper(basis).ao_eri() *)
| MatrixDiagonalize (order : DiagonalizeOrder)
| Energy (method : string)           (* psi4.energy(method, ...) *)
| GridToFock                         (* self.dft_grid_to_fock(vxc, Vpot) *)
| Diagonalize                        (* self.diagonalize(fock_a, nalpha) *)
| GridToBlocks                       (* self.grid_to_blocks(vxc_grid) *)
| Print (line : string)
| PrintMemory (memory_footprint : float)
| PrintIter (mRKS_step : nat) (Derror eerror verror : float).

Record World : Type := {
  self_ : Solver;
  trace : list event                 (* oldest first *)
}.

Definition M (A : Type) : Type := World -> result A * World.

Definition ret {A} (a : A) : M A := fun w => (Ok a, w).

Definition bind {A B} (c : M A) (k : A -> M B) : M B :=
  fun w =>
    match c w with
    | (Ok a, w') => k a w'
    | (Raise e, w') => (Raise e, w')
    end.

Definition raise {A} (e : exn) : M A := fun w => (Raise e, w).

Definition lift {A} (r : result A) : M A := fun w => (r, w).

Definition get_self : M Solver := fun w => (Ok (self_ w), w).

Definition modify_self (f : Solver -> Solver) : M unit :=
  fun w => (Ok tt, {| self_ := f (self_ w); trace := trace w |}).

Definition emit (e : event) : M unit :=
  fun w => (Ok tt, {| self_ := self_ w; trace := trace w ++ [e] |}).

Declare Scope mrks_scope.
Delimit Scope mrks_scope with mrks.
Notation "x <- c ;; k" := (bind c (fun x => k))
  (at level 61, c at next level, right associativity) : mrks_scope.
Notation "c ;; k" := (bind c (fun _ => k))
  (at level 61, right associativity) : mrks_scope.
Local Open Scope mrks_scope.

(** Attribute assignments. *)
Definition set_grid (vpot : VBase) (n : nat) (self : Solver) : Solver :=
  {| wfn := wfn self; ref := ref self;
     guide_potential_components := guide_potential_components self;
     nalpha := nalpha self; nbf := nbf self; basis_str := basis_str self;
     T := T self; V := V self; va := va self; nt0 := nt0 self; ct0 := ct0 self;
     Vpot := Some vpot; npoints_DFT := n;
     vxc_hole_WF := vxc_hole_WF self;
     Da := Da self; Coca := Coca self; eigvecs_a := eigvecs_a self;
     Ca := Ca self; Cb := Cb self; Db := Db self; eigvecs_b := eigvecs_b self;
     shift := shift self |}.

Definition set_guess (D C : matrix) (eps : vector) (self : Solver) : Solver :=
  {| wfn := wfn self; ref := ref self;
     guide_potential_components := guide_potential_components self;
     nalpha := nalpha self; nbf := nbf self; basis_str := basis_str self;
     T := T self; V := V self; va := va self; nt0 := nt0 self; ct0 := ct0 self;
     Vpot := Vpot self; npoints_DFT := npoints_DFT self;
     vxc_hole_WF := vxc_hole_WF self;
     Da := D; Coca := C; eigvecs_a := eps;
     Ca := Ca self; Cb := Cb self; Db := Db self; eigvecs_b := eigvecs_b self;
     shift := shift self |}.

Definition set_shift (s : float) (self : Solver) : Solver :=
  {| wfn := wfn self; ref := ref self;
     guide_potential_components := guide_potential_components self;
     nalpha := nalpha self; nbf := nbf self; basis_str := basis_str self;
     T := T self; V := V self; va := va self; nt0 := nt0 self; ct0 := ct0 self;
     Vpot := Vpot self; npoints_DFT := npoints_DFT self;
     vxc_hole_WF := vxc_hole_WF self;
     Da := Da self; Coca := Coca self; eigvecs_a := eigvecs_a self;
     Ca := Ca self; Cb := Cb self; Db := Db self; eigvecs_b := eigvecs_b self;
     shift := s |}.

Definition set_alpha (C Cocc D : matrix) (eps : vector) (self : Solver) : Solver :=
  {| wfn := wfn self; ref := ref self;
     guide_potential_components := guide_potential_components self;
     nalpha := nalpha self; nbf := nbf self; basis_str := basis_str self;
     T := T self; V := V self; va := va self; nt0 := nt0 self; ct0 := ct0 self;
     Vpot := Vpot self; npoints_DFT := npoints_DFT self;
     vxc_hole_WF := vxc_hole_WF self;
     Da := D; Coca := Cocc; eigvecs_a := eps;
     Ca := C; Cb := Cb self; Db := Db self; eigvecs_b := eigvecs_b self;
     shift := shift self |}.

Definition set_beta (C D : matrix) (eps : vector) (self : Solver) : Solver :=
  {| wfn := wfn self; ref := ref self;
     guide_potential_components := guide_potential_components self;
     nalpha := nalpha self; nbf := nbf self; basis_str := basis_str self;
     T := T self; V := V self; va := va self; nt0 := nt0 self; ct0 := ct0 self;
     Vpot := Vpot self; npoints_DFT := npoints_DFT self;
     vxc_hole_WF := vxc_hole_WF self;
     Da := Da self; Coca := Coca self; eigvecs_a := eigvecs_a self;
     Ca := Ca self; Cb := C; Db := D; eigvecs_b := eps;
     shift := shift self |}.

(** [_vxc_hole_quadrature] as a method call. *)
Definition call_vxc_hole_quadrature (grid_info : option GridInfo) (atol : float)
  : M vector :=
  fun w =>
    let '(r, self') := _vxc_hole_quadrature (self_ w) grid_info atol in
    (r, {| self_ := self'; trace := trace w |}).

(** *** [_diagonalize_with_potential_mRKS] *)

Definition _diagonalize_with_potential_mRKS (eng : Engine) (v : option matrix)
  : M unit :=
  self <- get_self ;;
  let fock_a :=
    match v with
    | None => madd (madd (V self) (T self)) (va self)
    | Some v => madd (madd (madd (V self) (T self)) (va self)) v
    end in
  emit Diagonalize ;;
  let '(C, Cocc, D, eps) := diagonalize eng fock_a (nalpha self) in
  modify_self (set_alpha C Cocc D eps) ;;
  if (ref self =? 1)%Z
  then modify_self (set_beta C D eps)
  else raise (ValueError "Currently only spin-restricted in implemented.").

(** *** [mRKS]: configuration checks *)

Definition unsupported_wfn_message : string :=
  "Currently only supports Psi4 CI wavefunctioninputs because Psi4 CCSD wavefunction currently does not support two-particle density matrices.".
Definition unrestricted_message : string :=
  "Currently only supports Spin-Restricted calculations since Spin-Unrestricted CI is not supported by Psi4.".
Definition hartree_message : string :=
  "Hartree potential is necessary as the guide potential.".

Definition supported_wfn (n : string) : bool :=
  String.eqb n "CIWavefunction" || String.eqb n "RHF".

(** The three checks that open [mRKS], in the order of the source.  Indexing
an empty list of guide components is Python's [IndexError]. *)
Definition check_configuration (self : Solver) : result unit :=
  if negb (supported_wfn (name (wfn self)))
  then Raise (ValueError unsupported_wfn_message)
  else if negb (ref self =? 1)%Z
  then Raise (ValueError unrestricted_message)
  else match guide_potential_components self with
       | [] => Raise IndexError
       | first :: _ =>
           if negb (String.eqb first "hartree")
           then Raise (ValueError hartree_message)
           else Ok tt
       end.

(** *** [mRKS]: the DFT grid and the reference quantities *)

Definition prepare_grid (eng : Engine) : M unit :=
  emit BuildGrid ;;
  let vpot := VBase_build eng in
  let n := fold_left (fun acc blk => (acc + length (x blk))%nat) (blocks vpot) 0%nat in
  modify_self (set_grid vpot n) ;;
  emit SetPointers.

(** What the reference branch leaves in local variables for the output grid. *)
Inductive Reference : Type :=
| CI_reference (C_a_GFM : matrix) (eigs_a_GFM : vector)
               (C_a_NO : matrix) (eigs_a_NO : vector)
| RHF_reference (epsilon_a : vector).

(** The message of the memory check, without the two formatted numbers. *)
Definition memory_message : string :=
  "Estimated memory utilization exceeds allotted memory limit.".

(** The generalized Fock matrix of the correlated reference, on the basis of
molecular orbitals. *)
Definition F_GFM (eng : Engine) (self : Solver) : matrix :=
  let n := nbf self in
  let opdm := opdm_active (wfn self) in
  let tpdm := tpdm (wfn self) in
  let Ca := wCa (wfn self) in
  let I_ao := ao_eri eng in
  (* contract("ijkl,ip,jq,kr,ls", I, Ca, Ca, Ca, Ca) *)
  let I_mo (p q r s : nat) : float :=
    sum_n n (fun i => sum_n n (fun j => sum_n n (fun k => sum_n n (fun l =>
      at4 I_ao i j k l * at2 Ca i p * at2 Ca j q * at2 Ca k r * at2 Ca l s)))) in
  (* 0.5 * I + 0.25 * np.transpose(I, [0, 1, 3, 2]) + 0.25 * np.transpose(I, [1, 0, 2, 3]) *)
  let I (p q r s : nat) : float :=
    0.5 * I_mo p q r s + 0.25 * I_mo p q s r + 0.25 * I_mo q p r s in
  let h := matmul (matmul (transpose Ca) (madd (T self) (V self))) Ca in
  (* opdm @ h + contract("rsnq,rsmq->mn", I, tpdm) *)
  let F :=
    madd (matmul opdm h)
         (tabulate2 n n (fun m n' =>
            sum_n n (fun r => sum_n n (fun s => sum_n n (fun q =>
              I r s n' q * at4 tpdm r s m q))))) in
  mscale 0.5 (madd F (transpose F)).

Definition reference_quantities (eng : Engine)
  : M (vector * vector * Reference) :=
  self <- get_self ;;
  let Nalpha := nalpha self in
  if String.eqb (name (wfn self)) "CIWavefunction" then
    let I_size := F64.of_nat (nbf self ^ 4) * 8e-9 * 2 in
    let memory_footprint := I_size * 1.5 in
    if 2 <? I_size then
      emit Clean ;; raise (Exception memory_message)
    else
      emit (PrintMemory memory_footprint) ;;
      emit AoEri ;;
      emit (MatrixDiagonalize Ascending) ;;
      let '(C, eigs) := Matrix_diagonalize eng (F_GFM eng self) Ascending in
      let eigs_a_GFM := map (fun e => e / 2.0) eigs in
      let C_a_GFM := matmul (wCa (wfn self)) C in
      emit (MatrixDiagonalize Descending) ;;
      let '(C, eigs) := Matrix_diagonalize eng (opdm_active (wfn self)) Descending in
      let eigs_a_NO := map (fun e => e / 2.0) eigs in
      let C_a_NO := matmul (wCa (wfn self)) C in
      ebarWF <- lift (_average_local_orbital_energy self (nt0 self) C_a_GFM eigs_a_GFM None) ;;
      taup_rho_WF <- lift (_pauli_kinetic_energy_density self (nt0 self) C_a_NO (Some eigs_a_NO) None) ;;
      ret (ebarWF, taup_rho_WF, CI_reference C_a_GFM eigs_a_GFM C_a_NO eigs_a_NO)
  else if String.eqb (name (wfn self)) "RHF" then
    let epsilon_a := epsilon_a_occ (wfn self) in
    ebarWF <- lift (_average_local_orbital_energy self (nt0 self)
                      (first_cols (ct0 self) Nalpha) epsilon_a None) ;;
    taup_rho_WF <- lift (_pauli_kinetic_energy_density self (nt0 self) (ct0 self) None None) ;;
    ret (ebarWF, taup_rho_WF, RHF_reference epsilon_a)
  else raise (ValueError unrestricted_message).

(** *** [mRKS]: the initial guess *)

Inductive InitArg : Type :=
| InitMethod (s : string)
| InitWavefunction (wf : Wavefunction).

Definition lower_ascii (c : Ascii.ascii) : Ascii.ascii :=
  let n := Ascii.nat_of_ascii c in
  if ((65 <=? n) && (n <=? 90))%nat then Ascii.ascii_of_nat (n + 32) else c.

Fixpoint lower (s : string) : string :=
  match s with
  | EmptyString => EmptyString
  | String c rest => String (lower_ascii c) (lower rest)
  end.

Definition initial_guess (eng : Engine) (init : InitArg) : M unit :=
  self <- get_self ;;
  let Nalpha := nalpha self in
  match init with
  | InitWavefunction wf =>
      modify_self (set_guess (wDa wf) (first_cols (wCa wf) Nalpha) (epsilon_a wf))
  | InitMethod s =>
      if String.eqb (lower s) "continue" then ret tt
      else
        let method := (s ++ "/" ++ basis_str self)%string in
        emit (Energy method) ;;
        let wfn_temp := energy eng method in
        modify_self (set_guess (wDa wfn_temp) (first_cols (wCa wfn_temp) Nalpha)
                               (epsilon_a wfn_temp))
  end.

(** *** [mRKS]: the fixed-point loop *)

(** The value of [vxc_old], [Da_old] or [eig_old]: the scalar [0.0] they are
initialised with, or the array copied at the end of an iteration. *)
Inductive Old (A : Type) : Type :=
| Scalar (c : float)
| Array (a : A).

Arguments Scalar {A} c.
Arguments Array {A} a.

(** [v - old], [m - old] and [v + old] with NumPy's broadcasting of a scalar. *)
Definition vsub_old (v : vector) (old : Old vector) : result vector :=
  match old with
  | Scalar c => Ok (map (fun e => e - c) v)
  | Array a => vsub v a
  end.

Definition msub_old (m : matrix) (old : Old matrix) : matrix :=
  match old with
  | Scalar c => map (map (fun e => e - c)) m
  | Array a => msub m a
  end.

Definition vadd_old (v : vector) (old : Old vector) : result vector :=
  match old with
  | Scalar c => Ok (vadds v c)
  | Array a => vadd v a
  end.

Definition scale_old (old : Old vector) (c : float) : Old vector :=
  match old with
  | Scalar s => Scalar (s * c)
  | Array a => Array (vscale a c)
  end.

(** [vxchole + ebarKS - ebarWF + taup_rho_WF - taup_rho_KS + potential_shift] *)
Definition assemble (vxchole ebarKS ebarWF taup_rho_WF taup_rho_KS : vector)
  (potential_shift : float) : result vector :=
  let? a := vadd vxchole ebarKS in
  let? b := vsub a ebarWF in
  let? c := vadd b taup_rho_WF in
  let? d := vsub c taup_rho_KS in
  Ok (vadds d potential_shift).

(** [vxc * (1 - frac_old) + vxc_old * frac_old] *)
Definition mix (vxc : vector) (vxc_old : Old vector) (frac_old : float)
  : result vector :=
  vadd_old (vscale vxc (1 - frac_old)) (scale_old vxc_old frac_old).

(** The three error metrics. *)
Definition potential_error (self : Solver) (vxc : vector) (vxc_old : Old vector)
  : result float :=
  let? d := vsub_old vxc vxc_old in
  Ok (norm d / F64.of_nat (nbf self ^ 2)).

Definition density_error (self : Solver) (Da_old : Old matrix) : float :=
  mnorm (msub_old (Da self) Da_old) / F64.of_nat (nbf self ^ 2).

Definition eigenvalue_error (self : Solver) (eig_old : Old vector)
  : result float :=
  let? d := vsub_old (firstn (nalpha self) (eigvecs_a self)) eig_old in
  Ok (norm d / F64.of_nat (nalpha self)).

(** The arguments of [mRKS] read by the loop. *)
Record Tolerances : Type := {
  v_tol : float;
  D_tol : float;
  eig_tol : float;
  frac_old : float
}.

Definition default_tolerances : Tolerances :=
  {| v_tol := 1e-4; D_tol := 1e-7; eig_tol := 1e-4; frac_old := 0.0 |}.

(** The quantities fixed before the loop. *)
Record LoopInputs : Type := {
  in_vxchole : vector;
  in_ebarWF : vector;
  in_taup_rho_WF : vector;
  in_emax : float
}.

(** The local variables the loop assigns.  [vxc], [ebarKS] and [taup_rho_KS]
are unbound until the first iteration. *)
Record Locals : Type := {
  vxc : option vector;
  ebarKS : option vector;
  taup_rho_KS : option vector;
  vxc_old : Old vector;
  Da_old : Old matrix;
  eig_old : Old vector
}.

Definition initial_locals : Locals :=
  {| vxc := None; ebarKS := None; taup_rho_KS := None;
     vxc_old := Scalar 0.0; Da_old := Scalar 0.0; eig_old := Scalar 0.0 |}.

Inductive Outcome : Type :=
| Break (loc : Locals)
| Continue (loc : Locals).

(** [potential_shift = emax - np.max(ebarKS)] *)
Definition loop_shift (emax : float) (ebarKS : vector) : result float :=
  let? max_KS := NumPy.max ebarKS in
  Ok (emax - max_KS).

(** The head of the loop body, up to the shift: the current-state
quadratures and [potential_shift]. *)
Definition current_fields (self : Solver) (inp : LoopInputs)
  : result (vector * vector * float) :=
  let Nalpha := nalpha self in
  let? ebarKS := _average_local_orbital_energy self (Da self) (Coca self)
                   (firstn Nalpha (eigvecs_a self)) None in
  let? taup_rho_KS := _pauli_kinetic_energy_density self (Da self) (Coca self)
                        None None in
  let? potential_shift := loop_shift (in_emax inp) ebarKS in
  Ok (ebarKS, taup_rho_KS, potential_shift).

(** The candidate potential of an iteration:
[(ebarKS, taup_rho_KS, potential_shift, vxc)]. *)
Definition candidate (self : Solver) (inp : LoopInputs)
  : result (vector * vector * float * vector) :=
  let? h := current_fields self inp in
  let '(ebarKS, taup_rho_KS, potential_shift) := h in
  let? vxc := assemble (in_vxchole inp) ebarKS (in_ebarWF inp)
                       (in_taup_rho_WF inp) taup_rho_KS potential_shift in
  Ok (ebarKS, taup_rho_KS, potential_shift, vxc).

(** The potential handed to the Fock build: mixed, except at the first step. *)
Definition mixed (tol : Tolerances) (mRKS_step : nat) (vxc : vector)
  (vxc_old : Old vector) : result vector :=
  if negb (mRKS_step =? 1)%nat
  then mix vxc vxc_old (frac_old tol)
  else Ok vxc.

(** The local variables when the loop is left by a [break]: the candidate
of this iteration, and the saved quantities of the previous one. *)
Definition stopped (loc : Locals) (ebarKS taup_rho_KS vxc : vector) : Locals :=
  {| vxc := Some vxc; ebarKS := Some ebarKS; taup_rho_KS := Some taup_rho_KS;
     vxc_old := vxc_old loc; Da_old := Da_old loc; eig_old := eig_old loc |}.

(** The local variables after "Save old data.": copies of the potential
handed to the Fock build and of the density and occupied eigenvalues the
iteration started from. *)
Definition saved (self : Solver) (ebarKS taup_rho_KS vxc : vector) : Locals :=
  {| vxc := Some vxc; ebarKS := Some ebarKS; taup_rho_KS := Some taup_rho_KS;
     vxc_old := Array vxc; Da_old := Array (Da self);
     eig_old := Array (firstn (nalpha self) (eigvecs_a self)) |}.

(** One pass through the body of [for mRKS_step in range(1, maxiter+1)],
statement by statement: the shift is stored before the potential is
assembled, and the density and eigenvalue errors are computed only when the
potential test has failed. *)
Definition iteration (eng : Engine) (tol : Tolerances) (inp : LoopInputs)
  (mRKS_step : nat) (loc : Locals) : M Outcome :=
  self <- get_self ;;
  h <- lift (current_fields self inp) ;;
  let '(ebarKS, taup_rho_KS, potential_shift) := h in
  modify_self (set_shift potential_shift) ;;
  vxc <- lift (assemble (in_vxchole inp) ebarKS (in_ebarWF inp)
                        (in_taup_rho_WF inp) taup_rho_KS potential_shift) ;;
  verror <- lift (potential_error self vxc (vxc_old loc)) ;;
  if verror <? v_tol tol then
    emit (Print "vxc stops updating.") ;;
    ret (Break (stopped loc ebarKS taup_rho_KS vxc))
  else
    let Derror := density_error self (Da_old loc) in
    eerror <- lift (eigenvalue_error self (eig_old loc)) ;;
    if (Derror <? D_tol tol) && (eerror <? eig_tol tol) then
      emit (Print "KSDFT stops updating.") ;;
      ret (Break (stopped loc ebarKS taup_rho_KS vxc))
    else
      (* linear Mixture *)
      vxc <- lift (mixed tol mRKS_step vxc (vxc_old loc)) ;;
      vpot <- match Vpot self with
              | Some vpot => ret vpot
              | None => raise (AttributeError "Vpot")
              end ;;
      emit GridToFock ;;
      let vxc_Fock := dft_grid_to_fock eng vxc vpot in
      _diagonalize_with_potential_mRKS eng (Some vxc_Fock) ;;
      emit (PrintIter mRKS_step Derror eerror verror) ;;
      ret (Continue (saved self ebarKS taup_rho_KS vxc)).

(** The loop over [steps], the values [range(1, maxiter+1)] still to run. *)
Fixpoint loop (eng : Engine) (tol : Tolerances) (inp : LoopInputs)
  (steps : list nat) (loc : Locals) : M Locals :=
  match steps with
  | [] => ret loc
  | mRKS_step :: rest =>
      o <- iteration eng tol inp mRKS_step loc ;;
      match o with
      | Break loc' => ret loc'
      | Continue loc' => loop eng tol inp rest loc'
      end
  end.

(** [range(1, maxiter+1)] *)
Definition steps_of (maxiter : Z) : list nat := seq 1 (Z.to_nat maxiter).

(** *** [mRKS]: the output grid and the return value *)

Definition Fields : Type :=
  (vector * vector * vector * vector * vector * vector)%type.

(** The shift recomputed on the output grid: [np.max(ebarWF) - np.max(ebarKS)]. *)
Definition output_shift (ebarWF ebarKS : vector) : result float :=
  let? max_WF := NumPy.max ebarWF in
  let? max_KS := NumPy.max ebarKS in
  Ok (max_WF - max_KS).

Definition output_fields (eng : Engine) (reference : Reference) (vxc_grid : matrix)
  : M Fields :=
  emit GridToBlocks ;;
  let grid_info := grid_to_blocks eng vxc_grid in
  emit SetPointers ;;
  vxchole <- call_vxc_hole_quadrature (Some grid_info) atol_default ;;
  self <- get_self ;;
  let Nalpha := nalpha self in
  wf <- match reference with
        | CI_reference C_a_GFM eigs_a_GFM C_a_NO eigs_a_NO =>
            ebarWF <- lift (_average_local_orbital_energy self (nt0 self)
                              C_a_GFM eigs_a_GFM (Some grid_info)) ;;
            taup_rho_WF <- lift (_pauli_kinetic_energy_density self (nt0 self)
                                   C_a_NO (Some eigs_a_NO) (Some grid_info)) ;;
            ret (ebarWF, taup_rho_WF)
        | RHF_reference epsilon_a =>
            ebarWF <- lift (_average_local_orbital_energy self (nt0 self)
                              (ct0 self) (firstn Nalpha epsilon_a) (Some grid_info)) ;;
            taup_rho_WF <- lift (_pauli_kinetic_energy_density self (nt0 self)
                                   (ct0 self) None (Some grid_info)) ;;
            ret (ebarWF, taup_rho_WF)
        end ;;
  let '(ebarWF, taup_rho_WF) := wf in
  ebarKS <- lift (_average_local_orbital_energy self (Da self) (Coca self)
                    (firstn Nalpha (eigvecs_a self)) (Some grid_info)) ;;
  taup_rho_KS <- lift (_pauli_kinetic_energy_density self (Da self) (Coca self)
                         None (Some grid_info)) ;;
  potential_shift <- lift (output_shift ebarWF ebarKS) ;;
  modify_self (set_shift potential_shift) ;;
  vxc <- lift (assemble vxchole ebarKS ebarWF taup_rho_WF taup_rho_KS
                        potential_shift) ;;
  ret (vxc, vxchole, ebarKS, ebarWF, taup_rho_WF, taup_rho_KS).

(** [return vxc, vxchole, ebarKS, ebarWF, taup_rho_WF, taup_rho_KS] when no
output grid was given: a variable the loop never assigned is unbound. *)
Definition internal_fields (inp : LoopInputs) (loc : Locals) : result Fields :=
  match vxc loc, ebarKS loc, taup_rho_KS loc with
  | Some vxc, Some ebarKS, Some taup_rho_KS =>
      Ok (vxc, in_vxchole inp, ebarKS, in_ebarWF inp, in_taup_rho_WF inp, taup_rho_KS)
  | None, _, _ => Raise (UnboundLocalError "vxc")
  | _, None, _ => Raise (UnboundLocalError "ebarKS")
  | _, _, None => Raise (UnboundLocalError "taup_rho_KS")
  end.

(** *** [mRKS] *)

(** Everything before the loop: the configuration checks, the DFT grid, the
reference quantities, the hole potential, [emax] and the initial guess. *)
Definition setup (eng : Engine) (init : InitArg) : M (LoopInputs * Reference) :=
  self <- get_self ;;
  lift (check_configuration self) ;;
  (* Preparing DFT spherical grid *)
  prepare_grid eng ;;
  (* Preparing for WF properties *)
  wf <- reference_quantities eng ;;
  let '(ebarWF, taup_rho_WF, reference) := wf in
  vxchole <- call_vxc_hole_quadrature None atol_default ;;
  emax <- lift (NumPy.max ebarWF) ;;
  (* Initialization. *)
  initial_guess eng init ;;
  ret ({| in_vxchole := vxchole; in_ebarWF := ebarWF;
          in_taup_rho_WF := taup_rho_WF; in_emax := emax |}, reference).

Definition mRKS (eng : Engine) (maxiter : Z) (vxc_grid : option matrix)
  (tol : Tolerances) (init : InitArg) : M Fields :=
  s <- setup eng init ;;
  let '(inp, reference) := s in
  loc <- loop eng tol inp (steps_of maxiter) initial_locals ;;
  match vxc_grid with
  | Some g => output_fields eng reference g
  | None => lift (internal_fields inp loc)
  end.

(** *** Notions used in the statements *)

Definition is_diagonalize (e : event) : bool :=
  match e with
  | Diagonalize => true
  | _ => false
  end.

(** The number of re-diagonalisation requests in a trace. *)
Definition diagonalizations (tr : list event) : nat :=
  length (filter is_diagonalize tr).

Definition is_iter_line (e : event) : bool :=
  match e with
  | PrintIter _ _ _ _ => true
  | _ => false
  end.

(** The number of iterations that ran to their last line. *)
Definition completed_iterations (tr : list event) : nat :=
  length (filter is_iter_line tr).

(** Which of the two tests of the loop is satisfied by three computed
errors, in the order of the source: the potential test first. *)
Inductive Verdict : Type :=
| StopPotential                      (* "vxc stops updating." *)
| StopState                          (* "KSDFT stops updating." *)
| KeepGoing.

Definition verdict (tol : Tolerances) (verror Derror eerror : float) : Verdict :=
  if verror <? v_tol tol then StopPotential
  else if (Derror <? D_tol tol) && (eerror <? eig_tol tol) then StopState
  else KeepGoing.

(** A block whose four arrays have [npoints] entries. *)
Definition well_formed (b : Block) : Prop :=
  length (x b) = npoints b /\ length (y b) = npoints b /\
  length (z b) = npoints b /\ length (w b) = npoints b.


(** The evaluator returns a row of basis values for every point of a block. *)
Definition basis_rows (points_func : PointsFunc) (bs : list Block) : Prop :=
  Forall (fun b => npoints b <= length (PHI (points_func b))) bs.

(** In the words of the claim about the guard: the hole density [n_xc] of
the pairs of an outer block [l_grid] and an inner block [r_grid], as the
quadrature computes it. *)
Definition pair_density (self : Solver) (points_func : PointsFunc)
  (l_grid r_grid : Block) : result matrix :=
  let l_lpos := functions_local_to_global l_grid in
  let l_phi :=
    local_values (PHI (points_func l_grid)) (length (x l_grid)) (length l_lpos) in
  let? lD1 := take2 (D2 (wfn self)) l_lpos l_lpos in
  let rho1inv := map (fun r => 1 / r) (contract_pm_mn_pn (length l_lpos) l_phi lD1) in
  let r_lpos := functions_local_to_global r_grid in
  let r_phi :=
    local_values (PHI (points_func r_grid)) (length (w r_grid)) (length r_lpos) in
  n_xc (wfn self) l_lpos r_lpos l_phi r_phi rho1inv.

(** The terms of the outer point [p] with the inner points [q] of [r_grid]
that do not coincide with it: the hole density times the reciprocal of the
distance times the inner weight. *)
Definition distant_terms (atol : float) (l_grid r_grid : Block) (nxc : matrix)
  (p : nat) : list float :=
  map (fun q => at2 nxc p q * (1 / sqrt (at2 (distance2 l_grid r_grid) p q))
                * at1 (w r_grid) q)
      (filter (fun q => negb (coincident atol (at2 (distance2 l_grid r_grid) p q)))
              (seq 0 (length (w r_grid)))).

(** The sum of those terms, inner block after inner block. *)
Definition distant_total (atol : float) (l_grid : Block) (p : nat)
  (inner : list (Block * matrix)) (acc : float) : float :=
  fold_left (fun acc rn => acc + fsum (distant_terms atol l_grid (fst rn) (snd rn) p))
            inner acc.


(** What [mRKS] has established when the loop starts and every iteration
keeps: a spin-restricted solver with its grid attached. *)
Definition Ready (w : World) : Prop :=
  ref (self_ w) = 1%Z /\ exists vpot, Vpot (self_ w) = Some vpot.
End MRKS.

(** ** A small closed-shell system on which the model runs *)

Module Example.
Import NumPy Psi4 MRKS.
Local Open Scope float_scope.
Local Open Scope string_scope.

(** Two points on the x axis, one basis function. *)
Definition block : Block :=
  {| x := [0; 1]; y := [0; 0]; z := [0; 0]; w := [0.5; 0.5];
     npoints := 2; functions_local_to_global := [0%nat] |}.

Definition points_func : PointsFunc := fun b =>
  {| PHI := map (fun c => [1 / (1 + c * c)]) (x b);
     PHI_X := map (fun c => [0.25 * c]) (x b);
     PHI_Y := map (fun _ => [0.5]) (x b);
     PHI_Z := map (fun _ => [0.125]) (x b) |}.

Definition vpot : VBase := {| blocks := [block]; properties0 := points_func |}.

Definition rhf : Wavefunction :=
  {| name := "RHF"; wDa := [[1]]; wDb := [[1]]; wCa := [[1]];
     epsilon_a := [-0.5]; epsilon_a_occ := [-0.5];
     opdm_full := [[2]]; opdm_active := [[2]]; tpdm := [[[[2]]]] |}.

(** One point between the two of [block], for the output grid. *)
Definition output_block : Block :=
  {| x := [0.5]; y := [0]; z := [0]; w := [1];
     npoints := 1; functions_local_to_global := [0%nat] |}.

Definition engine : Engine :=
  {| VBase_build := vpot;
     energy := fun _ => rhf;
     dft_grid_to_fock := fun v _ => [[fsum v]];
     diagonalize := fun f _ => ([[1]], [[1]], [[1]], [at2 f 0 0]);
     grid_to_blocks := fun _ => ([output_block], 1%nat, points_func);
     ao_eri := [[[[1]]]];
     Matrix_diagonalize := fun m _ => ([[1]], [at2 m 0 0]) |}.

Definition solver : Solver :=
  {| wfn := rhf; ref := 1; guide_potential_components := ["hartree"];
     nalpha := 1; nbf := 1; basis_str := "sto-3g";
     T := [[0.5]]; V := [[-1]]; va := [[0.25]]; nt0 := [[1]]; ct0 := [[1]];
     Vpot := None; npoints_DFT := 0; vxc_hole_WF := None;
     Da := []; Coca := []; eigvecs_a := [];
     Ca := []; Cb := []; Db := []; eigvecs_b := []; shift := 0 |}.

Definition world : World := {| self_ := solver; trace := [] |}.

(** Tolerances no error can be below. *)
Definition negative_tolerances : Tolerances :=
  {| v_tol := -1; D_tol := -1; eig_tol := -1; frac_old := 0.5 |}.

(** The solver after the grid has been attached. *)
Definition gridded : Solver := set_grid vpot 2 solver.

(** The same system on a grid of a single point: the point coincides with
itself, so its hole potential is a zero. *)
Definition single_block : Block :=
  {| x := [0]; y := [0]; z := [0]; w := [1];
     npoints := 1; functions_local_to_global := [0%nat] |}.

Definition single_point_engine : Engine :=
  {| VBase_build := {| blocks := [single_block]; properties0 := points_func |};
     energy := energy engine;
     dft_grid_to_fock := dft_grid_to_fock engine;
     diagonalize := diagonalize engine;
     grid_to_blocks := grid_to_blocks engine;
     ao_eri := ao_eri engine;
     Matrix_diagonalize := Matrix_diagonalize engine |}.

(** The state [mRKS] enters its loop in, and the quantities fixed before
the loop. *)
Definition at_loop_entry : result (LoopInputs * Reference) * World :=
  setup engine (InitMethod "svwn") world.

Definition entry_world : World := snd at_loop_entry.

Definition entry_inputs : LoopInputs :=
  match fst at_loop_entry with
  | Ok (inp, _) => inp
  | Raise _ => {| in_vxchole := []; in_ebarWF := []; in_taup_rho_WF := [];
                  in_emax := 0 |}
  end.

(** A potential tolerance above the first potential error of the example. *)
Definition loose_tolerances : Tolerances :=
  {| v_tol := 1; D_tol := 1e-7; eig_tol := 1e-4; frac_old := 0 |}.

(** The state and the local variables after a first iteration that no
tolerance stopped. *)
Definition after_first_iteration : result Outcome * World :=
  iteration engine negative_tolerances entry_inputs 1 initial_locals entry_world.

Definition second_world : World := snd after_first_iteration.

Definition second_locals : Locals :=
  match fst after_first_iteration with
  | Ok (Continue loc) => loc
  | _ => initial_locals
  end.

(** A grid of one point at which the basis function vanishes, so that the
density there is zero, and the solver as [mRKS] has it on that grid. *)
Definition dark_points_func : PointsFunc := fun b =>
  {| PHI := map (fun _ => [0]) (x b);
     PHI_X := map (fun _ => [0]) (x b);
     PHI_Y := map (fun _ => [0]) (x b);
     PHI_Z := map (fun _ => [0]) (x b) |}.

Definition dark_engine : Engine :=
  {| VBase_build := {| blocks := [single_block]; properties0 := dark_points_func |};
     energy := energy engine;
     dft_grid_to_fock := dft_grid_to_fock engine;
     diagonalize := diagonalize engine;
     grid_to_blocks := grid_to_blocks engine;
     ao_eri := ao_eri engine;
     Matrix_diagonalize := Matrix_diagonalize engine |}.

(** [mRKS] on that grid, up to its loop. *)
Definition dark_entry : result (LoopInputs * Reference) * World :=
  setup dark_engine (InitMethod "svwn") world.

Definition dark_solver : Solver := self_ (snd dark_entry).

(** The two points of [block] under a basis function that is one at the
first point and vanishes at the second, where the density is therefore
zero; and [mRKS] at its loop entry on that grid. *)
Definition half_dark_points_func : PointsFunc := fun b =>
  {| PHI := map (fun c => [1 - c]) (x b);
     PHI_X := map (fun _ => [0]) (x b);
     PHI_Y := map (fun _ => [0]) (x b);
     PHI_Z := map (fun _ => [0]) (x b) |}.

Definition half_dark_vpot : VBase :=
  {| blocks := [block]; properties0 := half_dark_points_func |}.

Definition half_dark_engine : Engine :=
  {| VBase_build := half_dark_vpot;
     energy := energy engine;
     dft_grid_to_fock := dft_grid_to_fock engine;
     diagonalize := diagonalize engine;
     grid_to_blocks := grid_to_blocks engine;
     ao_eri := ao_eri engine;
     Matrix_diagonalize := Matrix_diagonalize engine |}.

(** A closed-shell system with three basis functions, two of them occupied,
on the two points of [block]; [ct0] holds all three orbitals. *)
Definition identity3 : matrix := [[1; 0; 0]; [0; 1; 0]; [0; 0; 1]].

Definition occupied3 : matrix := [[1; 0; 0]; [0; 1; 0]; [0; 0; 0]].

Definition block3 : Block :=
  {| x := [0; 1]; y := [0; 0]; z := [0; 0]; w := [0.5; 0.5];
     npoints := 2; functions_local_to_global := [0%nat; 1%nat; 2%nat] |}.

Definition output_block3 : Block :=
  {| x := [0.5]; y := [0]; z := [0]; w := [1];
     npoints := 1; functions_local_to_global := [0%nat; 1%nat; 2%nat] |}.

Definition points_func3 : PointsFunc := fun b =>
  {| PHI := map (fun c => [1 / (1 + c * c); 0.5; c]) (x b);
     PHI_X := map (fun c => [0.25 * c; 0; 1]) (x b);
     PHI_Y := map (fun _ => [0.5; 0; 0]) (x b);
     PHI_Z := map (fun _ => [0.125; 0; 0]) (x b) |}.

Definition rhf3 : Wavefunction :=
  {| name := "RHF"; wDa := occupied3; wDb := occupied3; wCa := identity3;
     epsilon_a := [-1; -0.5; 0.25]; epsilon_a_occ := [-1; -0.5];
     opdm_full := mscale 2 occupied3; opdm_active := mscale 2 occupied3;
     tpdm := [] |}.

Definition engine3 : Engine :=
  {| VBase_build := {| blocks := [block3]; properties0 := points_func3 |};
     energy := fun _ => rhf3;
     dft_grid_to_fock := fun v _ => mscale (fsum v) identity3;
     diagonalize := fun f _ =>
       (identity3, first_cols identity3 2, occupied3,
        [at2 f 0 0; at2 f 1 1; at2 f 2 2]);
     grid_to_blocks := fun _ => ([output_block3], 1%nat, points_func3);
     ao_eri := [];
     Matrix_diagonalize := fun m _ => (identity3, [at2 m 0 0; at2 m 1 1; at2 m 2 2]) |}.

Definition solver3 : Solver :=
  {| wfn := rhf3; ref := 1; guide_potential_components := ["hartree"];
     nalpha := 2; nbf := 3; basis_str := "sto-3g";
     T := mscale 0.5 identity3; V := mscale (-1) identity3;
     va := mscale 0.25 identity3;
     nt0 := mscale 2 occupied3; ct0 := identity3;
     Vpot := None; npoints_DFT := 0; vxc_hole_WF := None;
     Da := []; Coca := []; eigvecs_a := [];
     Ca := []; Cb := []; Db := []; eigvecs_b := []; shift := 0 |}.

Definition world3 : World := {| self_ := solver3; trace := [] |}.

(** Tolerances with no mixing, as [mRKS] has them by default. *)
Definition unmixed : Tolerances := default_tolerances.

(** A solver whose configuration [mRKS] refuses. *)
Definition with_configuration (n : string) (r : Z) (g : list string) : Solver :=
  {| wfn := {| name := n; wDa := wDa rhf; wDb := wDb rhf; wCa := wCa rhf;
               epsilon_a := epsilon_a rhf; epsilon_a_occ := epsilon_a_occ rhf;
               opdm_full := opdm_full rhf; opdm_active := opdm_active rhf;
               tpdm := tpdm rhf |};
     ref := r; guide_potential_components := g;
     nalpha := 1; nbf := 1; basis_str := "sto-3g";
     T := [[0.5]]; V := [[-1]]; va := [[0.25]]; nt0 := [[1]]; ct0 := [[1]];
     Vpot := None; npoints_DFT := 0; vxc_hole_WF := None;
     Da := []; Coca := []; eigvecs_a := [];
     Ca := []; Cb := []; Db := []; eigvecs_b := []; shift := 0 |}.
End Example.

(** * Properties *)

(** ** binary64 arithmetic *)

Module F64Facts.
Local Open Scope float_scope.

Lemma Prim2SF_zero : Prim2SF 0 = S754_zero false.
Proof. reflexivity. Qed.

Lemma Prim2SF_one : Prim2SF 1 = S754_finite false 4503599627370496 (-52).
Proof. reflexivity. Qed.

(** [x - 0.0] is [x], whatever [x] is. *)
Lemma sub_zero_r (x : float) : x - 0 = x.
Proof.
  apply Prim2SF_inj. rewrite sub_spec, Prim2SF_zero.
  destruct (Prim2SF x) as [[]|[]| |]; reflexivity.
Qed.

Lemma digits2_pos_shift52 (m : positive) :
  Zpos (digits2_pos (Pos.iter xO m 52)) = (Zpos (digits2_pos m) + 52)%Z.
Proof. cbn [Pos.iter digits2_pos]. lia. Qed.

(** Multiplying a valid binary64 number by one rounds back to it. *)
Lemma SF64mul_one (s : bool) (m : positive) (e : Z) :
  valid_binary (S754_finite s m e) = true ->
  SF64mul (S754_finite s m e) (S754_finite false 4503599627370496 (-52))
  = S754_finite s m e.
Proof.
  unfold SpecFloat.valid_binary, bounded, canonical_mantissa. intros H.
  apply andb_prop in H. destruct H as [Hc Hb].
  apply Z.eqb_eq in Hc.
  unfold SF64mul, SFmul.
  replace (m * 4503599627370496)%positive with (Pos.iter xO m 52)
    by (cbn [Pos.iter]; lia).
  rewrite xorb_false_r.
  unfold binary_round_aux, shr_fexp, Zdigits2.
  rewrite digits2_pos_shift52.
  replace (Z.pos (digits2_pos m) + 52 + (e + -52))%Z
    with (Z.pos (digits2_pos m) + e)%Z by lia.
  rewrite Hc.
  replace (e - (e + -52))%Z with 52%Z by lia.
  cbn [shr shr_record_of_loc Pos.iter iter_pos shr_1 orb].
  cbn [shr_m loc_of_shr_record round_nearest_even Zdigits2 shr_record_of_loc].
  replace (e + -52 + 52)%Z with e by lia.
  rewrite Hc, Z.sub_diag. cbn [shr shr_m].
  rewrite Hb. reflexivity.
Qed.

Lemma mul_one_r (x : float) : x * 1 = x.
Proof.
  apply Prim2SF_inj. rewrite mul_spec, Prim2SF_one.
  pose proof (Prim2SF_valid x) as Hv.
  destruct (Prim2SF x) as [[]|[]| |s m e]; try reflexivity.
  now apply SF64mul_one.
Qed.

(** The shape of a finite number: a zero or a nonzero finite value. *)
Definition SF_finite (f : spec_float) : Prop :=
  match f with
  | S754_zero _ | S754_finite _ _ _ => True
  | S754_infinity _ | S754_nan => False
  end.

Lemma finite_spec (x : float) : F64.finite x = true -> SF_finite (Prim2SF x).
Proof.
  unfold F64.finite, is_finite, is_nan, is_infinity.
  rewrite !eqb_spec, abs_spec.
  destruct (Prim2SF x) as [s|s| |s m e]; cbn; try easy.
  destruct s; cbn; intros H; discriminate H.
Qed.

Lemma is_zero_spec (x : float) :
  is_zero x = true <-> exists s, Prim2SF x = S754_zero s.
Proof.
  unfold is_zero, zero. rewrite eqb_spec, Prim2SF_zero. split.
  - destruct (Prim2SF x) as [s|[]| |[] m e]; cbn; intros H;
      try discriminate H.
    now exists s.
  - intros [s ->]. reflexivity.
Qed.

(** A finite number times a zero is a zero. *)
Lemma mul_zero_r_finite (x z : float) :
  F64.finite x = true -> is_zero z = true -> is_zero (x * z) = true.
Proof.
  intros Hx Hz. apply finite_spec in Hx. apply is_zero_spec in Hz.
  destruct Hz as [sz Hz]. apply is_zero_spec.
  rewrite mul_spec, Hz.
  destruct (Prim2SF x) as [s|s| |s m e]; cbn in *; try contradiction; eauto.
Qed.

Lemma mul_zero_l_finite (z x : float) :
  is_zero z = true -> F64.finite x = true -> is_zero (z * x) = true.
Proof.
  intros Hz Hx. apply finite_spec in Hx. apply is_zero_spec in Hz.
  destruct Hz as [sz Hz]. apply is_zero_spec.
  rewrite mul_spec, Hz.
  destruct (Prim2SF x) as [s|s| |s m e]; cbn in *; try contradiction; eauto.
Qed.

(** Adding a zero does not change a number. *)
Lemma add_zero_r_same (x z : float) : is_zero z = true -> F64.same (x + z) x.
Proof.
  intros Hz. apply is_zero_spec in Hz. destruct Hz as [sz Hz].
  destruct (Prim2SF x) as [s|s| |s m e] eqn:Hx.
  - right. split; apply is_zero_spec; [| now exists s].
    rewrite add_spec, Hx, Hz. destruct s, sz; cbn; eauto.
  - left. apply Prim2SF_inj. rewrite add_spec, Hx, Hz. reflexivity.
  - left. apply Prim2SF_inj. rewrite add_spec, Hx, Hz. reflexivity.
  - left. apply Prim2SF_inj. rewrite add_spec, Hx, Hz. reflexivity.
Qed.

(** [x * (1 - 0.0) + y * 0.0] is [x] when [y] is finite. *)
Lemma mix_zero_same (x y : float) :
  F64.finite y = true -> F64.same (x * (1 - 0) + y * 0) x.
Proof.
  intros Hy. rewrite sub_zero_r, mul_one_r.
  apply add_zero_r_same. now apply mul_zero_r_finite.
Qed.

(** A zero is not [nan]. *)
Lemma is_zero_not_nan (x : float) : is_zero x = true -> is_nan x = false.
Proof.
  intros H. apply is_zero_spec in H. destruct H as [s H].
  unfold is_nan. rewrite eqb_spec, H. reflexivity.
Qed.

Lemma same_refl (x : float) : F64.same x x.
Proof. now left. Qed.

Lemma same_trans (x y z : float) : F64.same x y -> F64.same y z -> F64.same x z.
Proof.
  intros [->|[Hx Hy]] [->|[Hy' Hz]].
  - now left.
  - now right.
  - now right.
  - now right.
Qed.

(** Addition respects [F64.same]: the sign of a zero operand shows only in a
zero result. *)
Lemma same_add (a a' b b' : float) :
  F64.same a a' -> F64.same b b' -> F64.same (a + b) (a' + b').
Proof.
  intros [->|[Ha Ha']] [->|[Hb Hb']]; [now left | | |].
  - apply is_zero_spec in Hb, Hb'. destruct Hb as [sb Hb], Hb' as [sb' Hb'].
    destruct (Prim2SF a') as [s|s| |s m e] eqn:Ha.
    + right. split; apply is_zero_spec; rewrite add_spec, Ha.
      * rewrite Hb. destruct s, sb; cbn; eauto.
      * rewrite Hb'. destruct s, sb'; cbn; eauto.
    + left. apply Prim2SF_inj. now rewrite !add_spec, Ha, Hb, Hb'.
    + left. apply Prim2SF_inj. now rewrite !add_spec, Ha, Hb, Hb'.
    + left. apply Prim2SF_inj. now rewrite !add_spec, Ha, Hb, Hb'.
  - apply is_zero_spec in Ha, Ha'. destruct Ha as [sa Ha], Ha' as [sa' Ha'].
    destruct (Prim2SF b') as [s|s| |s m e] eqn:Hb.
    + right. split; apply is_zero_spec; rewrite add_spec, Hb.
      * rewrite Ha. destruct s, sa; cbn; eauto.
      * rewrite Ha'. destruct s, sa'; cbn; eauto.
    + left. apply Prim2SF_inj. now rewrite !add_spec, Ha, Ha', Hb.
    + left. apply Prim2SF_inj. now rewrite !add_spec, Ha, Ha', Hb.
    + left. apply Prim2SF_inj. now rewrite !add_spec, Ha, Ha', Hb.
  - apply is_zero_spec in Ha, Ha', Hb, Hb'.
    destruct Ha as [sa Ha], Ha' as [sa' Ha'], Hb as [sb Hb], Hb' as [sb' Hb'].
    right. split; apply is_zero_spec; rewrite add_spec.
    + rewrite Ha, Hb. destruct sa, sb; cbn; eauto.
    + rewrite Ha', Hb'. destruct sa', sb'; cbn; eauto.
Qed.

(** The reciprocal distance of a guarded pair. *)
Lemma reciprocal_sqrt_infinity : 1 / sqrt infinity = 0.
Proof. reflexivity. Qed.

(** Comparing with [atol + 0.0] is comparing with [atol]. *)
Lemma leb_add_zero (x a : float) : (x <=? a + 0) = (x <=? a).
Proof.
  rewrite !leb_spec, add_spec, Prim2SF_zero.
  destruct (Prim2SF a) as [[]|[]| |s m e]; reflexivity.
Qed.
End F64Facts.

(** ** Arrays *)

Module NumPyFacts.
Import NumPy.
Local Open Scope float_scope.

Lemma map2_length {A B C} (f : A -> B -> C) (a : list A) (b : list B) :
  length (map2 f a b) = Nat.min (length a) (length b).
Proof. unfold map2. now rewrite length_map, length_combine. Qed.

Lemma nth_map_in {A B} (f : A -> B) (l : list A) (i : nat) (d : A) (d' : B) :
  i < length l -> nth i (map f l) d' = f (nth i l d).
Proof.
  intros H. rewrite (nth_indep _ d' (f d)) by now rewrite length_map.
  apply map_nth.
Qed.

Lemma nth_combine_in {A B} (a : list A) (b : list B) (i : nat) (da : A) (db : B) :
  i < length a -> i < length b ->
  nth i (combine a b) (da, db) = (nth i a da, nth i b db).
Proof.
  revert b i. induction a as [|u a IH]; intros [|v b] [|i] Ha Hb;
    cbn in *; try lia; try reflexivity.
  apply IH; lia.
Qed.

Lemma nth_map2 {A B C} (f : A -> B -> C) (a : list A) (b : list B) (i : nat)
  (da : A) (db : B) (dc : C) :
  i < length a -> i < length b ->
  nth i (map2 f a b) dc = f (nth i a da) (nth i b db).
Proof.
  intros Ha Hb. unfold map2.
  rewrite (nth_map_in _ _ _ (da, db) _) by (rewrite length_combine; lia).
  now rewrite nth_combine_in by lia.
Qed.

Lemma tabulate2_rows (n m : nat) (f : nat -> nat -> float) :
  length (tabulate2 n m f) = n.
Proof. unfold tabulate2. now rewrite length_map, length_seq. Qed.

Lemma tabulate2_row (n m : nat) (f : nat -> nat -> float) (i : nat) :
  i < n -> nth i (tabulate2 n m f) [] = map (f i) (seq 0 m).
Proof.
  intros H. unfold tabulate2.
  rewrite (nth_map_in _ _ _ 0%nat _) by now rewrite length_seq.
  now rewrite seq_nth.
Qed.

Lemma at2_tabulate2 (n m : nat) (f : nat -> nat -> float) (i j : nat) :
  i < n -> j < m -> at2 (tabulate2 n m f) i j = f i j.
Proof.
  intros Hi Hj. unfold at2. rewrite tabulate2_row by assumption.
  rewrite (nth_map_in _ _ _ 0%nat _) by now rewrite length_seq.
  now rewrite seq_nth.
Qed.

(** An entry of [map (map g) m] inside the array. *)
Lemma at2_map_map (g : float -> float) (m : matrix) (i j : nat) :
  i < length m -> j < length (nth i m []) ->
  at2 (map (map g) m) i j = g (at2 m i j).
Proof.
  intros Hi Hj. unfold at2.
  rewrite (nth_map_in _ _ _ [] _) by assumption.
  now rewrite (nth_map_in _ _ _ 0 _) by assumption.
Qed.

Lemma fsum_app (a b : list float) :
  fsum (a ++ b) = fold_left add b (fsum a).
Proof. unfold fsum. apply fold_left_app. Qed.

(** *** Broadcasting *)

(** [i] is an index of [v], or [v] has one entry, read at every index. *)
Definition covers (v : vector) (i : nat) : Prop := (i < length v)%nat \/ length v = 1%nat.

Lemma bat_at1 (v : vector) (i : nat) : (i < length v)%nat -> bat v i = at1 v i.
Proof.
  unfold bat. destruct (Nat.eqb_spec (length v) 1%nat) as [E|]; [| reflexivity].
  intros H. replace i with 0%nat by lia. reflexivity.
Qed.

Lemma at1_hd (v : vector) : at1 v 0 = hd 0 v.
Proof. now destruct v. Qed.

Lemma broadcast2_equal (f : float -> float -> float) (a b : vector) :
  length a = length b -> broadcast2 f a b = Ok (map2 f a b).
Proof. intros H. unfold broadcast2. now rewrite H, Nat.eqb_refl. Qed.

Lemma broadcast2_shape (f : float -> float -> float) (a b r : vector) :
  broadcast2 f a b = Ok r ->
  (length a = length b /\ length r = length a) \/
  (length a = 1%nat /\ length r = length b) \/
  (length b = 1%nat /\ length r = length a).
Proof.
  unfold broadcast2.
  destruct (Nat.eqb_spec (length a) (length b)) as [E|_].
  { injection 1 as <-. left. rewrite map2_length. lia. }
  destruct (Nat.eqb_spec (length a) 1%nat) as [E|_].
  { injection 1 as <-. right. left. now rewrite length_map. }
  destruct (Nat.eqb_spec (length b) 1%nat) as [E|_]; [| discriminate].
  injection 1 as <-. right. right. now rewrite length_map.
Qed.

Lemma broadcast2_raises (f : float -> float -> float) (a b : vector) (e : exn) :
  broadcast2 f a b = Raise e ->
  length a <> length b /\ length a <> 1%nat /\ length b <> 1%nat /\
  e = ValueError broadcast_message.
Proof.
  unfold broadcast2.
  destruct (Nat.eqb_spec (length a) (length b)) as [|H1]; [discriminate |].
  destruct (Nat.eqb_spec (length a) 1%nat) as [|H2]; [discriminate |].
  destruct (Nat.eqb_spec (length b) 1%nat) as [|H3]; [discriminate |].
  now injection 1 as <-.
Qed.

Lemma broadcast2_returns (f : float -> float -> float) (a b : vector) :
  length a = length b \/ length a = 1%nat \/ length b = 1%nat ->
  exists r, broadcast2 f a b = Ok r.
Proof.
  intros H. destruct (broadcast2 f a b) as [r|e] eqn:E; [eauto |].
  apply broadcast2_raises in E. lia.
Qed.

(** Whether two arrays can be combined depends on their sizes only. *)
Lemma broadcast2_sizes (f g : float -> float -> float) (a b a' b' r : vector) :
  length a' = length a -> length b' = length b ->
  broadcast2 f a b = Ok r -> exists r', broadcast2 g a' b' = Ok r'.
Proof.
  intros Ha Hb H. apply broadcast2_returns. rewrite Ha, Hb.
  apply broadcast2_shape in H. lia.
Qed.

(** An entry of the combination of two arrays. *)
Lemma broadcast2_bat (f : float -> float -> float) (a b r : vector) (i : nat) :
  broadcast2 f a b = Ok r -> covers r i ->
  covers a i /\ covers b i /\ bat r i = f (bat a i) (bat b i).
Proof.
  unfold broadcast2, covers.
  destruct (Nat.eqb_spec (length a) (length b)) as [E|N].
  { injection 1 as <-. rewrite map2_length, <- E, Nat.min_id. intros Hi.
    split; [exact Hi |]. split; [exact Hi |].
    unfold bat. rewrite map2_length, <- E, Nat.min_id.
    destruct (Nat.eqb_spec (length a) 1%nat) as [E1|N1]; unfold at1.
    - apply nth_map2; lia.
    - apply nth_map2; lia. }
  destruct (Nat.eqb_spec (length a) 1%nat) as [E1|N1].
  { injection 1 as <-. rewrite length_map. intros Hi.
    split; [now right |]. split; [exact Hi |].
    unfold bat. rewrite length_map, E1. cbn [Nat.eqb].
    destruct (Nat.eqb_spec (length b) 1%nat) as [E2|N2]; [lia |].
    unfold at1. rewrite (nth_map_in _ _ _ 0 _) by lia.
    now rewrite <- at1_hd. }
  destruct (Nat.eqb_spec (length b) 1%nat) as [E2|N2]; [| discriminate].
  injection 1 as <-. rewrite length_map. intros Hi.
  split; [exact Hi |]. split; [now right |].
  unfold bat. rewrite length_map, E2. cbn [Nat.eqb].
  destruct (Nat.eqb_spec (length a) 1%nat) as [E1|_]; [lia |].
  unfold at1. rewrite (nth_map_in _ _ _ 0 _) by lia.
  now rewrite <- at1_hd.
Qed.
End NumPyFacts.

(** ** The hole-potential quadrature: the guard on coincident points *)

Module HoleFacts.
Import NumPy Psi4 MRKS F64Facts NumPyFacts.
Local Open Scope float_scope.

Lemma is_zero_finite (x : float) : is_zero x = true -> F64.finite x = true.
Proof.
  intros H. apply is_zero_spec in H. destruct H as [s H].
  unfold F64.finite, is_finite, is_nan, is_infinity.
  rewrite !eqb_spec, abs_spec, H. reflexivity.
Qed.

(** [np.isclose(r2, 0.0, atol=atol)]: [r2] is finite and [|r2| <= atol]. *)
Lemma coincident_spec (atol r2 : float) :
  coincident atol r2 = F64.finite r2 && (abs r2 <=? atol).
Proof.
  unfold coincident, isclose.
  change (F64.finite 0) with true. rewrite andb_true_r.
  destruct (F64.finite r2) eqn:Hf; cbn [andb].
  - rewrite sub_zero_r.
    change (rtol_default * abs 0) with 0.
    apply leb_add_zero.
  - destruct (r2 =? 0) eqn:Hz; [| reflexivity].
    apply is_zero_finite in Hz. congruence.
Qed.

Lemma distance2_rows (l_grid r_grid : Block) :
  length (distance2 l_grid r_grid) = length (x l_grid).
Proof. apply tabulate2_rows. Qed.

Lemma distance2_row_length (l_grid r_grid : Block) (p : nat) :
  p < length (x l_grid) ->
  length (nth p (distance2 l_grid r_grid) []) = length (x r_grid).
Proof.
  intros H. unfold distance2. rewrite tabulate2_row by assumption.
  now rewrite length_map, length_seq.
Qed.

(** The guard, entry by entry: a coincident pair gets an infinite distance,
every other pair keeps its own. *)
Lemma guard_coincident_at (atol : float) (R2 : matrix) (p q : nat) :
  p < length R2 -> q < length (nth p R2 []) ->
  at2 (guard_coincident atol R2) p q =
  if coincident atol (at2 R2 p q) then infinity else at2 R2 p q.
Proof.
  intros Hp Hq. unfold guard_coincident.
  destruct (existsb (existsb (coincident atol)) R2) eqn:Hany.
  - now rewrite at2_map_map.
  - destruct (coincident atol (at2 R2 p q)) eqn:Hc; [| reflexivity].
    assert (existsb (existsb (coincident atol)) R2 = true) as Habs; [| congruence].
    apply existsb_exists. exists (nth p R2 []). split.
    + now apply nth_In.
    + apply existsb_exists. exists (at2 R2 p q). split; [| assumption].
      unfold at2. now apply nth_In.
Qed.

Lemma guard_coincident_rows (atol : float) (R2 : matrix) :
  length (guard_coincident atol R2) = length R2.
Proof.
  unfold guard_coincident.
  destruct (existsb _ R2); [apply length_map | reflexivity].
Qed.

Lemma guard_coincident_row_length (atol : float) (R2 : matrix) (p : nat) :
  p < length R2 ->
  length (nth p (guard_coincident atol R2) []) = length (nth p R2 []).
Proof.
  intros Hp. unfold guard_coincident.
  destruct (existsb _ R2); [| reflexivity].
  rewrite (nth_map_in _ _ _ [] _) by assumption. apply length_map.
Qed.

Lemma Rinv_at (atol : float) (l_grid r_grid : Block) (p q : nat) :
  p < length (x l_grid) -> q < length (x r_grid) ->
  at2 (Rinv atol l_grid r_grid) p q =
  1 / sqrt (if coincident atol (at2 (distance2 l_grid r_grid) p q)
            then infinity
            else at2 (distance2 l_grid r_grid) p q).
Proof.
  intros Hp Hq. unfold Rinv.
  rewrite at2_map_map.
  - rewrite guard_coincident_at; [reflexivity | |].
    + now rewrite distance2_rows.
    + now rewrite distance2_row_length.
  - now rewrite guard_coincident_rows, distance2_rows.
  - rewrite guard_coincident_row_length by now rewrite distance2_rows.
    now rewrite distance2_row_length.
Qed.

Lemma Rinv_rows (atol : float) (l_grid r_grid : Block) :
  length (Rinv atol l_grid r_grid) = length (x l_grid).
Proof.
  unfold Rinv. now rewrite length_map, guard_coincident_rows, distance2_rows.
Qed.

Lemma Rinv_row_length (atol : float) (l_grid r_grid : Block) (p : nat) :
  p < length (x l_grid) ->
  length (nth p (Rinv atol l_grid r_grid) []) = length (x r_grid).
Proof.
  intros Hp. unfold Rinv.
  rewrite (nth_map_in _ _ _ [] _) by now rewrite guard_coincident_rows, distance2_rows.
  rewrite length_map, guard_coincident_row_length by now rewrite distance2_rows.
  now apply distance2_row_length.
Qed.

(** An entry of [n_xc * Rinv * r_w]. *)
Lemma pair_terms_at (nxc rinv : matrix) (r_w : vector) (p q : nat) :
  p < length nxc -> p < length rinv ->
  q < length (nth p nxc []) -> q < length (nth p rinv []) -> q < length r_w ->
  at2 (pair_terms nxc rinv r_w) p q = at2 nxc p q * at2 rinv p q * at1 r_w q.
Proof.
  intros Hp1 Hp2 Hq1 Hq2 Hq3. unfold pair_terms, at2, at1.
  rewrite (nth_map_in _ _ _ [] _) by (rewrite map2_length; lia).
  rewrite (nth_map2 _ _ _ _ [] [] []) by assumption.
  rewrite (nth_map2 _ _ _ _ 0 0 0) by (try rewrite map2_length; lia).
  now rewrite (nth_map2 _ _ _ _ 0 0 0) by assumption.
Qed.

End HoleFacts.

(** ** The quadrature passes: point accounting *)

Module PassFacts.
Import NumPy Psi4 MRKS NumPyFacts.

Lemma set_slice_length (a : vector) (start n : nat) (rhs a' : vector) :
  set_slice a start (start + n) rhs = Ok a' -> length a' = length a.
Proof.
  unfold set_slice.
  set (lo := Nat.min start (length a)). set (hi := Nat.min (start + n) (length a)).
  assert (lo <= hi <= length a) as Hb by (unfold lo, hi; lia).
  assert (length (firstn lo a) = lo) as Hf by (rewrite length_firstn; lia).
  destruct (Nat.eqb_spec (length rhs) (hi - lo)) as [E|_].
  - injection 1 as <-. rewrite !length_app, length_skipn. lia.
  - destruct (Nat.eqb_spec (length rhs) 1) as [_|_]; [| discriminate].
    injection 1 as <-. rewrite !length_app, repeat_length, length_skipn. lia.
Qed.

Lemma add_slice_length (a : vector) (start n : nat) (rhs a' : vector) :
  add_slice a start (start + n) rhs = Ok a' -> length a' = length a.
Proof.
  unfold add_slice.
  set (lo := Nat.min start (length a)). set (hi := Nat.min (start + n) (length a)).
  assert (lo <= hi <= length a) as Hb by (unfold lo, hi; lia).
  assert (length (firstn lo a) = lo) as Hf by (rewrite length_firstn; lia).
  assert (length (firstn (hi - lo) (skipn lo a)) = hi - lo) as Hc
    by (rewrite length_firstn, length_skipn; lia).
  destruct (Nat.eqb_spec (length rhs) (hi - lo)) as [E|_].
  - injection 1 as <-.
    rewrite !length_app, map2_length, length_skipn. lia.
  - destruct (Nat.eqb_spec (length rhs) 1) as [_|_]; [| discriminate].
    injection 1 as <-. unfold vadds.
    rewrite !length_app, length_map, length_skipn. lia.
Qed.



(** The counter of the block loop is the sum of the point counts of the
blocks it went through, and the output array keeps its size. *)
Lemma block_loop_counter (values : Block -> result vector) (bs : list Block) :
  forall (out : vector) (iw : nat) (out' : vector) (iw' : nat),
    block_loop values bs out iw = Ok (out', iw') ->
    iw' = iw + list_sum (map npoints bs) /\ length out' = length out.
Proof.
  induction bs as [|b bs IH]; intros out iw out' iw' H; cbn in H.
  - injection H as <- <-. cbn. lia.
  - destruct (values b) as [v|e]; cbn in H; [| discriminate].
    destruct (set_slice out iw (iw + npoints b) v) as [o|e] eqn:Hs;
      cbn in H; [| discriminate].
    apply IH in H. apply set_slice_length in Hs.
    change (list_sum (map npoints (b :: bs)))
      with (npoints b + list_sum (map npoints bs)).
    lia.
Qed.

Lemma hole_block_loop_counter (dvp : Block -> result vector) (bs : list Block) :
  forall (out : vector) (w1 : nat) (out' : vector) (w1' : nat),
    hole_block_loop dvp bs out w1 = Ok (out', w1') ->
    w1' = w1 + list_sum (map (fun b => length (x b)) bs) /\ length out' = length out.
Proof.
  induction bs as [|b bs IH]; intros out w1 out' w1' H; cbn in H.
  - injection H as <- <-. cbn. lia.
  - destruct (dvp b) as [d|e]; cbn in H; [| discriminate].
    destruct (add_slice out w1 (w1 + length (x b)) d) as [o|e] eqn:Hs;
      cbn in H; [| discriminate].
    apply IH in H. apply add_slice_length in Hs.
    change (list_sum (map (fun b => length (x b)) (b :: bs)))
      with (length (x b) + list_sum (map (fun b => length (x b)) bs)).
    lia.
Qed.



Lemma blocks_values_length (bs : list Block) (vs : list vector) :
  Forall2 (fun b v => length v = npoints b) bs vs ->
  length (concat vs) = list_sum (map npoints bs).
Proof.
  induction 1 as [|b v bs vs H _ IH]; [reflexivity |].
  change (list_sum (map npoints (b :: bs)))
    with (npoints b + list_sum (map npoints bs)).
  cbn [concat]. rewrite length_app. lia.
Qed.





(** *** Indexing the matrices *)

(** The index map of a block stays inside the matrices [D] and [C]. *)
Definition indices_fit (D C : matrix) (b : Block) : Prop :=
  let l_lpos := functions_local_to_global b in
  (forall i j, In i l_lpos -> In j l_lpos -> exists v, get2 D i j = Ok v) /\
  (forall i, In i l_lpos -> i < length C).

(** The columns of [C] and the entries of [eig] can share a label. *)
Definition labels_fit (C : matrix) (eig : vector) : Prop :=
  exists n, label_size (cols C) (length eig) = Ok n.

(** The columns of [C] and the entries of [occ] can be combined. *)
Definition occupations_fit (C : matrix) (occ : vector) : Prop :=
  exists n, broadcast_size (cols C) (length occ) = Ok n.

(** The default occupations fit. *)
Lemma default_occupations_fit (C : matrix) : occupations_fit C (default_occ C None).
Proof.
  exists (cols C). unfold broadcast_size, default_occ, ones.
  now rewrite repeat_length, Nat.eqb_refl.
Qed.

Lemma mapM_length {A B} (f : A -> result B) (l : list A) (r : list B) :
  mapM f l = Ok r -> length r = length l.
Proof.
  revert r. induction l as [|a l IH]; intros r H; cbn in H.
  - now injection H as <-.
  - destruct (f a) as [b|]; [| discriminate].
    destruct (mapM f l) as [bs|]; [| discriminate].
    injection H as <-. cbn. now rewrite (IH bs eq_refl).
Qed.

Lemma mapM_returns {A B} (f : A -> result B) (l : list A) :
  (forall a, In a l -> exists b, f a = Ok b) -> exists r, mapM f l = Ok r.
Proof.
  induction l as [|a l IH]; intros H; cbn; [eauto |].
  destruct (H a (or_introl eq_refl)) as [b ->].
  destruct IH as [bs ->]; [intros a' Ha'; apply H; now right | eauto].
Qed.

Lemma mapM_raises {A B} (f : A -> result B) (P : exn -> Prop) (l : list A) (e : exn) :
  (forall a e', f a = Raise e' -> P e') -> mapM f l = Raise e -> P e.
Proof.
  intros Hf. induction l as [|a l IH]; cbn; [discriminate |].
  destruct (f a) as [b|e'] eqn:Ha.
  - destruct (mapM f l) as [bs|e'']; [discriminate |].
    injection 1 as <-. now apply IH.
  - injection 1 as <-. now apply (Hf a).
Qed.

Lemma take2_returns (D : matrix) (idx idy : list nat) :
  (forall i j, In i idx -> In j idy -> exists v, get2 D i j = Ok v) ->
  exists m, take2 D idx idy = Ok m.
Proof.
  intros H. unfold take2. apply mapM_returns. intros i Hi.
  apply mapM_returns. intros j Hj. now apply H.
Qed.

Lemma take_rows_returns (C : matrix) (idx : list nat) :
  (forall i, In i idx -> i < length C) -> exists m, take_rows C idx = Ok m.
Proof.
  intros H. unfold take_rows. apply mapM_returns. intros i Hi.
  destruct (nth_error C i) as [row|] eqn:E; [eauto |].
  apply nth_error_None in E. specialize (H i Hi). lia.
Qed.

(** *** The number of values a block yields *)

Lemma local_values_length (m : matrix) (l_npoints nlocal : nat) :
  length (local_values m l_npoints nlocal) = Nat.min l_npoints (length m).
Proof. unfold local_values. now rewrite length_map, length_firstn. Qed.





(** Within the matrices, and with labels that fit, the blocks return. *)
Lemma ebar_block_returns (pf : PointsFunc) (D C : matrix) (eig : vector)
  (b : Block) :
  indices_fit D C b -> labels_fit C eig ->
  exists v, ebar_block pf D C eig b = Ok v.
Proof.
  intros [HD HC] [n Hn]. unfold ebar_block.
  destruct (take2_returns D _ _ HD) as [lD ->].
  destruct (take_rows_returns C _ HC) as [lC ->].
  cbn [rbind]. rewrite Hn. cbn [rbind]. eauto.
Qed.



Lemma n_xc_rows (wf : Wavefunction) (l_lpos r_lpos : list nat)
  (l_phi r_phi : matrix) (rho1inv : vector) (nxc : matrix) :
  n_xc wf l_lpos r_lpos l_phi r_phi rho1inv = Ok nxc ->
  length nxc = length l_phi.
Proof.
  unfold n_xc, n_xc_CI, n_xc_RHF.
  destruct (String.eqb (name wf) "CIWavefunction").
  - destruct (take2 _ _ _) as [lD2|]; cbn [rbind]; [| discriminate].
    destruct (mesh_in_range _ _ _); cbn [rbind]; [| discriminate].
    injection 1 as <-. apply tabulate2_rows.
  - destruct (String.eqb (name wf) "RHF"); [| discriminate].
    destruct (take2 _ _ _) as [lD2|]; cbn [rbind]; [| discriminate].
    injection 1 as <-. apply tabulate2_rows.
Qed.

Lemma inner_block_sum_length (wf : Wavefunction) (pf : PointsFunc) (atol : float)
  (l_grid : Block) (l_phi : matrix) (rho1inv : vector) (r_grid : Block) (s : vector) :
  inner_block_sum wf pf atol l_grid l_phi rho1inv r_grid = Ok s ->
  length s = Nat.min (length l_phi) (length (x l_grid)).
Proof.
  unfold inner_block_sum.
  destruct (n_xc _ _ _ _ _ _) as [nxc|e] eqn:Hn; cbn; [| discriminate].
  injection 1 as <-. apply n_xc_rows in Hn.
  unfold pair_terms.
  now rewrite !length_map, map2_length, Hn, HoleFacts.Rinv_rows.
Qed.




(** *** A whole pass: the block loop and the assertion *)

Definition is_assertion (e : exn) : Prop :=
  match e with
  | AssertionError _ => True
  | _ => False
  end.


Lemma add_slice_raises (a : vector) (start stop : nat) (rhs : vector) (e : exn) :
  add_slice a start stop rhs = Raise e -> ~ is_assertion e.
Proof.
  unfold add_slice.
  destruct (_ =? _); [discriminate |].
  destruct (_ =? _); [discriminate |].
  injection 1 as <-. exact (fun H => H).
Qed.

Lemma iadd_raises (a rhs : vector) (e : exn) :
  iadd a rhs = Raise e -> ~ is_assertion e.
Proof.
  unfold iadd.
  destruct (_ =? _); [discriminate |].
  destruct (_ =? _); [discriminate |].
  injection 1 as <-. exact (fun H => H).
Qed.

Lemma take2_raises (m : matrix) (idx idy : list nat) (e : exn) :
  take2 m idx idy = Raise e -> ~ is_assertion e.
Proof.
  unfold take2. apply (mapM_raises _ (fun e => ~ is_assertion e)).
  intros i e'. apply (mapM_raises _ (fun e => ~ is_assertion e)).
  intros j e''. unfold get2.
  destruct (nth_error m i) as [row|]; [| injection 1 as <-; exact (fun H => H)].
  destruct (nth_error row j); [discriminate |].
  injection 1 as <-. exact (fun H => H).
Qed.








Lemma inner_loop_raises (term : Block -> result vector) (rs : list Block) :
  (forall r e, term r = Raise e -> ~ is_assertion e) ->
  forall dvp e, inner_loop term rs dvp = Raise e -> ~ is_assertion e.
Proof.
  intros Hterm. induction rs as [|r rs IH]; intros dvp e H; cbn in H;
    [discriminate |].
  destruct (term r) as [s|e'] eqn:Hs; cbn in H.
  - destruct (iadd dvp s) as [d|e'] eqn:Hd; cbn in H.
    + eapply IH, H.
    + injection H as <-. eapply iadd_raises, Hd.
  - injection H as <-. eapply Hterm, Hs.
Qed.

Lemma n_xc_raises (wf : Wavefunction) (l_lpos r_lpos : list nat)
  (l_phi r_phi : matrix) (rho1inv : vector) (e : exn) :
  n_xc wf l_lpos r_lpos l_phi r_phi rho1inv = Raise e -> ~ is_assertion e.
Proof.
  unfold n_xc, n_xc_CI, n_xc_RHF.
  destruct (String.eqb (name wf) "CIWavefunction").
  - destruct (take2 _ _ _) as [lD2|e'] eqn:HD; cbn [rbind];
      [| injection 1 as <-; eapply take2_raises, HD].
    destruct (mesh_in_range _ _ _); cbn [rbind]; [discriminate |].
    injection 1 as <-. exact (fun H => H).
  - destruct (String.eqb (name wf) "RHF").
    + destruct (take2 _ _ _) as [lD2|e'] eqn:HD; cbn [rbind];
        [discriminate | injection 1 as <-; eapply take2_raises, HD].
    + injection 1 as <-. exact (fun H => H).
Qed.

Lemma hole_block_raises (self : Solver) (pf : PointsFunc) (atol : float)
  (b : Block) (e : exn) :
  hole_block self pf atol b = Raise e -> ~ is_assertion e.
Proof.
  unfold hole_block.
  destruct (take2 _ _ _) as [lD1|e'] eqn:HD; cbn [rbind];
    [| injection 1 as <-; eapply take2_raises, HD].
  destruct (Vpot self) as [vpot|].
  - apply inner_loop_raises. intros r e'. unfold inner_block_sum.
    destruct (n_xc _ _ _ _ _ _) as [nxc|e''] eqn:Hn; cbn [rbind];
      [discriminate | injection 1 as <-; eapply n_xc_raises, Hn].
  - injection 1 as <-. exact (fun H => H).
Qed.

Lemma hole_block_loop_raises (dvp : Block -> result vector) (bs : list Block) :
  (forall b e, dvp b = Raise e -> ~ is_assertion e) ->
  forall out w1 e, hole_block_loop dvp bs out w1 = Raise e -> ~ is_assertion e.
Proof.
  intros Hdvp. induction bs as [|b bs IH]; intros out w1 e H; cbn in H;
    [discriminate |].
  destruct (dvp b) as [d|e'] eqn:Hd; cbn in H.
  - destruct (add_slice out w1 (w1 + length (x b)) d) as [o|e'] eqn:Hs; cbn in H.
    + eapply IH, H.
    + injection H as <-. eapply add_slice_raises, Hs.
  - injection H as <-. eapply Hdvp, Hd.
Qed.

(** A pass that returns has counted as many points as its array holds. *)
Lemma asserted_count (loop_result : result (vector * nat)) (out : vector) :
  rbind loop_result assert_fully_integrated = Ok out ->
  exists iw, loop_result = Ok (out, iw) /\ iw = length out.
Proof.
  destruct loop_result as [[o iw]|e]; cbn; [| discriminate].
  destruct (Nat.eqb_spec iw (length o)); [| discriminate].
  injection 1 as <-. now exists iw.
Qed.







(** *** The size of what a pass returns *)

Lemma average_pass_length (self : Solver) (D C : matrix) (eig : vector)
  (grid_info : option GridInfo) (bs : list Block) (out0 : vector)
  (pf : PointsFunc) (v : vector) :
  select_grid self grid_info = Ok (bs, out0, pf) ->
  _average_local_orbital_energy self D C eig grid_info = Ok v ->
  length v = length out0.
Proof.
  intros Hg. unfold _average_local_orbital_energy. rewrite Hg. cbn [rbind].
  intros H. apply asserted_count in H. destruct H as [iw [H _]].
  now apply block_loop_counter in H.
Qed.

Lemma pauli_pass_length (self : Solver) (D C : matrix) (occ : option vector)
  (grid_info : option GridInfo) (bs : list Block) (out0 : vector)
  (pf : PointsFunc) (v : vector) :
  select_grid self grid_info = Ok (bs, out0, pf) ->
  _pauli_kinetic_energy_density self D C occ grid_info = Ok v ->
  length v = length out0.
Proof.
  intros Hg. unfold _pauli_kinetic_energy_density. rewrite Hg. cbn [rbind].
  intros H. apply asserted_count in H. destruct H as [iw [H _]].
  now apply block_loop_counter in H.
Qed.

Lemma hole_pass_length (self : Solver) (atol : float)
  (grid_info : option GridInfo) (bs : list Block) (out0 : vector)
  (pf : PointsFunc) (v : vector) :
  select_grid self grid_info = Ok (bs, out0, pf) ->
  hole_quadrature self grid_info atol = Ok v ->
  length v = length out0.
Proof.
  intros Hg. unfold hole_quadrature. rewrite Hg. cbn [rbind].
  intros H. apply asserted_count in H. destruct H as [iw [H _]].
  now apply hole_block_loop_counter in H.
Qed.

(** On the internal grid a pass returns [npoints_DFT] values. *)
Lemma internal_grid_selected (self : Solver) (r : result vector) :
  (forall bs out0 pf, select_grid self None = Ok (bs, out0, pf) ->
                      forall v, r = Ok v -> length v = length out0) ->
  (select_grid self None = Raise (AttributeError "Vpot") -> forall v, r <> Ok v) ->
  forall v, r = Ok v -> length v = npoints_DFT self.
Proof.
  unfold select_grid. destruct (Vpot self) as [vpot|]; intros Hsome Hnone v Hv.
  - rewrite (Hsome _ _ _ eq_refl v Hv). apply repeat_length.
  - now destruct (Hnone eq_refl v).
Qed.

Lemma average_internal_length (self : Solver) (D C : matrix) (eig v : vector) :
  _average_local_orbital_energy self D C eig None = Ok v ->
  length v = npoints_DFT self.
Proof.
  apply internal_grid_selected.
  - intros bs out0 pf Hg v'. now apply (average_pass_length _ _ _ _ _ bs out0 pf).
  - intros Hg v'. unfold _average_local_orbital_energy. now rewrite Hg.
Qed.

Lemma pauli_internal_length (self : Solver) (D C : matrix) (occ : option vector)
  (v : vector) :
  _pauli_kinetic_energy_density self D C occ None = Ok v ->
  length v = npoints_DFT self.
Proof.
  apply internal_grid_selected.
  - intros bs out0 pf Hg v'. now apply (pauli_pass_length _ _ _ _ _ bs out0 pf).
  - intros Hg v'. unfold _pauli_kinetic_energy_density. now rewrite Hg.
Qed.

Lemma hole_internal_length (self : Solver) (atol : float) (v : vector) :
  hole_quadrature self None atol = Ok v -> length v = npoints_DFT self.
Proof.
  apply internal_grid_selected.
  - intros bs out0 pf Hg v'. now apply (hole_pass_length _ _ _ bs out0 pf).
  - intros Hg v'. unfold hole_quadrature. now rewrite Hg.
Qed.


End PassFacts.

(** ** The hole-potential quadrature: what the guard leaves in the sum *)

Module GuardFacts.
Import NumPy Psi4 MRKS F64Facts NumPyFacts HoleFacts PassFacts.
Local Open Scope float_scope.

(** A list is the list of its entries. *)
Lemma list_as_entries (l : list float) :
  l = map (fun q => nth q l 0) (seq 0 (length l)).
Proof.
  apply (nth_ext _ _ 0 0); [now rewrite length_map, length_seq |].
  intros q Hq. rewrite (nth_map_in _ _ _ 0%nat _) by now rewrite length_seq.
  now rewrite seq_nth.
Qed.

(** Leaving out terms that are zeros changes a sum at most in the sign of a
zero. *)
Lemma fold_add_skip_zeros (t : nat -> float) (keep : nat -> bool) (qs : list nat) :
  (forall q, In q qs -> keep q = false -> is_zero (t q) = true) ->
  forall a a', F64.same a a' ->
    F64.same (fold_left add (map t qs) a)
             (fold_left add (map t (filter keep qs)) a').
Proof.
  induction qs as [|q qs IH]; intros Hz a a' Ha; cbn [map filter fold_left].
  - exact Ha.
  - assert (forall q', In q' qs -> keep q' = false -> is_zero (t q') = true)
      as Hz' by (intros q' Hq'; apply Hz; now right).
    destruct (keep q) eqn:Hk; cbn [map fold_left].
    + apply IH; [exact Hz' |]. apply same_add; [exact Ha | apply same_refl].
    + apply IH; [exact Hz' |].
      apply (same_trans _ a); [| exact Ha].
      apply add_zero_r_same. apply Hz; [now left | exact Hk].
Qed.

Lemma local_values_rows (m : matrix) (l_npoints nlocal : nat) :
  (l_npoints <= length m)%nat ->
  length (local_values m l_npoints nlocal) = l_npoints.
Proof. intros H. rewrite local_values_length. lia. Qed.

(** The shape of the hole density: one row per outer point, one column per
inner point. *)
Lemma n_xc_row_length (wf : Wavefunction) (l_lpos r_lpos : list nat)
  (l_phi r_phi : matrix) (rho1inv : vector) (nxc : matrix) (p : nat) :
  n_xc wf l_lpos r_lpos l_phi r_phi rho1inv = Ok nxc ->
  (p < length l_phi)%nat ->
  length (nth p nxc []) = length r_phi.
Proof.
  unfold n_xc, n_xc_CI, n_xc_RHF. intros H Hp.
  destruct (String.eqb (name wf) "CIWavefunction").
  - destruct (take2 _ _ _) as [lD2|]; cbn [rbind] in H; [| discriminate].
    destruct (mesh_in_range _ _ _); cbn [rbind] in H; [| discriminate].
    injection H as <-. rewrite tabulate2_row by assumption.
    now rewrite length_map, length_seq.
  - destruct (String.eqb (name wf) "RHF"); [| discriminate].
    destruct (take2 _ _ _) as [lD2|]; cbn [rbind] in H; [| discriminate].
    injection H as <-. rewrite tabulate2_row by assumption.
    now rewrite length_map, length_seq.
Qed.

(** Row [p] of [n_xc * Rinv * r_w], term by term. *)
Lemma pair_terms_row (nxc rinv : matrix) (r_w : vector) (p m : nat) :
  (p < length nxc)%nat -> (p < length rinv)%nat ->
  length (nth p nxc []) = m -> length (nth p rinv []) = m -> length r_w = m ->
  nth p (pair_terms nxc rinv r_w) []
  = map (fun q => at2 nxc p q * at2 rinv p q * at1 r_w q) (seq 0 m).
Proof.
  intros Hp1 Hp2 H1 H2 H3.
  assert (length (nth p (pair_terms nxc rinv r_w) []) = m) as Hl.
  { unfold pair_terms.
    rewrite (nth_map_in _ _ _ [] _) by (rewrite map2_length; lia).
    rewrite (nth_map2 _ _ _ _ [] [] []) by assumption.
    rewrite !map2_length. lia. }
  rewrite (list_as_entries (nth p (pair_terms nxc rinv r_w) [])), Hl.
  apply map_ext_in. intros q Hq. apply in_seq in Hq.
  change (nth q (nth p (pair_terms nxc rinv r_w) []) 0)
    with (at2 (pair_terms nxc rinv r_w) p q).
  apply pair_terms_at; lia.
Qed.

(** The value an inner block adds for the outer point [p] is the sum of the
terms of its pairs; the pairs the guard caught add zeros. *)
Lemma inner_block_sum_guarded (wf : Wavefunction) (pf : PointsFunc) (atol : float)
  (l_grid : Block) (l_phi : matrix) (rho1inv : vector) (r_grid : Block)
  (nxc : matrix) (p : nat) :
  well_formed r_grid ->
  (npoints r_grid <= length (PHI (pf r_grid)))%nat ->
  length l_phi = length (x l_grid) ->
  (p < length (x l_grid))%nat ->
  n_xc wf (functions_local_to_global l_grid) (functions_local_to_global r_grid)
       l_phi
       (local_values (PHI (pf r_grid)) (length (w r_grid))
                     (length (functions_local_to_global r_grid)))
       rho1inv = Ok nxc ->
  (forall q, (q < npoints r_grid)%nat ->
     coincident atol (at2 (distance2 l_grid r_grid) p q) = true ->
     F64.finite (at2 nxc p q) = true /\ F64.finite (at1 (w r_grid) q) = true) ->
  exists s,
    inner_block_sum wf pf atol l_grid l_phi rho1inv r_grid = Ok s /\
    length s = length (x l_grid) /\
    F64.same (at1 s p) (fsum (distant_terms atol l_grid r_grid nxc p)).
Proof.
  intros [Hx [_ [_ Hw]]] Hrows Hphi Hp Hn Hfin.
  unfold inner_block_sum. rewrite Hn. cbn [rbind].
  eexists. split; [reflexivity |].
  assert (length nxc = length (x l_grid)) as Hnr
    by (rewrite (n_xc_rows _ _ _ _ _ _ _ Hn); exact Hphi).
  assert (length (nth p nxc []) = length (w r_grid)) as Hnc.
  { rewrite (n_xc_row_length _ _ _ _ _ _ _ p Hn) by lia.
    apply local_values_rows. lia. }
  assert (length (pair_terms nxc (Rinv atol l_grid r_grid) (w r_grid))
          = length (x l_grid)) as Hpr.
  { unfold pair_terms. rewrite length_map, map2_length, Hnr, Rinv_rows. lia. }
  split; [now rewrite length_map |].
  unfold at1. rewrite (nth_map_in _ _ _ [] _) by lia.
  rewrite (pair_terms_row _ _ _ p (length (w r_grid)));
    [| lia | rewrite Rinv_rows; lia | exact Hnc
     | rewrite Rinv_row_length by lia; lia | reflexivity].
  unfold distant_terms, fsum.
  set (t := fun q => at2 nxc p q * at2 (Rinv atol l_grid r_grid) p q
                     * at1 (w r_grid) q).
  set (keep := fun q => negb (coincident atol (at2 (distance2 l_grid r_grid) p q))).
  assert (map (fun q => at2 nxc p q
                        * (1 / sqrt (at2 (distance2 l_grid r_grid) p q))
                        * at1 (w r_grid) q)
              (filter keep (seq 0 (length (w r_grid))))
          = map t (filter keep (seq 0 (length (w r_grid))))) as ->.
  { apply map_ext_in. intros q Hq. apply filter_In in Hq.
    destruct Hq as [Hq Hk]. apply in_seq in Hq. unfold t, keep in *.
    rewrite Rinv_at by lia.
    apply negb_true_iff in Hk. now rewrite Hk. }
  apply fold_add_skip_zeros; [| apply same_refl].
  intros q Hq Hk. apply in_seq in Hq. unfold t, keep in *.
  apply negb_false_iff in Hk.
  destruct (Hfin q ltac:(lia) Hk) as [Hfn Hfw].
  rewrite Rinv_at by lia. rewrite Hk, reciprocal_sqrt_infinity.
  apply mul_zero_l_finite; [| exact Hfw].
  now apply mul_zero_r_finite.
Qed.

(** The inner loop, block after block. *)
Lemma inner_loop_guarded (wf : Wavefunction) (pf : PointsFunc) (atol : float)
  (l_grid : Block) (l_phi : matrix) (rho1inv : vector) (p : nat)
  (rs : list Block) (ns : list matrix) :
  length l_phi = length (x l_grid) ->
  (p < length (x l_grid))%nat ->
  Forall2 (fun r nxc =>
             well_formed r /\ (npoints r <= length (PHI (pf r)))%nat /\
             n_xc wf (functions_local_to_global l_grid)
                  (functions_local_to_global r) l_phi
                  (local_values (PHI (pf r)) (length (w r))
                                (length (functions_local_to_global r)))
                  rho1inv = Ok nxc /\
             forall q, (q < npoints r)%nat ->
               coincident atol (at2 (distance2 l_grid r) p q) = true ->
               F64.finite (at2 nxc p q) = true /\
               F64.finite (at1 (w r) q) = true) rs ns ->
  forall dvp a,
    length dvp = length (x l_grid) -> F64.same (at1 dvp p) a ->
    exists out,
      inner_loop (inner_block_sum wf pf atol l_grid l_phi rho1inv) rs dvp = Ok out /\
      F64.same (at1 out p) (distant_total atol l_grid p (combine rs ns) a).
Proof.
  intros Hphi Hp. induction 1 as [|r nxc rs ns [Hwf [Hrows [Hn Hfin]]] _ IH];
    intros dvp a Hl Ha.
  - exists dvp. split; [reflexivity | exact Ha].
  - destruct (inner_block_sum_guarded wf pf atol l_grid l_phi rho1inv r nxc p
                Hwf Hrows Hphi Hp Hn Hfin) as [s [Hs [Hsl Hsp]]].
    cbn [inner_loop combine]. rewrite Hs. cbn [rbind].
    unfold iadd. rewrite Hsl, Hl, Nat.eqb_refl. cbn [rbind].
    unfold distant_total. cbn [fold_left fst snd].
    apply IH.
    + rewrite map2_length. lia.
    + unfold at1. rewrite (nth_map2 _ _ _ _ 0 0 0) by lia.
      now apply same_add.
Qed.

(** C4, as the code has it.  In the hole-potential quadrature (with
[atol >= 0]) a pair of an outer point [p] and an inner point [q] is guarded
exactly when its squared distance is finite and at most [atol]; its
reciprocal distance is then the zero [1 / sqrt(inf)], and its term of
[n_xc * Rinv * r_w] is a zero, hence not [nan], when the pair's hole density
and the inner weight are finite numbers.  Every other pair contributes its
hole density times the reciprocal of its distance times the inner weight.
When the guarded pairs of [p] all have a finite hole density and weight,
what the quadrature accumulates for [p] over the inner blocks is the sum of
the terms of the other pairs alone (up to the sign of a zero). *)
Theorem hole_guard_contribution (self : Solver) (vpot : VBase) (pf : PointsFunc)
  (atol : float) (l_grid : Block) (dvp_l : vector) (ns : list matrix) (p : nat) :
  (0 <=? atol) = true ->
  Vpot self = Some vpot ->
  Forall well_formed (l_grid :: blocks vpot) ->
  basis_rows pf (l_grid :: blocks vpot) ->
  hole_block self pf atol l_grid = Ok dvp_l ->
  Forall2 (fun r nxc => pair_density self pf l_grid r = Ok nxc) (blocks vpot) ns ->
  (p < npoints l_grid)%nat ->
  let pairs := combine (blocks vpot) ns in
  let finite_where_guarded :=
    forall r nxc q, In (r, nxc) pairs -> (q < npoints r)%nat ->
      coincident atol (at2 (distance2 l_grid r) p q) = true ->
      F64.finite (at2 nxc p q) = true /\ F64.finite (at1 (w r) q) = true in
  (forall r nxc q, In (r, nxc) pairs -> (q < npoints r)%nat ->
     let r2 := at2 (distance2 l_grid r) p q in
     let term := at2 (pair_terms nxc (Rinv atol l_grid r) (w r)) p q in
     coincident atol r2 = F64.finite r2 && (abs r2 <=? atol) /\
     (coincident atol r2 = true ->
      at2 (Rinv atol l_grid r) p q = 0 /\
      (F64.finite (at2 nxc p q) = true -> F64.finite (at1 (w r) q) = true ->
       is_zero term = true /\ is_nan term = false)) /\
     (coincident atol r2 = false ->
      term = at2 nxc p q * (1 / sqrt r2) * at1 (w r) q)) /\
  (finite_where_guarded ->
   F64.same (at1 dvp_l p) (distant_total atol l_grid p pairs 0)).
Proof.
  intros _ HV Hwf Hrows Hblock Hns Hp pairs finite_where_guarded.
  inversion Hwf as [|? ? Hwl Hwr]; subst.
  inversion Hrows as [|? ? Hrl Hrr]; subst. cbn beta in Hrl.
  pose proof Hwl as [Hx _].
  unfold hole_block in Hblock.
  destruct (take2 (D2 (wfn self)) _ _) as [lD1|] eqn:HD; cbn [rbind] in Hblock;
    [| discriminate].
  rewrite HV in Hblock.
  set (l_lpos := functions_local_to_global l_grid) in *.
  set (l_phi := local_values (PHI (pf l_grid)) (length (x l_grid)) (length l_lpos))
    in *.
  set (rho1inv := map (fun r => 1 / r) (contract_pm_mn_pn (length l_lpos) l_phi lD1))
    in *.
  assert (length l_phi = length (x l_grid)) as Hphi
    by (apply local_values_rows; lia).
  assert (forall r nxc,
            pair_density self pf l_grid r = Ok nxc ->
            n_xc (wfn self) l_lpos (functions_local_to_global r) l_phi
                 (local_values (PHI (pf r)) (length (w r))
                               (length (functions_local_to_global r)))
                 rho1inv = Ok nxc) as Hdensity.
  { intros r nxc. unfold pair_density. fold l_lpos. rewrite HD. now cbn [rbind]. }
  assert (forall r nxc, In (r, nxc) pairs ->
            well_formed r /\ (npoints r <= length (PHI (pf r)))%nat /\
            pair_density self pf l_grid r = Ok nxc) as Hin.
  { unfold pairs. clear - Hns Hwr Hrr. unfold basis_rows in Hrr.
    induction Hns as [|r0 n0 rs ns Hn _ IH]; intros r nxc; cbn [combine];
      [intros [] |].
    inversion Hwr; subst. inversion Hrr; subst.
    intros [E|Hin];
      [injection E as <- <-; split; [assumption | split; assumption] |].
    now apply IH. }
  split.
  - intros r nxc q Hr Hq r2 term.
    destruct (Hin r nxc Hr) as [[Hxr [_ [_ Hwr']]] [Hrow Hd]].
    apply Hdensity in Hd.
    assert (term = at2 nxc p q * at2 (Rinv atol l_grid r) p q * at1 (w r) q)
      as Hterm.
    { apply pair_terms_at.
      - rewrite (n_xc_rows _ _ _ _ _ _ _ Hd). lia.
      - rewrite Rinv_rows. lia.
      - rewrite (n_xc_row_length _ _ _ _ _ _ _ p Hd) by lia.
        rewrite local_values_rows; lia.
      - rewrite Rinv_row_length by lia. lia.
      - lia. }
    pose proof (Rinv_at atol l_grid r p q ltac:(lia) ltac:(lia)) as HR.
    fold r2 in HR.
    split; [apply coincident_spec |].
    split; intros Hc; rewrite Hc in HR.
    + rewrite reciprocal_sqrt_infinity in HR. split; [assumption |].
      intros Hfn Hfw. rewrite Hterm, HR.
      assert (is_zero (at2 nxc p q * 0 * at1 (w r) q) = true) as Hz.
      { apply mul_zero_l_finite; [| assumption].
        now apply mul_zero_r_finite. }
      split; [assumption | now apply is_zero_not_nan].
    + now rewrite Hterm, HR.
  - intros Hfin.
    assert (Forall2 (fun r nxc =>
               well_formed r /\ (npoints r <= length (PHI (pf r)))%nat /\
               n_xc (wfn self) l_lpos (functions_local_to_global r) l_phi
                    (local_values (PHI (pf r)) (length (w r))
                                  (length (functions_local_to_global r)))
                    rho1inv = Ok nxc /\
               forall q, (q < npoints r)%nat ->
                 coincident atol (at2 (distance2 l_grid r) p q) = true ->
                 F64.finite (at2 nxc p q) = true /\
                 F64.finite (at1 (w r) q) = true) (blocks vpot) ns) as Hall.
    { assert (forall r nxc, In (r, nxc) (combine (blocks vpot) ns) ->
                well_formed r /\ (npoints r <= length (PHI (pf r)))%nat /\
                n_xc (wfn self) l_lpos (functions_local_to_global r) l_phi
                     (local_values (PHI (pf r)) (length (w r))
                                   (length (functions_local_to_global r)))
                     rho1inv = Ok nxc /\
                forall q, (q < npoints r)%nat ->
                  coincident atol (at2 (distance2 l_grid r) p q) = true ->
                  F64.finite (at2 nxc p q) = true /\
                  F64.finite (at1 (w r) q) = true) as Hfacts.
      { intros r nxc H. destruct (Hin r nxc H) as [Hw [Hr Hd]].
        split; [assumption |]. split; [assumption |].
        split; [now apply Hdensity |].
        intros q Hq Hc. now apply (Hfin r nxc q). }
      clear - Hns Hfacts.
      induction Hns as [|r0 n0 rs ns Hn _ IH]; constructor.
      - apply Hfacts. now left.
      - apply IH. intros r nxc H. apply Hfacts. now right. }
    destruct (inner_loop_guarded (wfn self) pf atol l_grid l_phi rho1inv p
                (blocks vpot) ns Hphi ltac:(lia) Hall
                (zeros (length (x l_grid))) 0) as [out [Hout Hsame]].
    + apply repeat_length.
    + unfold zeros, at1. rewrite nth_repeat. apply same_refl.
    + rewrite Hblock in Hout. injection Hout as <-. exact Hsame.
Qed.
(** The first point of the example grid, in the solver as [mRKS] enters its
loop: guarded against itself, at distance one from the second point. *)
Lemma hole_guard_contribution_example :
  let nxc : matrix := [[-1; -0.25]; [-1; -0.25]] in
  let b := Example.block in
  (0 <=? atol_default) = true /\
  Vpot (self_ Example.entry_world) = Some Example.vpot /\
  Forall well_formed (b :: blocks Example.vpot) /\
  basis_rows Example.points_func (b :: blocks Example.vpot) /\
  hole_block (self_ Example.entry_world) Example.points_func atol_default b
  = Ok [-0.125; -0.5] /\
  Forall2 (fun r n => pair_density (self_ Example.entry_world)
                                   Example.points_func b r = Ok n)
          (blocks Example.vpot) [nxc] /\
  (0 < npoints b)%nat /\
  coincident atol_default (at2 (distance2 b b) 0 0) = true /\
  is_zero (at2 (pair_terms nxc (Rinv atol_default b b) (w b)) 0 0) = true /\
  F64.same (at1 [-0.125; -0.5] 0)
           (distant_total atol_default b 0 [(b, nxc)] 0).
Proof.
  cbv zeta.
  assert ((0 <=? atol_default) = true) as Ha by (vm_compute; reflexivity).
  assert (well_formed Example.block) as Hw by (repeat split; reflexivity).
  assert (Forall well_formed (Example.block :: blocks Example.vpot)) as Hwf
    by (repeat constructor; exact Hw).
  assert (basis_rows Example.points_func (Example.block :: blocks Example.vpot))
    as Hrows by (repeat constructor; cbn; lia).
  assert (hole_block (self_ Example.entry_world) Example.points_func atol_default Example.block
          = Ok [-0.125; -0.5]) as Hb by (vm_compute; reflexivity).
  assert (Forall2 (fun r n => pair_density (self_ Example.entry_world) Example.points_func
                                Example.block r = Ok n)
                  (blocks Example.vpot) [[[-1; -0.25]; [-1; -0.25]]]) as Hns
    by (repeat constructor; vm_compute; reflexivity).
  assert (0 < npoints Example.block)%nat as Hp by (cbn; lia).
  assert (coincident atol_default
            (at2 (distance2 Example.block Example.block) 0 0) = true) as Hc
    by (vm_compute; reflexivity).
  destruct (hole_guard_contribution (self_ Example.entry_world) Example.vpot
              Example.points_func atol_default Example.block [-0.125; -0.5]
              [[[-1; -0.25]; [-1; -0.25]]] 0 Ha eq_refl Hwf Hrows Hb Hns Hp)
    as [Hpairs Hsum].
  split; [exact Ha |]. split; [reflexivity |]. split; [exact Hwf |].
  split; [exact Hrows |]. split; [exact Hb |]. split; [exact Hns |].
  split; [exact Hp |]. split; [exact Hc |].
  split.
  - destruct (Hpairs Example.block [[-1; -0.25]; [-1; -0.25]] 0%nat
                (or_introl eq_refl) Hp) as [_ [Hguard _]].
    destruct (Hguard Hc) as [_ Hz].
    refine (proj1 (Hz _ _)); vm_compute; reflexivity.
  - apply Hsum. intros r nxc q [E|[]] Hq _. injection E as <- <-.
    destruct q as [|[|q]]; [split; vm_compute; reflexivity
                           | split; vm_compute; reflexivity
                           | cbn in Hq; lia].
Defined.

(** C4, as the claim has it, fails where the density of the outer point is
zero: the inverse density is infinite, the hole density of the pair is [nan],
and the guarded pair of the point with itself contributes [nan].  On a grid
of that single point the quadrature accumulates [nan], where the sum over
the other pairs, of which there are none, is zero; that [nan] is the hole
potential [mRKS] enters its loop with. *)
Lemma hole_guard_nan_contribution :
  let l_grid := Example.single_block in
  let self := Example.dark_solver in
  let pf := Example.dark_points_func in
  fst Example.dark_entry
  = Ok ({| in_vxchole := [nan]; in_ebarWF := [nan]; in_taup_rho_WF := [nan];
           in_emax := nan |}, RHF_reference [-0.5]) /\
  Vpot self = Some {| blocks := [l_grid]; properties0 := pf |} /\
  pair_density self pf l_grid l_grid = Ok [[nan]] /\
  coincident atol_default (at2 (distance2 l_grid l_grid) 0 0) = true /\
  at2 (Rinv atol_default l_grid l_grid) 0 0 = 0 /\
  is_nan (at2 (pair_terms [[nan]] (Rinv atol_default l_grid l_grid) (w l_grid)) 0 0)
  = true /\
  hole_block self pf atol_default l_grid = Ok [nan] /\
  distant_total atol_default l_grid 0 [(l_grid, [[nan]])] 0 = 0.
Proof.
  cbv zeta. repeat split; vm_compute; reflexivity.
Qed.
End GuardFacts.

(** ** The hole-potential quadrature: the grid of the inner loop *)

Module InnerGridFacts.
Import NumPy Psi4 MRKS.






End InnerGridFacts.

(** ** The fixed-point loop *)

Module LoopFacts.
Import NumPy Psi4 MRKS NumPyFacts.
Local Open Scope float_scope.

(** Two solvers with the same grid and the same spin restriction. *)
Definition same_grid (s s' : Solver) : Prop :=
  Vpot s' = Vpot s /\ npoints_DFT s' = npoints_DFT s /\ ref s' = ref s.

(** The candidate is the head of the loop body followed by line 502. *)
Lemma candidate_parts (self : Solver) (inp : LoopInputs) (ebarKS taup : vector)
  (s : float) (vxc : vector) :
  candidate self inp = Ok (ebarKS, taup, s, vxc) <->
  current_fields self inp = Ok (ebarKS, taup, s) /\
  assemble (in_vxchole inp) ebarKS (in_ebarWF inp) (in_taup_rho_WF inp) taup s
  = Ok vxc.
Proof.
  unfold candidate. split.
  - destruct (current_fields self inp) as [[[e t] c]|]; cbn [rbind];
      [| discriminate].
    destruct (assemble _ _ _ _ _ _) as [v|] eqn:Ha; cbn [rbind];
      [| discriminate].
    injection 1 as <- <- <- <-. now split.
  - intros [-> Ha]. cbn [rbind]. now rewrite Ha.
Qed.

Ltac step :=
  cbn -[potential_error eigenvalue_error density_error mixed assemble
        current_fields ltb].

Lemma iteration_stop_potential (eng : Engine) (tol : Tolerances) (inp : LoopInputs)
  (k : nat) (loc : Locals) (w : World) (ebarKS taup : vector) (s : float)
  (vxc : vector) (verror : float) :
  candidate (self_ w) inp = Ok (ebarKS, taup, s, vxc) ->
  potential_error (self_ w) vxc (vxc_old loc) = Ok verror ->
  (verror <? v_tol tol) = true ->
  iteration eng tol inp k loc w
  = (Ok (Break (stopped loc ebarKS taup vxc)),
     {| self_ := set_shift s (self_ w);
        trace := trace w ++ [Print "vxc stops updating."] |}).
Proof.
  intros Hc Hv Ht. apply candidate_parts in Hc. destruct Hc as [Hf Ha].
  unfold iteration, bind, get_self, lift, modify_self, emit, ret.
  rewrite Hf. step. rewrite Ha. step. rewrite Hv. step. rewrite Ht.
  reflexivity.
Qed.

Lemma iteration_stop_state (eng : Engine) (tol : Tolerances) (inp : LoopInputs)
  (k : nat) (loc : Locals) (w : World) (ebarKS taup : vector) (s : float)
  (vxc : vector) (verror eerror : float) :
  candidate (self_ w) inp = Ok (ebarKS, taup, s, vxc) ->
  potential_error (self_ w) vxc (vxc_old loc) = Ok verror ->
  (verror <? v_tol tol) = false ->
  eigenvalue_error (self_ w) (eig_old loc) = Ok eerror ->
  (density_error (self_ w) (Da_old loc) <? D_tol tol) && (eerror <? eig_tol tol)
  = true ->
  iteration eng tol inp k loc w
  = (Ok (Break (stopped loc ebarKS taup vxc)),
     {| self_ := set_shift s (self_ w);
        trace := trace w ++ [Print "KSDFT stops updating."] |}).
Proof.
  intros Hc Hv Ht He Hs. apply candidate_parts in Hc. destruct Hc as [Hf Ha].
  unfold iteration, bind, get_self, lift, modify_self, emit, ret.
  rewrite Hf. step. rewrite Ha. step. rewrite Hv. step. rewrite Ht.
  step. rewrite He. step. rewrite Hs. reflexivity.
Qed.

Lemma iteration_keep_going (eng : Engine) (tol : Tolerances) (inp : LoopInputs)
  (k : nat) (loc : Locals) (w : World) (ebarKS taup : vector) (s : float)
  (vxc : vector) (verror eerror : float) (vmix : vector) :
  Ready w ->
  candidate (self_ w) inp = Ok (ebarKS, taup, s, vxc) ->
  potential_error (self_ w) vxc (vxc_old loc) = Ok verror ->
  (verror <? v_tol tol) = false ->
  eigenvalue_error (self_ w) (eig_old loc) = Ok eerror ->
  (density_error (self_ w) (Da_old loc) <? D_tol tol) && (eerror <? eig_tol tol)
  = false ->
  mixed tol k vxc (vxc_old loc) = Ok vmix ->
  exists w',
    iteration eng tol inp k loc w
    = (Ok (Continue (saved (self_ w) ebarKS taup vmix)), w') /\
    trace w' = trace w ++ [GridToFock; Diagonalize;
                           PrintIter k (density_error (self_ w) (Da_old loc))
                                     eerror verror] /\
    same_grid (self_ w) (self_ w').
Proof.
  intros [Href [vpot HV]] Hc Hv Ht He Hs Hm.
  apply candidate_parts in Hc. destruct Hc as [Hf Ha].
  unfold iteration, bind, get_self, lift, modify_self, emit, ret.
  rewrite Hf. step. rewrite Ha. step. rewrite Hv. step. rewrite Ht.
  step. rewrite He. step. rewrite Hs. step. rewrite Hm. step. rewrite HV.
  step.
  unfold _diagonalize_with_potential_mRKS, bind, get_self, emit, modify_self.
  step.
  destruct (diagonalize eng _ _) as [[[C Cocc] D] eps].
  step. rewrite Href. step.
  eexists. split; [reflexivity |]. step.
  split; [now rewrite <- !app_assoc |].
  repeat split.
Qed.

(** The two array differences of an iteration that raise do so for the
sizes of their operands. *)
Lemma vsub_old_sizes (v v' : vector) (old : Old vector) (c : float) (d : vector) :
  length v' = length v ->
  vsub_old v old = Ok d -> exists r, vadd_old v' (scale_old old c) = Ok r.
Proof.
  intros Hl. destruct old as [s|a]; cbn; [eauto |].
  unfold vsub, vadd. apply broadcast2_sizes; [assumption |].
  unfold vscale. apply length_map.
Qed.

(** Once the potential error has been computed, the mixing cannot raise. *)
Lemma mixed_returns (self : Solver) (tol : Tolerances) (k : nat) (vxc : vector)
  (old : Old vector) (verror : float) :
  potential_error self vxc old = Ok verror ->
  exists vmix, mixed tol k vxc old = Ok vmix.
Proof.
  unfold potential_error, mixed, mix.
  destruct (vsub_old vxc old) as [d|] eqn:Hd; cbn [rbind]; [| discriminate].
  intros _. destruct (negb _); [| eauto].
  eapply vsub_old_sizes; [| exact Hd]. unfold vscale. apply length_map.
Qed.

(** The outcome of an iteration whose three errors are computed is the one
[verdict] names. *)
Lemma verdict_decides (eng : Engine) (tol : Tolerances) (inp : LoopInputs)
  (k : nat) (loc : Locals) (w : World) (ebarKS taup : vector) (s : float)
  (vxc : vector) (verror eerror : float) :
  Ready w ->
  candidate (self_ w) inp = Ok (ebarKS, taup, s, vxc) ->
  potential_error (self_ w) vxc (vxc_old loc) = Ok verror ->
  eigenvalue_error (self_ w) (eig_old loc) = Ok eerror ->
  let broke (line : string) :=
    iteration eng tol inp k loc w
    = (Ok (Break (stopped loc ebarKS taup vxc)),
       {| self_ := set_shift s (self_ w); trace := trace w ++ [Print line] |}) in
  match verdict tol verror (density_error (self_ w) (Da_old loc)) eerror with
  | StopPotential => broke "vxc stops updating."%string
  | StopState => broke "KSDFT stops updating."%string
  | KeepGoing => exists loc' w', iteration eng tol inp k loc w = (Ok (Continue loc'), w')
  end.
Proof.
  intros Hready Hc Hv He. cbv zeta. unfold verdict.
  destruct (verror <? v_tol tol) eqn:H1.
  - now apply (iteration_stop_potential eng tol inp k loc w _ _ _ _ verror).
  - destruct (_ && _) eqn:H2.
    + now apply (iteration_stop_state eng tol inp k loc w _ _ _ _ verror eerror).
    + destruct (mixed_returns _ tol k _ _ _ Hv) as [vmix Hm].
      destruct (iteration_keep_going eng tol inp k loc w _ _ _ _ _ _ _
                  Hready Hc Hv H1 He H2 Hm) as [w' [Hi _]].
      eauto.
Qed.

(** What an iteration that goes on to the next one has gone through. *)
Lemma iteration_continue_inv (eng : Engine) (tol : Tolerances) (inp : LoopInputs)
  (k : nat) (loc loc' : Locals) (w w' : World) :
  iteration eng tol inp k loc w = (Ok (Continue loc'), w') ->
  exists ebarKS taup s vxc verror eerror vmix,
    candidate (self_ w) inp = Ok (ebarKS, taup, s, vxc) /\
    potential_error (self_ w) vxc (vxc_old loc) = Ok verror /\
    (verror <? v_tol tol) = false /\
    eigenvalue_error (self_ w) (eig_old loc) = Ok eerror /\
    (density_error (self_ w) (Da_old loc) <? D_tol tol) && (eerror <? eig_tol tol)
    = false /\
    mixed tol k vxc (vxc_old loc) = Ok vmix /\
    loc' = saved (self_ w) ebarKS taup vmix /\
    Ready w.
Proof.
  unfold iteration, bind, get_self, lift, modify_self, emit, ret. step.
  destruct (current_fields (self_ w) inp) as [[[ebarKS taup] s]|] eqn:Hf;
    step; [| discriminate].
  destruct (assemble _ _ _ _ _ _) as [vxc|] eqn:Ha; step; [| discriminate].
  destruct (potential_error _ _ _) as [verror|] eqn:Hv; step; [| discriminate].
  destruct (verror <? v_tol tol) eqn:Ht; step; [discriminate |].
  destruct (eigenvalue_error _ _) as [eerror|] eqn:He; step; [| discriminate].
  destruct (_ && _) eqn:Hs; step; [discriminate |].
  destruct (mixed _ _ _ _) as [vmix|] eqn:Hm; step; [| discriminate].
  destruct (Vpot (self_ w)) as [vpot|] eqn:HV; step; [| discriminate].
  unfold _diagonalize_with_potential_mRKS, bind, get_self, emit, modify_self.
  step. destruct (diagonalize eng _ _) as [[[C Cocc] D] eps]. step.
  destruct (Z.eqb_spec (ref (self_ w)) 1) as [Href|]; step;
    intros H; [| discriminate H].
  injection H as <- _.
  exists ebarKS, taup, s, vxc, verror, eerror, vmix.
  split; [now apply candidate_parts |].
  repeat split; try assumption. now exists vpot.
Qed.

(** What an iteration that leaves the loop has gone through. *)
Lemma iteration_break_inv (eng : Engine) (tol : Tolerances) (inp : LoopInputs)
  (k : nat) (loc loc' : Locals) (w w' : World) :
  iteration eng tol inp k loc w = (Ok (Break loc'), w') ->
  exists ebarKS taup s vxc verror,
    candidate (self_ w) inp = Ok (ebarKS, taup, s, vxc) /\
    potential_error (self_ w) vxc (vxc_old loc) = Ok verror /\
    loc' = stopped loc ebarKS taup vxc /\
    self_ w' = set_shift s (self_ w) /\
    ((verror <? v_tol tol) = true /\
     trace w' = trace w ++ [Print "vxc stops updating."] \/
     (verror <? v_tol tol) = false /\
     trace w' = trace w ++ [Print "KSDFT stops updating."] /\
     exists eerror,
       eigenvalue_error (self_ w) (eig_old loc) = Ok eerror /\
       (density_error (self_ w) (Da_old loc) <? D_tol tol)
       && (eerror <? eig_tol tol) = true).
Proof.
  unfold iteration, bind, get_self, lift, modify_self, emit, ret. step.
  destruct (current_fields (self_ w) inp) as [[[ebarKS taup] s]|] eqn:Hf;
    step; [| discriminate].
  destruct (assemble _ _ _ _ _ _) as [vxc|] eqn:Ha; step; [| discriminate].
  destruct (potential_error _ _ _) as [verror|] eqn:Hv; step; [| discriminate].
  destruct (verror <? v_tol tol) eqn:Ht; step.
  { injection 1 as <- <-.
    exists ebarKS, taup, s, vxc, verror.
    split; [now apply candidate_parts |].
    repeat split; try assumption. left. now split. }
  destruct (eigenvalue_error _ _) as [eerror|] eqn:He; step; [| discriminate].
  destruct (_ && _) eqn:Hs; step.
  { injection 1 as <- <-.
    exists ebarKS, taup, s, vxc, verror.
    split; [now apply candidate_parts |].
    repeat split; try assumption. right.
    split; [assumption |]. split; [reflexivity |]. now exists eerror. }
  destruct (mixed _ _ _ _) as [vmix|] eqn:Hm; step; [| discriminate].
  destruct (Vpot (self_ w)) as [vpot|] eqn:HV; step; [| discriminate].
  unfold _diagonalize_with_potential_mRKS, bind, get_self, emit, modify_self.
  step. destruct (diagonalize eng _ _) as [[[C Cocc] D] eps]. step.
  destruct (ref (self_ w) =? 1)%Z; step; discriminate.
Qed.



(** *** What [setup] establishes *)

Lemma bind_ok {A B} (c : M A) (k : A -> M B) (w w' : World) (b : B) :
  bind c k w = (Ok b, w') ->
  exists a w1, c w = (Ok a, w1) /\ k a w1 = (Ok b, w').
Proof.
  unfold bind. destruct (c w) as [[a|e] w1]; [| discriminate].
  intros H. now exists a, w1.
Qed.

Lemma lift_ok {A} (r : result A) (w w' : World) (a : A) :
  lift r w = (Ok a, w') -> r = Ok a /\ w' = w.
Proof. unfold lift. now injection 1 as -> ->. Qed.

Lemma diagonalizations_app (tr tr' : list event) :
  diagonalizations (tr ++ tr')
  = (diagonalizations tr + diagonalizations tr')%nat.
Proof. unfold diagonalizations. now rewrite filter_app, length_app. Qed.

(** The passes read the solver through its grid only. *)
Lemma select_grid_same (s s' : Solver) (grid_info : option GridInfo) :
  same_grid s s' -> select_grid s' grid_info = select_grid s grid_info.
Proof.
  intros [HV [Hn _]]. unfold select_grid. now rewrite HV, Hn.
Qed.

Lemma average_same_grid (s s' : Solver) (D C : matrix) (eig : vector)
  (grid_info : option GridInfo) :
  same_grid s s' ->
  _average_local_orbital_energy s' D C eig grid_info
  = _average_local_orbital_energy s D C eig grid_info.
Proof.
  intros H. unfold _average_local_orbital_energy.
  now rewrite (select_grid_same s s' grid_info H).
Qed.

Lemma pauli_same_grid (s s' : Solver) (D C : matrix) (occ : option vector)
  (grid_info : option GridInfo) :
  same_grid s s' ->
  _pauli_kinetic_energy_density s' D C occ grid_info
  = _pauli_kinetic_energy_density s D C occ grid_info.
Proof.
  intros H. unfold _pauli_kinetic_energy_density.
  now rewrite (select_grid_same s s' grid_info H).
Qed.

Lemma same_grid_refl (s : Solver) : same_grid s s.
Proof. repeat split. Qed.

Lemma same_grid_trans (s1 s2 s3 : Solver) :
  same_grid s1 s2 -> same_grid s2 s3 -> same_grid s1 s3.
Proof.
  intros [H1 [H2 H3]] [H4 [H5 H6]]. repeat split; congruence.
Qed.

(** The reference branch returns the two reference fields of the grid it
was given, leaves the solver as it is and requests no re-diagonalisation. *)
Lemma reference_quantities_ok (eng : Engine) (w w' : World)
  (ebarWF taup_rho_WF : vector) (reference : Reference) :
  reference_quantities eng w = (Ok (ebarWF, taup_rho_WF, reference), w') ->
  self_ w' = self_ w /\
  diagonalizations (trace w') = diagonalizations (trace w) /\
  (exists D C eig,
     _average_local_orbital_energy (self_ w) D C eig None = Ok ebarWF) /\
  (exists D C occ,
     _pauli_kinetic_energy_density (self_ w) D C occ None = Ok taup_rho_WF).
Proof.
  unfold reference_quantities, bind, get_self. cbn [fst snd].
  destruct (String.eqb (name (wfn (self_ w))) "CIWavefunction").
  - destruct (2 <? _); [cbn; discriminate |].
    cbn -[_average_local_orbital_energy _pauli_kinetic_energy_density F_GFM
          diagonalizations].
    destruct (Matrix_diagonalize eng (F_GFM eng (self_ w)) Ascending) as [C1 e1].
    cbn -[_average_local_orbital_energy _pauli_kinetic_energy_density F_GFM
          diagonalizations].
    destruct (Matrix_diagonalize eng (opdm_active (wfn (self_ w))) Descending)
      as [C2 e2].
    unfold lift.
    cbn -[_average_local_orbital_energy _pauli_kinetic_energy_density F_GFM
          diagonalizations].
    destruct (_average_local_orbital_energy _ _ _ _ _) as [eb|] eqn:He;
      [| discriminate].
    destruct (_pauli_kinetic_energy_density _ _ _ _ _) as [tp|] eqn:Ht;
      [| discriminate].
    unfold ret. injection 1 as <- <- <- <-. cbn [self_ trace].
    split; [reflexivity |]. split.
    + rewrite !diagonalizations_app. cbn. lia.
    + split; eauto.
  - destruct (String.eqb (name (wfn (self_ w))) "RHF"); [| discriminate].
    unfold lift.
    destruct (_average_local_orbital_energy _ _ _ _ _) as [eb|] eqn:He;
      [| discriminate].
    destruct (_pauli_kinetic_energy_density _ _ _ _ _) as [tp|] eqn:Ht;
      [| discriminate].
    unfold ret. injection 1 as <- <- <- <-.
    split; [reflexivity |]. split; [reflexivity |]. split; eauto.
Qed.
Lemma call_vxc_hole_quadrature_grid (grid_info : option GridInfo) (atol : float)
  (w w' : World) (r : result vector) :
  call_vxc_hole_quadrature grid_info atol w = (r, w') ->
  same_grid (self_ w) (self_ w') /\ trace w' = trace w.
Proof.
  unfold call_vxc_hole_quadrature, _vxc_hole_quadrature.
  destruct (vxc_hole_WF (self_ w)) as [cached|], grid_info as [g|];
    try destruct (hole_quadrature (self_ w) _ atol);
    injection 1 as <- <-; cbn; repeat split.
Qed.

Lemma initial_guess_grid (eng : Engine) (init : InitArg) (w w' : World)
  (r : result unit) :
  initial_guess eng init w = (r, w') ->
  same_grid (self_ w) (self_ w') /\
  diagonalizations (trace w') = diagonalizations (trace w).
Proof.
  unfold initial_guess, bind, get_self, modify_self, emit, ret. cbn [fst snd].
  destruct init as [m|wf].
  - destruct (String.eqb (lower m) "continue").
    + injection 1 as <- <-. repeat split.
    + cbn -[diagonalizations]. injection 1 as <- <-. cbn [self_ trace].
      split; [repeat split |].
      rewrite diagonalizations_app. cbn. lia.
  - injection 1 as <- <-. repeat split.
Qed.

Lemma check_configuration_ok (self : Solver) :
  check_configuration self = Ok tt ->
  supported_wfn (name (wfn self)) = true /\ ref self = 1%Z /\
  exists rest, guide_potential_components self = "hartree"%string :: rest.
Proof.
  unfold check_configuration.
  destruct (supported_wfn (name (wfn self))); [| discriminate].
  destruct (Z.eqb_spec (ref self) 1) as [Hr|]; [| discriminate].
  destruct (guide_potential_components self) as [|g rest]; [discriminate |].
  destruct (String.eqb_spec g "hartree") as [->|]; [| discriminate].
  intros _. repeat split; try assumption. now exists rest.
Qed.

(** When [setup] returns, the solver is spin-restricted with the grid of the
engine attached, [emax] is the maximum of the reference orbital-energy
average, the two reference fields are passes over that grid, and no
re-diagonalisation has been requested. *)
Lemma setup_ok (eng : Engine) (init : InitArg) (w0 w : World) (inp : LoopInputs)
  (reference : Reference) :
  setup eng init w0 = (Ok (inp, reference), w) ->
  Ready w /\
  NumPy.max (in_ebarWF inp) = Ok (in_emax inp) /\
  (exists D C eig,
     _average_local_orbital_energy (self_ w) D C eig None = Ok (in_ebarWF inp)) /\
  (exists D C occ,
     _pauli_kinetic_energy_density (self_ w) D C occ None
     = Ok (in_taup_rho_WF inp)) /\
  diagonalizations (trace w) = diagonalizations (trace w0).
Proof.
  unfold setup. intros H.
  apply bind_ok in H. destruct H as [self [w1 [H1 H]]].
  injection H1 as <- <-.
  apply bind_ok in H. destruct H as [[] [w1 [H1 H]]].
  apply lift_ok in H1. destruct H1 as [Hcfg ->].
  apply check_configuration_ok in Hcfg. destruct Hcfg as [_ [Href _]].
  apply bind_ok in H. destruct H as [[] [w2 [H2 H]]].
  unfold prepare_grid, bind, emit, modify_self in H2. cbn in H2.
  injection H2 as <-.
  apply bind_ok in H. destruct H as [[[ebarWF taup] rf] [w3 [H3 H]]].
  apply reference_quantities_ok in H3.
  destruct H3 as [Hs3 [Hd3 [[D [C [eig He]]] [D' [C' [occ Ht]]]]]].
  apply bind_ok in H. destruct H as [vxchole [w4 [H4 H]]].
  apply call_vxc_hole_quadrature_grid in H4. destruct H4 as [Hg4 Ht4].
  apply bind_ok in H. destruct H as [emax [w5 [H5 H]]].
  apply lift_ok in H5. destruct H5 as [Hmax ->].
  apply bind_ok in H. destruct H as [[] [w6 [H6 H]]].
  apply initial_guess_grid in H6. destruct H6 as [Hg6 Hd6].
  unfold ret in H. injection H as <- <- <-. cbn [in_ebarWF in_emax in_taup_rho_WF].
  pose proof (same_grid_trans _ _ _ Hg4 Hg6) as Hg. rewrite Hs3 in Hg.
  cbn [self_] in Hg, He, Ht.
  split.
  { destruct Hg as [HV [_ Hr]]. split.
    - rewrite Hr. exact Href.
    - eexists. rewrite HV. reflexivity. }
  split; [exact Hmax |].
  split; [exists D, C, eig; now rewrite (average_same_grid _ _ D C eig None Hg) |].
  split; [exists D', C', occ; now rewrite (pauli_same_grid _ _ D' C' occ None Hg) |].
  rewrite Hd6, Ht4, Hd3. cbn [trace]. rewrite !diagonalizations_app. cbn. lia.
Qed.

(** The sizes of what [setup] hands to the loop: the reference fields have
one entry per point of the grid, and so has the hole potential unless it was
taken from the cache of an earlier call. *)
Lemma setup_sizes (eng : Engine) (init : InitArg) (w0 w : World) (inp : LoopInputs)
  (reference : Reference) :
  setup eng init w0 = (Ok (inp, reference), w) ->
  length (in_ebarWF inp) = npoints_DFT (self_ w) /\
  length (in_taup_rho_WF inp) = npoints_DFT (self_ w) /\
  (vxc_hole_WF (self_ w0) = None ->
   length (in_vxchole inp) = npoints_DFT (self_ w)).
Proof.
  unfold setup. intros H.
  apply bind_ok in H. destruct H as [self [w1 [H1 H]]].
  injection H1 as <- <-.
  apply bind_ok in H. destruct H as [[] [w1 [H1 H]]].
  apply lift_ok in H1. destruct H1 as [_ ->].
  apply bind_ok in H. destruct H as [[] [w2 [H2 H]]].
  unfold prepare_grid, bind, emit, modify_self in H2. cbn in H2.
  injection H2 as <-.
  apply bind_ok in H. destruct H as [[[ebarWF taup] rf] [w3 [H3 H]]].
  apply reference_quantities_ok in H3.
  destruct H3 as [Hs3 [_ [[D [C [eig He]]] [D' [C' [occ Ht]]]]]].
  apply bind_ok in H. destruct H as [vxchole [w4 [H4 H]]].
  pose proof (call_vxc_hole_quadrature_grid _ _ _ _ _ H4) as [Hg4 _].
  apply bind_ok in H. destruct H as [emax [w5 [H5 H]]].
  apply lift_ok in H5. destruct H5 as [_ ->].
  apply bind_ok in H. destruct H as [[] [w6 [H6 H]]].
  apply initial_guess_grid in H6. destruct H6 as [Hg6 _].
  unfold ret in H. injection H as <- <- <-.
  cbn [in_ebarWF in_vxchole in_taup_rho_WF].
  pose proof (same_grid_trans _ _ _ Hg4 Hg6) as [_ [Hn _]].
  rewrite Hn, Hs3.
  split; [exact (PassFacts.average_internal_length _ _ _ _ _ He) |].
  split; [exact (PassFacts.pauli_internal_length _ _ _ _ _ Ht) |].
  intros Hcache.
  unfold call_vxc_hole_quadrature, _vxc_hole_quadrature in H4.
  rewrite Hs3 in H4. cbn [self_ set_grid vxc_hole_WF] in H4.
  rewrite Hcache in H4.
  destruct (hole_quadrature _ None atol_default) as [v|e] eqn:Hq;
    [| discriminate].
  injection H4 as <- _.
  exact (PassFacts.hole_internal_length _ _ _ Hq).
Qed.

(** *** The candidate potential and its shift *)

(** An entry of the assembled potential, with the operands read as NumPy
broadcasts them. *)
Lemma assemble_at (h eK eW tW tK : vector) (c : float) (vxc : vector) (i : nat) :
  assemble h eK eW tW tK c = Ok vxc ->
  (i < length vxc)%nat ->
  at1 vxc i = bat h i + bat eK i - bat eW i + bat tW i - bat tK i + c.
Proof.
  unfold assemble, vadd, vsub.
  destruct (broadcast2 add h eK) as [a|] eqn:Ha; cbn [rbind]; [| discriminate].
  destruct (broadcast2 sub a eW) as [b|] eqn:Hb; cbn [rbind]; [| discriminate].
  destruct (broadcast2 add b tW) as [c'|] eqn:Hc; cbn [rbind]; [| discriminate].
  destruct (broadcast2 sub c' tK) as [d|] eqn:Hd; cbn [rbind]; [| discriminate].
  injection 1 as <-. unfold vadds. rewrite length_map. intros Hi.
  unfold at1. rewrite (nth_map_in _ _ _ 0 _) by assumption.
  fold (at1 d i). rewrite <- (bat_at1 d i Hi).
  destruct (broadcast2_bat _ _ _ _ i Hd (or_introl Hi)) as [Ci [_ ->]].
  destruct (broadcast2_bat _ _ _ _ i Hc Ci) as [Bi [_ ->]].
  destruct (broadcast2_bat _ _ _ _ i Hb Bi) as [Ai [_ ->]].
  destruct (broadcast2_bat _ _ _ _ i Ha Ai) as [_ [_ ->]].
  reflexivity.
Qed.

(** Operands of one size are combined entry by entry. *)
Lemma assemble_same_size (h eK eW tW tK : vector) (c : float) (n : nat) :
  length h = n -> length eK = n -> length eW = n -> length tW = n ->
  length tK = n ->
  exists vxc,
    assemble h eK eW tW tK c = Ok vxc /\ length vxc = n /\
    forall i, (i < n)%nat ->
      at1 vxc i = at1 h i + at1 eK i - at1 eW i + at1 tW i - at1 tK i + c.
Proof.
  intros H1 H2 H3 H4 H5.
  assert (assemble h eK eW tW tK c
          = Ok (vadds (map2 sub (map2 add (map2 sub (map2 add h eK) eW) tW) tK) c))
    as E.
  { unfold assemble, vadd, vsub.
    rewrite broadcast2_equal by lia. cbn [rbind].
    rewrite broadcast2_equal by (rewrite map2_length; lia). cbn [rbind].
    rewrite broadcast2_equal by (rewrite !map2_length; lia). cbn [rbind].
    rewrite broadcast2_equal by (rewrite !map2_length; lia). reflexivity. }
  eexists. split; [exact E |].
  assert (length (vadds (map2 sub (map2 add (map2 sub (map2 add h eK) eW) tW) tK) c)
          = n) as Hl.
  { unfold vadds. rewrite length_map, !map2_length. lia. }
  split; [exact Hl |].
  intros i Hi. rewrite (assemble_at _ _ _ _ _ _ _ i E) by lia.
  now rewrite !bat_at1 by lia.
Qed.

Lemma current_fields_ok (self : Solver) (inp : LoopInputs) (ebarKS taup : vector)
  (s : float) :
  current_fields self inp = Ok (ebarKS, taup, s) ->
  _average_local_orbital_energy self (Da self) (Coca self)
    (firstn (nalpha self) (eigvecs_a self)) None = Ok ebarKS /\
  _pauli_kinetic_energy_density self (Da self) (Coca self) None None = Ok taup /\
  loop_shift (in_emax inp) ebarKS = Ok s.
Proof.
  unfold current_fields.
  destruct (_average_local_orbital_energy _ _ _ _ _) as [e|] eqn:He;
    cbn [rbind]; [| discriminate].
  destruct (_pauli_kinetic_energy_density _ _ _ _ _) as [t|] eqn:Ht;
    cbn [rbind]; [| discriminate].
  destruct (loop_shift (in_emax inp) e) as [c|] eqn:Hs; cbn [rbind];
    [| discriminate].
  injection 1 as <- <- <-. repeat split; assumption.
Qed.

Lemma candidate_ok (self : Solver) (inp : LoopInputs) (ebarKS taup : vector)
  (s : float) (vxc : vector) :
  candidate self inp = Ok (ebarKS, taup, s, vxc) ->
  _average_local_orbital_energy self (Da self) (Coca self)
    (firstn (nalpha self) (eigvecs_a self)) None = Ok ebarKS /\
  _pauli_kinetic_energy_density self (Da self) (Coca self) None None = Ok taup /\
  loop_shift (in_emax inp) ebarKS = Ok s /\
  assemble (in_vxchole inp) ebarKS (in_ebarWF inp) (in_taup_rho_WF inp) taup s
  = Ok vxc.
Proof.
  intros H. apply candidate_parts in H. destruct H as [Hf Ha].
  apply current_fields_ok in Hf. destruct Hf as [He [Ht Hs]].
  repeat split; assumption.
Qed.



(** C3, as the code has it.  The shift recomputed on the output grid has the
operand order of the shift of the loop: both are the maximum of the
reference average minus the maximum of the current one.  (The loop takes the
reference maximum [emax] from the internal grid; the output path takes both
maxima from the output grid.) *)
Theorem output_shift_same_order (ebarWF ebarKS : vector) (max_WF max_KS : float) :
  NumPy.max ebarWF = Ok max_WF ->
  NumPy.max ebarKS = Ok max_KS ->
  output_shift ebarWF ebarKS = Ok (max_WF - max_KS) /\
  loop_shift max_WF ebarKS = Ok (max_WF - max_KS).
Proof.
  intros HW HK. unfold output_shift, loop_shift.
  rewrite HW, HK. cbn [rbind]. split; reflexivity.
Qed.

Lemma output_shift_same_order_example :
  NumPy.max [1] = Ok 1 /\ NumPy.max [3] = Ok 3 /\
  output_shift [1] [3] = Ok (1 - 3) /\ loop_shift 1 [3] = Ok (1 - 3).
Proof.
  split; [reflexivity |]. split; [reflexivity |].
  exact (output_shift_same_order [1] [3] 1 3 eq_refl eq_refl).
Defined.

(** C3, as the claim has it, fails: with a reference average of maximum 1
and a current average of maximum 3 the output path does not return
[max(current) - max(reference) = 2]; it returns what the loop computes. *)
Lemma output_shift_not_reversed :
  output_shift [1] [3] <> Ok (3 - 1) /\
  output_shift [1] [3] = loop_shift 1 [3].
Proof.
  split; [| reflexivity].
  intros H.
  apply (f_equal (fun r => match r with
                           | Ok c => c <? 0
                           | Raise _ => false
                           end)) in H.
  vm_compute in H. discriminate H.
Qed.
End LoopFacts.

(** ** The configuration checks *)

Module ConfigurationFacts.
Import NumPy Psi4 MRKS.

Lemma check_configuration_refuses (self : Solver) :
  (name (wfn self) <> "CIWavefunction"%string /\ name (wfn self) <> "RHF"%string) \/
  ref self <> 1%Z \/
  (exists first rest, guide_potential_components self = first :: rest /\
                      first <> "hartree"%string) ->
  exists msg, check_configuration self = Raise (ValueError msg).
Proof.
  intros H. unfold check_configuration, supported_wfn.
  destruct (String.eqb_spec (name (wfn self)) "CIWavefunction") as [Hci|Hci];
    destruct (String.eqb_spec (name (wfn self)) "RHF") as [Hrhf|Hrhf];
    cbn [orb negb]; try (eexists; reflexivity);
    (destruct (Z.eqb_spec (ref self) 1) as [Hr|Hr]; cbn [negb];
     [| eexists; reflexivity]);
    (destruct H as [[H1 H2]|[H|[first [rest [Hg Hf]]]]]; try contradiction;
     rewrite Hg;
     destruct (String.eqb_spec first "hartree") as [Hh|Hh]; try contradiction;
     cbn [negb]; eexists; reflexivity).
Qed.

(** C8.  When the kind of the input wavefunction is neither of the two
supported ones, or the reference is not spin-restricted ([ref <> 1]), or the
first guide-potential component is not the Hartree potential, [mRKS] raises a
[ValueError] and returns the world it was given: the solver is unchanged and
the trace has no new entry, so no grid was built, no quadrature or engine
request made and no iteration run. *)
Theorem configuration_errors (eng : Engine) (maxiter : Z)
  (vxc_grid : option matrix) (tol : Tolerances) (init : InitArg) (w : World) :
  (name (wfn (self_ w)) <> "CIWavefunction"%string /\
   name (wfn (self_ w)) <> "RHF"%string) \/
  ref (self_ w) <> 1%Z \/
  (exists first rest, guide_potential_components (self_ w) = first :: rest /\
                      first <> "hartree"%string) ->
  exists msg, mRKS eng maxiter vxc_grid tol init w = (Raise (ValueError msg), w).
Proof.
  intros H. apply check_configuration_refuses in H. destruct H as [msg H].
  exists msg. unfold mRKS, setup, bind, get_self, lift.
  rewrite H. destruct w. reflexivity.
Qed.

(** The three refusals on the example: another kind of wavefunction, an
unrestricted reference, a guide potential that does not start with Hartree. *)
Lemma configuration_errors_example :
  let refused (n : string) (r : Z) (g : list string) :=
    exists msg,
      mRKS Example.engine 10 None default_tolerances (InitMethod "svwn")
           {| self_ := Example.with_configuration n r g; trace := [] |}
      = (Raise (ValueError msg),
         {| self_ := Example.with_configuration n r g; trace := [] |}) in
  refused "CCSD"%string 1%Z ["hartree"%string] /\
  refused "RHF"%string 2%Z ["hartree"%string] /\
  refused "RHF"%string 1%Z ["fermi_amaldi"%string; "hartree"%string].
Proof.
  cbv zeta. split; [| split].
  - apply configuration_errors. left. split; discriminate.
  - apply configuration_errors. right. left. discriminate.
  - apply configuration_errors. right. right.
    exists "fermi_amaldi"%string, ["hartree"%string]. split; [reflexivity | discriminate].
Defined.
End ConfigurationFacts.

(** ** The first iteration *)

Module FirstIterationFacts.
Import NumPy Psi4 MRKS F64Facts.
Local Open Scope float_scope.




End FirstIterationFacts.

(** ** Mixing *)

Module MixingFacts.
Import NumPy Psi4 MRKS F64Facts NumPyFacts.
Local Open Scope float_scope.

Lemma covers_map (g : float -> float) (v : vector) (i : nat) :
  covers (map g v) i <-> covers v i.
Proof. unfold covers. now rewrite length_map. Qed.

Lemma bat_map (g : float -> float) (v : vector) (i : nat) :
  covers v i -> bat (map g v) i = g (bat v i).
Proof.
  unfold covers, bat. rewrite length_map. intros H.
  destruct (Nat.eqb_spec (length v) 1) as [E|N]; unfold at1.
  - apply nth_map_in. lia.
  - apply nth_map_in. lia.
Qed.

(** An entry of [vxc * (1 - frac_old) + vxc_old * frac_old]. *)
Lemma mix_at (vxc prev : vector) (f : float) (m : vector) (i : nat) :
  mix vxc (Array prev) f = Ok m ->
  (i < length m)%nat ->
  at1 m i = bat vxc i * (1 - f) + bat prev i * f.
Proof.
  unfold mix, vadd_old, scale_old, vadd, vscale. intros H Hi.
  rewrite <- (bat_at1 m i Hi).
  destruct (broadcast2_bat _ _ _ _ i H (or_introl Hi)) as [Hv [Hp ->]].
  apply covers_map in Hv, Hp. now rewrite !bat_map by assumption.
Qed.

(** The size of the mixture: that of its operands, or of the other one
when one of them has a single entry. *)
Lemma mix_shape (vxc prev : vector) (f : float) (m : vector) :
  mix vxc (Array prev) f = Ok m ->
  (length vxc = length prev /\ length m = length vxc) \/
  (length vxc = 1%nat /\ length m = length prev) \/
  (length prev = 1%nat /\ length m = length vxc).
Proof.
  unfold mix, vadd_old, scale_old, vadd, vscale. intros H.
  apply broadcast2_shape in H. now rewrite !length_map in H.
Qed.

(** An iteration that continues has saved the potential it handed to the
Fock build. *)
Lemma iteration_continue_saved (eng : Engine) (tol : Tolerances) (inp : LoopInputs)
  (k : nat) (loc loc' : Locals) (w w' : World) (ebarKS taup : vector) (s : float)
  (vxc : vector) :
  candidate (self_ w) inp = Ok (ebarKS, taup, s, vxc) ->
  iteration eng tol inp k loc w = (Ok (Continue loc'), w') ->
  exists vmix,
    mixed tol k vxc (vxc_old loc) = Ok vmix /\
    loc' = saved (self_ w) ebarKS taup vmix.
Proof.
  intros Hc Hi. apply LoopFacts.iteration_continue_inv in Hi.
  destruct Hi as [e [t [c [v [verror [eerror [vmix
    [Hc' [_ [_ [_ [_ [Hm [-> _]]]]]]]]]]]]]].
  rewrite Hc in Hc'. injection Hc' as <- <- <- <-.
  now exists vmix.
Qed.

(** C6, as the code has it.  An iteration that continues hands to the Fock
build, and saves as the previous potential of the next iteration, the
potential [mixed]: on the first iteration the unmixed candidate; on every
other iteration, point by point,
[new * (1 - frac_old) + previous * frac_old].  With [frac_old = 0] the mixed
potential is the candidate itself (up to the sign of a zero) at every point
where the previous potential is a finite number. *)
Theorem mixing_policy (eng : Engine) (tol : Tolerances) (inp : LoopInputs)
  (k : nat) (loc loc' : Locals) (w w' : World) (ebarKS taup : vector) (s : float)
  (new : vector) :
  candidate (self_ w) inp = Ok (ebarKS, taup, s, new) ->
  iteration eng tol inp k loc w = (Ok (Continue loc'), w') ->
  exists potential,
    mixed tol k new (vxc_old loc) = Ok potential /\
    (vxc loc' = Some potential /\ vxc_old loc' = Array potential) /\
    (k = 1%nat -> potential = new) /\
    (k <> 1%nat ->
     forall previous, vxc_old loc = Array previous ->
     (length new = length previous -> length potential = length new) /\
     (forall i, (i < length new)%nat -> (i < length previous)%nat ->
        at1 potential i
        = at1 new i * (1 - frac_old tol) + at1 previous i * frac_old tol) /\
     (forall i, (i < length potential)%nat ->
        at1 potential i
        = bat new i * (1 - frac_old tol) + bat previous i * frac_old tol)) /\
    (frac_old tol = 0 ->
     forall previous, vxc_old loc = Array previous ->
     forall i, (i < length new)%nat -> (i < length previous)%nat ->
       F64.finite (at1 previous i) = true ->
       F64.same (at1 potential i) (at1 new i)).
Proof.
  intros Hc Hi.
  destruct (iteration_continue_saved eng tol inp k loc loc' w w' _ _ _ _ Hc Hi)
    as [potential [Hm ->]].
  exists potential. split; [exact Hm |].
  split; [split; reflexivity |].
  assert (forall previous i,
            mix new (Array previous) (frac_old tol) = Ok potential ->
            (i < length new)%nat -> (i < length previous)%nat ->
            at1 potential i
            = at1 new i * (1 - frac_old tol) + at1 previous i * frac_old tol)
    as Hat.
  { intros previous i Hmix Hn Hp.
    rewrite (mix_at _ _ _ _ i Hmix)
      by (apply mix_shape in Hmix; lia).
    now rewrite !bat_at1 by assumption. }
  split; [| split].
  - intros ->. unfold mixed in Hm. cbn in Hm. now injection Hm as <-.
  - intros Hk previous Hp. unfold mixed in Hm.
    destruct (Nat.eqb_spec k 1) as [|_]; [contradiction |].
    cbn [negb] in Hm. rewrite Hp in Hm.
    split; [| split].
    + intros Hl. apply mix_shape in Hm. lia.
    + intros i. now apply Hat.
    + intros i. now apply mix_at.
  - intros Hf previous Hp i Hn Hpl Hfin. unfold mixed in Hm.
    destruct (negb (k =? 1)%nat).
    + rewrite Hp in Hm. rewrite (Hat previous i Hm Hn Hpl), Hf.
      now apply mix_zero_same.
    + injection Hm as <-. now left.
Qed.

(** The second iteration of the example, with [frac_old = 0.5]. *)
Lemma mixing_policy_example :
  candidate (self_ Example.second_world) Example.entry_inputs
  = Ok ([-0.875; -0.875], [0; 0], 0.375, [-0.125; -0.5]) /\
  (exists loc' w',
     iteration Example.engine Example.negative_tolerances Example.entry_inputs 2
               Example.second_locals Example.second_world
     = (Ok (Continue loc'), w') /\
     exists potential,
       mixed Example.negative_tolerances 2 [-0.125; -0.5]
             (vxc_old Example.second_locals) = Ok potential /\
       vxc loc' = Some potential).
Proof.
  assert (candidate (self_ Example.second_world) Example.entry_inputs
          = Ok ([-0.875; -0.875], [0; 0], 0.375, [-0.125; -0.5])) as Hc
    by (vm_compute; reflexivity).
  split; [exact Hc |].
  destruct (iteration Example.engine Example.negative_tolerances
                      Example.entry_inputs 2 Example.second_locals
                      Example.second_world) as [[[l|l]|e] w'] eqn:Hi;
    try (vm_compute in Hi; discriminate Hi).
  exists l, w'. split; [reflexivity |].
  destruct (mixing_policy _ _ _ _ _ _ _ _ _ _ _ _ Hc Hi)
    as [potential [Hm [[Hv _] _]]].
  exists potential. now split.
Defined.

(** C6, as the claim has it, fails where the previous potential is not a
finite number: with [frac_old = 0], a new value of one mixed with an infinite
previous value is [nan], not one. *)
Lemma mixing_with_infinite_previous :
  frac_old Example.unmixed = 0 /\
  mixed Example.unmixed 2 [1] (Array [infinity]) = Ok [nan] /\
  ~ F64.same (at1 [nan] 0) (at1 [1] 0).
Proof.
  split; [reflexivity |]. split; [reflexivity |].
  intros [H|[H _]].
  - apply (f_equal is_nan) in H. vm_compute in H. discriminate H.
  - vm_compute in H. discriminate H.
Qed.
End MixingFacts.

(** ** Exhausting [maxiter] *)

Module ExhaustionFacts.
Import NumPy Psi4 MRKS NumPyFacts PassFacts LoopFacts.
Local Open Scope float_scope.

Lemma completed_iterations_app (tr tr' : list event) :
  completed_iterations (tr ++ tr')
  = (completed_iterations tr + completed_iterations tr')%nat.
Proof. unfold completed_iterations. now rewrite filter_app, length_app. Qed.

(** [range(1, maxiter+1)] is empty for [maxiter <= 0]. *)
Lemma steps_of_nonpositive (maxiter : Z) : (maxiter <= 0)%Z -> steps_of maxiter = [].
Proof.
  intros H. unfold steps_of. now replace (Z.to_nat maxiter) with 0%nat by lia.
Qed.

(** C7, at the input where the code departs from the claim.  With
[maxiter <= 0] no test of the loop is ever satisfied and the loop is
exhausted at once, without a re-diagonalisation.  The claim promises a
normal return; [mRKS] called without an output grid raises
[UnboundLocalError] at its [return], since [vxc], [ebarKS] and [taup_rho_KS]
are assigned in the loop body only, while the same call with an output grid
goes on to compute and return the six fields on that grid. *)
Theorem exhaustion_without_iteration (eng : Engine) (maxiter : Z)
  (tol : Tolerances) (init : InitArg) (w0 w : World) (inp : LoopInputs)
  (reference : Reference) :
  setup eng init w0 = (Ok (inp, reference), w) ->
  (maxiter <= 0)%Z ->
  loop eng tol inp (steps_of maxiter) initial_locals w = (Ok initial_locals, w) /\
  diagonalizations (trace w) = diagonalizations (trace w0) /\
  mRKS eng maxiter None tol init w0 = (Raise (UnboundLocalError "vxc"), w) /\
  forall g, mRKS eng maxiter (Some g) tol init w0 = output_fields eng reference g w.
Proof.
  intros Hsetup Hmax.
  assert (loop eng tol inp (steps_of maxiter) initial_locals w
          = (Ok initial_locals, w)) as Hloop
    by now rewrite (steps_of_nonpositive maxiter Hmax).
  split; [exact Hloop |].
  split; [now apply (setup_ok eng init w0 w inp reference) |].
  split.
  - unfold mRKS. unfold bind at 1. rewrite Hsetup.
    unfold bind. now rewrite Hloop.
  - intros g. unfold mRKS. unfold bind at 1. rewrite Hsetup.
    unfold bind. now rewrite Hloop.
Qed.

(** The example with [maxiter = 0]: the call without an output grid raises,
the call with one returns. *)
Lemma exhaustion_without_iteration_example :
  setup Example.engine (InitMethod "svwn") Example.world
  = (Ok (Example.entry_inputs, RHF_reference [-0.5]), Example.entry_world) /\
  (0 <= 0)%Z /\
  mRKS Example.engine 0 None Example.negative_tolerances (InitMethod "svwn")
       Example.world
  = (Raise (UnboundLocalError "vxc"), Example.entry_world) /\
  fst (mRKS Example.engine 0 (Some [[0.5]; [0]; [0]]) Example.negative_tolerances
            (InitMethod "svwn") Example.world)
  = Ok ([-1.25], [-1.25], [-0.5], [-0.5], [0], [0]).
Proof.
  assert (setup Example.engine (InitMethod "svwn") Example.world
          = (Ok (Example.entry_inputs, RHF_reference [-0.5]), Example.entry_world))
    as Hs by (vm_compute; reflexivity).
  split; [exact Hs |]. split; [lia |].
  destruct (exhaustion_without_iteration Example.engine 0
              Example.negative_tolerances (InitMethod "svwn") Example.world
              Example.entry_world Example.entry_inputs (RHF_reference [-0.5])
              Hs ltac:(lia)) as [_ [_ [Hnone Hsome]]].
  split; [exact Hnone |].
  rewrite Hsome. vm_compute. reflexivity.
Defined.
End ExhaustionFacts.

(** * Further properties of the solver *)

(** ** binary64: [nan] and signs *)

Module F64Order.
Import F64Facts.
Local Open Scope float_scope.

Lemma is_nan_spec (x : float) : is_nan x = true <-> Prim2SF x = S754_nan.
Proof.
  unfold is_nan. rewrite eqb_spec. unfold SFeqb.
  pose proof (Prim2SF_valid x) as Hv.
  destruct (Prim2SF x) as [s|s| |s m e]; cbn; split; intros H;
    try reflexivity; try discriminate H.
  - destruct s; discriminate H.
  - exfalso. destruct s; rewrite Z.compare_refl, Pos.compare_cont_refl in H;
      discriminate H.
Qed.

(** [nan] is absorbing for the four operations, the square root and
[np.maximum], and compares below nothing. *)
Lemma add_nan_l (x y : float) : is_nan x = true -> is_nan (x + y) = true.
Proof.
  rewrite !is_nan_spec, add_spec. intros ->. reflexivity.
Qed.

Lemma add_nan_r (x y : float) : is_nan y = true -> is_nan (x + y) = true.
Proof.
  rewrite !is_nan_spec, add_spec. intros ->.
  destruct (Prim2SF x); reflexivity.
Qed.

Lemma sub_nan_l (x y : float) : is_nan x = true -> is_nan (x - y) = true.
Proof.
  rewrite !is_nan_spec, sub_spec. intros ->. reflexivity.
Qed.

Lemma sub_nan_r (x y : float) : is_nan y = true -> is_nan (x - y) = true.
Proof.
  rewrite !is_nan_spec, sub_spec. intros ->.
  destruct (Prim2SF x); reflexivity.
Qed.

Lemma mul_nan_l (x y : float) : is_nan x = true -> is_nan (x * y) = true.
Proof.
  rewrite !is_nan_spec, mul_spec. intros ->. reflexivity.
Qed.

Lemma div_nan_l (x y : float) : is_nan x = true -> is_nan (x / y) = true.
Proof.
  rewrite !is_nan_spec, div_spec. intros ->. reflexivity.
Qed.

Lemma sqrt_nan (x : float) : is_nan x = true -> is_nan (sqrt x) = true.
Proof.
  rewrite !is_nan_spec, sqrt_spec. intros ->. reflexivity.
Qed.

Lemma ltb_nan_l (x y : float) : is_nan x = true -> (x <? y) = false.
Proof.
  rewrite is_nan_spec, ltb_spec. intros ->. reflexivity.
Qed.

Lemma maximum_nan_l (a b : float) :
  is_nan a = true -> is_nan (F64.maximum a b) = true.
Proof. intros H. unfold F64.maximum. now rewrite H. Qed.

Lemma maximum_nan_r (a b : float) :
  is_nan b = true -> is_nan (F64.maximum a b) = true.
Proof.
  intros H. unfold F64.maximum.
  destruct (is_nan a) eqn:Ha; [exact Ha |]. now rewrite H.
Qed.

(** A number that is not negative: a zero of either sign, a positive
number, [+infinity], or [nan]. *)
Definition SF_not_negative (f : spec_float) : Prop :=
  match f with
  | S754_nan | S754_zero _ => True
  | S754_infinity s | S754_finite s _ _ => s = false
  end.

(** The same without the negative zero: what a divisor must be for the sign
of a quotient to be that of its numerator. *)
Definition SF_plus (f : spec_float) : Prop :=
  match f with
  | S754_nan => True
  | S754_zero s | S754_infinity s | S754_finite s _ _ => s = false
  end.

Lemma SF_plus_not_negative (f : spec_float) : SF_plus f -> SF_not_negative f.
Proof. destruct f; cbn; trivial. Qed.

(** Rounding keeps the sign it is given. *)
Lemma binary_round_aux_plus (m e : Z) (l : location) :
  SF_plus (binary_round_aux prec emax false m e l).
Proof.
  unfold binary_round_aux.
  destruct (shr_fexp prec emax m e l) as [mrs' e'].
  destruct (shr_fexp prec emax _ e' loc_Exact) as [mrs'' e''].
  destruct (shr_m mrs''); cbn; trivial.
  destruct (_ <=? _)%Z; reflexivity.
Qed.

Lemma binary_round_plus (m : positive) (e : Z) :
  SF_plus (binary_round prec emax false m e).
Proof.
  unfold binary_round. destruct (shl_align _ _ _) as [mz ez].
  apply binary_round_aux_plus.
Qed.

Lemma binary_normalize_plus (m e : Z) :
  (0 <= m)%Z -> SF_plus (binary_normalize prec emax m e false).
Proof.
  intros H. destruct m as [|p|p]; cbn [binary_normalize].
  - reflexivity.
  - apply binary_round_plus.
  - lia.
Qed.

(** A Python [int] that is not negative converts to a float that is not
negative. *)
Lemma Prim2SF_SF2Prim_plus (r : spec_float) :
  SF_plus r -> SF_plus (Prim2SF (SF2Prim r)).
Proof.
  destruct r as [s|s| |s m e]; cbn [SF_plus]; intros H; subst;
    try exact I; try reflexivity.
  cbn [SF2Prim]. rewrite FloatLemmas.Z_ldexp_spec, of_uint63_spec.
  pose proof (Uint63.to_Z_bounded (Uint63Axioms.of_Z (Z.pos m))) as [Hb _].
  pose proof (binary_normalize_plus _ 0 Hb) as Hp.
  destruct (binary_normalize prec emax _ 0 false) as [s'|s'| |s' m' e'];
    cbn [SFldexp]; try exact Hp.
  cbn [SF_plus] in Hp. subst s'. apply binary_round_plus.
Qed.

Lemma of_Z_plus (z : Z) : (0 <= z)%Z -> SF_plus (Prim2SF (F64.of_Z z)).
Proof.
  intros H. unfold F64.of_Z. apply Prim2SF_SF2Prim_plus.
  now apply binary_normalize_plus.
Qed.

Lemma of_nat_plus (n : nat) : SF_plus (Prim2SF (F64.of_nat n)).
Proof. unfold F64.of_nat. apply of_Z_plus. lia. Qed.

(** A square root is not negative. *)
Lemma sqrt_not_negative (x : float) : SF_not_negative (Prim2SF (sqrt x)).
Proof.
  rewrite sqrt_spec. unfold SF64sqrt, SFsqrt.
  destruct (Prim2SF x) as [s|[]| |[] m e]; cbn [SF_not_negative]; trivial.
  destruct (SFsqrt_core_binary prec emax (Z.pos m) e) as [[mz ez] lz].
  apply SF_plus_not_negative, binary_round_aux_plus.
Qed.

(** The quotient of a number that is not negative by one that is not
negative, nor the negative zero. *)
Lemma div_not_negative (x y : float) :
  SF_not_negative (Prim2SF x) -> SF_plus (Prim2SF y) ->
  SF_not_negative (Prim2SF (x / y)).
Proof.
  rewrite div_spec. unfold SF64div, SFdiv.
  destruct (Prim2SF x) as [sx|sx| |sx mx ex], (Prim2SF y) as [sy|sy| |sy my ey];
    cbn [SF_not_negative SF_plus]; intros Hx Hy; subst; trivial.
  destruct (SFdiv_core_binary prec emax (Z.pos mx) ex (Z.pos my) ey)
    as [[mz ez] lz].
  apply SF_plus_not_negative, binary_round_aux_plus.
Qed.

(** A number that is not negative is not strictly below a bound that is
zero or negative. *)
Lemma not_negative_ltb (x t : float) :
  SF_not_negative (Prim2SF x) -> (t <=? 0) = true -> (x <? t) = false.
Proof.
  rewrite leb_spec, ltb_spec, Prim2SF_zero. unfold SFleb, SFltb.
  destruct (Prim2SF x) as [sx|sx| |sx mx ex], (Prim2SF t) as [st|st| |st mt et];
    cbn [SF_not_negative SFcompare]; intros Hx Ht; subst; trivial;
    try (destruct st; trivial; discriminate Ht).
Qed.
End F64Order.

(** ** Tolerances that are zero or negative *)

Module ToleranceFacts.
Import NumPy Psi4 MRKS F64Order LoopFacts ExhaustionFacts.
Local Open Scope float_scope.

(** The three error metrics are a norm divided by a count: none of them is
strictly below a bound that is zero or negative. *)
Lemma error_not_below (v : vector) (n : nat) (t : float) :
  (t <=? 0) = true -> (norm v / F64.of_nat n <? t) = false.
Proof.
  intros Ht. apply not_negative_ltb; [| exact Ht].
  apply div_not_negative.
  - unfold norm. apply sqrt_not_negative.
  - apply of_nat_plus.
Qed.

Lemma potential_error_not_below (self : Solver) (vxc : vector) (old : Old vector)
  (verror t : float) :
  potential_error self vxc old = Ok verror ->
  (t <=? 0) = true -> (verror <? t) = false.
Proof.
  unfold potential_error.
  destruct (vsub_old vxc old) as [d|]; cbn [rbind]; [| discriminate].
  injection 1 as <-. apply error_not_below.
Qed.

Lemma eigenvalue_error_not_below (self : Solver) (old : Old vector)
  (eerror t : float) :
  eigenvalue_error self old = Ok eerror ->
  (t <=? 0) = true -> (eerror <? t) = false.
Proof.
  unfold eigenvalue_error.
  destruct (vsub_old _ old) as [d|]; cbn [rbind]; [| discriminate].
  injection 1 as <-. apply error_not_below.
Qed.

Lemma density_error_not_below (self : Solver) (old : Old matrix) (t : float) :
  (t <=? 0) = true -> (density_error self old <? t) = false.
Proof. unfold density_error, mnorm. apply error_not_below. Qed.

(** Under such tolerances no iteration leaves the loop. *)
Lemma iteration_never_breaks (eng : Engine) (tol : Tolerances) (inp : LoopInputs)
  (k : nat) (loc loc' : Locals) (w w' : World) :
  (v_tol tol <=? 0) = true ->
  (D_tol tol <=? 0) = true \/ (eig_tol tol <=? 0) = true ->
  iteration eng tol inp k loc w <> (Ok (Break loc'), w').
Proof.
  intros Hv Hde H. apply iteration_break_inv in H.
  destruct H as [e [t [s [vxc [verror [_ [Hp [_ [_ Hcases]]]]]]]]].
  pose proof (potential_error_not_below _ _ _ _ _ Hp Hv) as Hnot.
  destruct Hcases as [[Ht _]|[_ [_ [eerror [He Hs]]]]]; [congruence |].
  apply andb_prop in Hs. destruct Hs as [HD HE].
  destruct Hde as [Ht|Ht].
  - rewrite (density_error_not_below _ _ _ Ht) in HD. discriminate.
  - rewrite (eigenvalue_error_not_below _ _ _ _ He Ht) in HE. discriminate.
Qed.

(** A loop none of whose iterations breaks, and which returns, has run
every step, with one re-diagonalisation each, and ends with its three
fields assigned. *)
Lemma loop_without_break (eng : Engine) (tol : Tolerances) (inp : LoopInputs)
  (steps : list nat) :
  (forall k loc w loc' w',
     iteration eng tol inp k loc w <> (Ok (Break loc'), w')) ->
  forall (loc : Locals) (w : World) (loc' : Locals) (w' : World),
    loop eng tol inp steps loc w = (Ok loc', w') ->
    diagonalizations (trace w')
    = (diagonalizations (trace w) + length steps)%nat /\
    completed_iterations (trace w')
    = (completed_iterations (trace w) + length steps)%nat /\
    (steps <> [] ->
     exists v e t, vxc loc' = Some v /\ ebarKS loc' = Some e /\
                   taup_rho_KS loc' = Some t).
Proof.
  intros Hnever. induction steps as [|k rest IH]; intros loc w loc' w' Hloop.
  - cbn in Hloop. injection Hloop as <- <-. cbn.
    repeat split; try lia. intros H. now contradiction H.
  - cbn [loop] in Hloop. unfold bind at 1 in Hloop.
    destruct (iteration eng tol inp k loc w) as [[[l|l]|err] w1] eqn:Hi;
      [| | discriminate].
    { now destruct (Hnever _ _ _ _ _ Hi). }
    pose proof (iteration_continue_inv _ _ _ _ _ _ _ _ Hi)
      as [e [t [s [v [verror [eerror [vmix
            [Hc [Hp [Ht [He [Hs [Hm [-> Hready]]]]]]]]]]]]]].
    destruct (iteration_keep_going eng tol inp k loc w e t s v verror eerror vmix
                Hready Hc Hp Ht He Hs Hm) as [w2 [Hi2 [Htr _]]].
    rewrite Hi in Hi2. injection Hi2 as <-.
    destruct (IH _ _ _ _ Hloop) as [Hd [Hci Hset]].
    rewrite Hd, Hci, Htr, !diagonalizations_app, !completed_iterations_app.
    cbn [length]. split; [cbn; lia |]. split; [cbn; lia |].
    intros _. destruct rest as [|k' rest'].
    + cbn in Hloop. injection Hloop as <- _.
      do 3 eexists. repeat split.
    + apply Hset. discriminate.
Qed.

(** The two tests of the loop are strict comparisons of norms with the
tolerances.  With a potential tolerance that is zero or negative, and a
density or an eigenvalue tolerance that is zero or negative, no test can be
satisfied and no iteration leaves the loop: a call of [mRKS] that returns
has run all its [maxiter] iterations, with one re-diagonalisation each, and,
without an output grid, returns the fields of the last one. *)
Theorem nonpositive_tolerances_run_every_iteration (eng : Engine) (maxiter : Z)
  (tol : Tolerances) (init : InitArg) (w0 : World) (vxc_grid : option matrix) :
  (v_tol tol <=? 0) = true ->
  (D_tol tol <=? 0) = true \/ (eig_tol tol <=? 0) = true ->
  (forall inp k loc w loc' w',
     iteration eng tol inp k loc w <> (Ok (Break loc'), w')) /\
  (forall fields w',
     mRKS eng maxiter vxc_grid tol init w0 = (Ok fields, w') ->
     exists inp reference w1 loc w2,
       setup eng init w0 = (Ok (inp, reference), w1) /\
       loop eng tol inp (steps_of maxiter) initial_locals w1 = (Ok loc, w2) /\
       diagonalizations (trace w2)
       = (diagonalizations (trace w0) + Z.to_nat maxiter)%nat /\
       completed_iterations (trace w2)
       = (completed_iterations (trace w1) + Z.to_nat maxiter)%nat /\
       (vxc_grid = None ->
        w' = w2 /\ internal_fields inp loc = Ok fields /\ (1 <= maxiter)%Z)).
Proof.
  intros Hv Hde.
  assert (forall inp k loc w loc' w',
            iteration eng tol inp k loc w <> (Ok (Break loc'), w')) as Hnever
    by (intros; now apply iteration_never_breaks).
  split; [exact Hnever |].
  intros fields w' H. unfold mRKS in H.
  apply bind_ok in H. destruct H as [[inp reference] [w1 [Hsetup H]]].
  apply bind_ok in H. destruct H as [loc [w2 [Hloop H]]].
  exists inp, reference, w1, loc, w2.
  split; [exact Hsetup |]. split; [exact Hloop |].
  destruct (loop_without_break eng tol inp (steps_of maxiter) (Hnever inp)
              _ _ _ _ Hloop) as [Hd [Hc Hset]].
  assert (length (steps_of maxiter) = Z.to_nat maxiter) as Hlen
    by (unfold steps_of; apply length_seq).
  rewrite Hlen in Hd, Hc.
  destruct (setup_ok eng init w0 w1 inp reference Hsetup) as [_ [_ [_ [_ Hd0]]]].
  split; [now rewrite Hd, Hd0 |]. split; [exact Hc |].
  intros ->. apply lift_ok in H. destruct H as [Hf ->].
  split; [reflexivity |]. split; [exact Hf |].
  destruct (Z.leb_spec 1 maxiter) as [|Hlt]; [assumption |].
  rewrite steps_of_nonpositive in Hloop by lia.
  cbn in Hloop. injection Hloop as <- _. discriminate Hf.
Qed.

(** The example with a potential and a density tolerance of zero: its four
iterations all run. *)
Lemma nonpositive_tolerances_example :
  (0 <=? 0) = true /\
  ((0 <=? 0) = true \/ (1e-4 <=? 0) = true) /\
  exists fields w',
    mRKS Example.engine 4 None
         {| v_tol := 0; D_tol := 0; eig_tol := 1e-4; frac_old := 0 |}
         (InitMethod "svwn") Example.world = (Ok fields, w') /\
    diagonalizations (trace w')
    = (diagonalizations (trace Example.world) + Z.to_nat 4)%nat.
Proof.
  split; [reflexivity |]. split; [left; reflexivity |].
  destruct (mRKS Example.engine 4 None
              {| v_tol := 0; D_tol := 0; eig_tol := 1e-4; frac_old := 0 |}
              (InitMethod "svwn") Example.world) as [[fields|e] w'] eqn:Hm;
    [| vm_compute in Hm; discriminate Hm].
  exists fields, w'. split; [reflexivity |].
  destruct (proj2 (nonpositive_tolerances_run_every_iteration Example.engine 4
              {| v_tol := 0; D_tol := 0; eig_tol := 1e-4; frac_old := 0 |}
              (InitMethod "svwn") Example.world None eq_refl
              (or_introl eq_refl)) fields w' Hm)
    as [inp [reference [w1 [loc [w2 [_ [_ [Hd [_ Hnone]]]]]]]]].
  destruct (Hnone eq_refl) as [-> _]. exact Hd.
Defined.
End ToleranceFacts.

(** ** A [nan] in the average orbital energy *)

Module NanFacts.
Import NumPy Psi4 MRKS F64Order NumPyFacts LoopFacts.
Local Open Scope float_scope.

Lemma fold_maximum_nan (l : list float) (acc : float) :
  is_nan acc = true -> is_nan (fold_left F64.maximum l acc) = true.
Proof.
  revert acc. induction l as [|b l IH]; intros acc H; cbn; [exact H |].
  apply IH. now apply maximum_nan_l.
Qed.

Lemma fold_maximum_nan_in (l : list float) (acc : float) (i : nat) :
  (i < length l)%nat -> is_nan (nth i l 0) = true ->
  is_nan (fold_left F64.maximum l acc) = true.
Proof.
  revert acc i. induction l as [|b l IH]; intros acc i Hi H; cbn in *; [lia |].
  destruct i as [|i].
  - apply fold_maximum_nan. now apply maximum_nan_r.
  - apply (IH _ i); [lia | exact H].
Qed.

(** [np.max] of an array that holds a [nan] is [nan]. *)
Lemma max_nan (v : vector) (m : float) (i : nat) :
  NumPy.max v = Ok m -> (i < length v)%nat -> is_nan (at1 v i) = true ->
  is_nan m = true.
Proof.
  unfold NumPy.max, at1. destruct v as [|a v]; [discriminate |].
  injection 1 as <-. intros Hi H. destruct i as [|i]; cbn in *.
  - now apply fold_maximum_nan.
  - apply (fold_maximum_nan_in _ _ i); [lia | exact H].
Qed.

Lemma fold_add_nan (l : list float) (acc : float) :
  is_nan acc = true -> is_nan (fold_left add l acc) = true.
Proof.
  revert acc. induction l as [|b l IH]; intros acc H; cbn; [exact H |].
  apply IH. now apply add_nan_l.
Qed.

Lemma fsum_nan (l : list float) (i : nat) :
  (i < length l)%nat -> is_nan (nth i l 0) = true -> is_nan (fsum l) = true.
Proof.
  unfold fsum. generalize 0 at 2. revert i.
  induction l as [|b l IH]; intros i acc Hi H; cbn in *; [lia |].
  destruct i as [|i].
  - apply fold_add_nan. now apply add_nan_r.
  - apply (IH i); [lia | exact H].
Qed.

(** The 2-norm of an array that holds a [nan] is [nan]. *)
Lemma norm_nan (v : vector) (i : nat) :
  (i < length v)%nat -> is_nan (at1 v i) = true -> is_nan (norm v) = true.
Proof.
  intros Hi H. unfold norm. apply sqrt_nan.
  apply (fsum_nan _ i); [now rewrite length_map |].
  rewrite (nth_map_in _ _ _ 0 _) by exact Hi.
  unfold F64.square. now apply mul_nan_l.
Qed.

(** The average orbital energy enters the candidate potential twice: point
by point, and through its maximum in the shift.  When it is [nan] at a
single point (a point where the density vanishes makes it [0/0]), the shift
is [nan] and so is the candidate potential at every point of the grid. *)
Theorem nan_average_spoils_potential (self : Solver) (inp : LoopInputs)
  (ebarKS taup : vector) (s : float) (vxc : vector) (i : nat) :
  candidate self inp = Ok (ebarKS, taup, s, vxc) ->
  (i < length ebarKS)%nat -> is_nan (at1 ebarKS i) = true ->
  is_nan s = true /\
  forall j, (j < length vxc)%nat -> is_nan (at1 vxc j) = true.
Proof.
  intros Hc Hi Hnan. apply candidate_ok in Hc.
  destruct Hc as [_ [_ [Hs Ha]]].
  unfold loop_shift in Hs.
  destruct (NumPy.max ebarKS) as [m|] eqn:Hm; cbn [rbind] in Hs; [| discriminate].
  injection Hs as <-.
  assert (is_nan (in_emax inp - m) = true) as Hshift
    by (apply sub_nan_r; exact (max_nan ebarKS m i Hm Hi Hnan)).
  split; [exact Hshift |].
  intros j Hj. rewrite (assemble_at _ _ _ _ _ _ _ j Ha Hj). now apply add_nan_r.
Qed.

(** [mRKS] at its loop entry on a grid of two points, at the second of which
the basis function, and with it the density, vanishes. *)
Lemma nan_average_spoils_potential_example :
  let inp := {| in_vxchole := [0; nan]; in_ebarWF := [-0.5; nan];
                in_taup_rho_WF := [0; nan]; in_emax := nan |} in
  let entry := setup Example.half_dark_engine (InitMethod "svwn") Example.world in
  fst entry = Ok (inp, RHF_reference [-0.5]) /\
  candidate (self_ (snd entry)) inp = Ok ([-0.5; nan], [0; nan], nan, [nan; nan]) /\
  (1 < length [-0.5; nan]%float)%nat /\ is_nan (at1 [-0.5; nan] 1) = true /\
  is_nan nan = true /\
  forall j, (j < length [nan; nan])%nat -> is_nan (at1 [nan; nan] j) = true.
Proof.
  cbv zeta.
  assert (candidate
            (self_ (snd (setup Example.half_dark_engine (InitMethod "svwn")
                               Example.world)))
            {| in_vxchole := [0; nan]; in_ebarWF := [-0.5; nan];
               in_taup_rho_WF := [0; nan]; in_emax := nan |}
          = Ok ([-0.5; nan], [0; nan], nan, [nan; nan])) as Hc
    by (vm_compute; reflexivity).
  split; [vm_compute; reflexivity |].
  split; [exact Hc |]. split; [cbn; lia |]. split; [reflexivity |].
  exact (nan_average_spoils_potential _ _
           [-0.5; nan] [0; nan] nan [nan; nan] 1 Hc ltac:(cbn; lia) eq_refl).
Defined.

(** The difference with the previous potential keeps the [nan]. *)
Lemma vsub_old_nan (vxc : vector) (old : Old vector) (d : vector) (i : nat) :
  (i < length vxc)%nat -> is_nan (at1 vxc i) = true ->
  (forall a, old = Array a -> (i < length a)%nat) ->
  vsub_old vxc old = Ok d ->
  (i < length d)%nat /\ is_nan (at1 d i) = true.
Proof.
  intros Hi Hnan Hold. destruct old as [c|a]; cbn [vsub_old].
  - injection 1 as <-. rewrite length_map. split; [exact Hi |].
    unfold at1 in *. rewrite (nth_map_in _ _ _ 0 _) by exact Hi.
    now apply sub_nan_l.
  - specialize (Hold a eq_refl). unfold vsub. intros H.
    assert (i < length d)%nat as Hd
      by (apply broadcast2_shape in H; lia).
    split; [exact Hd |].
    rewrite <- (bat_at1 d i Hd).
    destruct (broadcast2_bat _ _ _ _ i H (or_introl Hd)) as [_ [_ ->]].
    rewrite (bat_at1 vxc i Hi). now apply sub_nan_l.
Qed.

(** A candidate potential that holds a [nan] has a potential error of
[nan], which is below no tolerance: the potential test of the loop is not
satisfied, whatever [v_tol] is.  (The error is computed whenever the
previous potential has the size of the candidate.) *)
Theorem nan_potential_fails_potential_test (tol : Tolerances) (self : Solver)
  (vxc : vector) (old : Old vector) (Derror eerror : float) (i : nat) :
  (i < length vxc)%nat -> is_nan (at1 vxc i) = true ->
  (forall a, old = Array a -> (i < length a)%nat) ->
  (forall verror,
     potential_error self vxc old = Ok verror ->
     is_nan verror = true /\
     (verror <? v_tol tol) = false /\
     verdict tol verror Derror eerror <> StopPotential) /\
  ((forall a, old = Array a -> length a = length vxc) ->
   exists verror, potential_error self vxc old = Ok verror).
Proof.
  intros Hi Hnan Hold. split.
  - intros verror. unfold potential_error.
    destruct (vsub_old vxc old) as [d|] eqn:Hd; cbn [rbind]; [| discriminate].
    injection 1 as <-.
    destruct (vsub_old_nan vxc old d i Hi Hnan Hold Hd) as [Hj Hdn].
    assert (is_nan (norm d / F64.of_nat (nbf self ^ 2)) = true) as H
      by (apply div_nan_l; now apply (norm_nan _ i)).
    split; [exact H |]. split; [exact (ltb_nan_l _ _ H) |].
    unfold verdict. rewrite (ltb_nan_l _ _ H).
    destruct (_ && _); discriminate.
  - intros Hsize. unfold potential_error.
    assert (exists d, vsub_old vxc old = Ok d) as [d ->]; [| cbn; eauto].
    destruct old as [c|a]; cbn [vsub_old]; [eauto |].
    apply broadcast2_returns. left. now rewrite (Hsize a eq_refl).
Qed.

Lemma nan_potential_fails_potential_test_example :
  (0 < length [nan])%nat /\ is_nan (at1 [nan] 0) = true /\
  (forall a : vector, Scalar 0 = Array a -> (0 < length a)%nat) /\
  exists verror,
    potential_error (self_ Example.entry_world) [nan] (Scalar 0) = Ok verror /\
    is_nan verror = true /\
    (verror <? infinity) = false /\
    verdict {| v_tol := infinity; D_tol := 1e-7; eig_tol := 1e-4; frac_old := 0 |}
            verror 1 1
    <> StopPotential.
Proof.
  assert (forall a : vector, Scalar 0 = Array a -> (0 < length a)%nat)
    as Hold by (intros a H; discriminate H).
  split; [cbn; lia |]. split; [reflexivity |]. split; [exact Hold |].
  destruct (nan_potential_fails_potential_test
              {| v_tol := infinity; D_tol := 1e-7; eig_tol := 1e-4; frac_old := 0 |}
              (self_ Example.entry_world) [nan] (Scalar 0) 1 1 0
              ltac:(cbn; lia) eq_refl Hold) as [Hnan Hret].
  destruct Hret as [verror Hv]; [intros a H; discriminate H |].
  exists verror. split; [exact Hv |]. exact (Hnan verror Hv).
Defined.
End NanFacts.

(** ** The steps of [setup] *)

Module SetupFacts.
Import NumPy Psi4 MRKS LoopFacts.
Local Open Scope float_scope.

(** [prepare_grid] never raises: it attaches the grid of the engine and
counts its points by the length of the blocks' [x] arrays. *)
Definition count_points (vpot : VBase) : nat :=
  fold_left (fun acc blk => (acc + length (x blk))%nat) (blocks vpot) 0%nat.

Definition grid_attached (eng : Engine) (w : World) : World :=
  {| self_ := set_grid (VBase_build eng) (count_points (VBase_build eng)) (self_ w);
     trace := trace w ++ [BuildGrid; SetPointers] |}.

Lemma prepare_grid_runs (eng : Engine) (w : World) :
  prepare_grid eng w = (Ok tt, grid_attached eng w).
Proof.
  unfold prepare_grid, grid_attached, bind, emit, modify_self. cbn.
  now rewrite <- app_assoc.
Qed.

Lemma fold_count (bs : list Block) (acc : nat) :
  fold_left (fun acc blk => (acc + length (x blk))%nat) bs acc
  = (acc + list_sum (map (fun b => length (x b)) bs))%nat.
Proof.
  revert acc. induction bs as [|b bs IH]; intros acc; [cbn; lia |].
  cbn [fold_left map]. rewrite IH. unfold list_sum. cbn [fold_right]. lia.
Qed.

Lemma count_points_sum (vpot : VBase) :
  count_points vpot = list_sum (map (fun b => length (x b)) (blocks vpot)).
Proof. unfold count_points. now rewrite fold_count. Qed.

(** A successful [setup], step by step. *)
Lemma setup_steps (eng : Engine) (init : InitArg) (w0 w : World)
  (inp : LoopInputs) (reference : Reference) :
  setup eng init w0 = (Ok (inp, reference), w) ->
  check_configuration (self_ w0) = Ok tt /\
  exists ebarWF taup_rho_WF w2 vxchole w3 emax,
    reference_quantities eng (grid_attached eng w0)
    = (Ok (ebarWF, taup_rho_WF, reference), w2) /\
    call_vxc_hole_quadrature None atol_default w2 = (Ok vxchole, w3) /\
    NumPy.max ebarWF = Ok emax /\
    initial_guess eng init w3 = (Ok tt, w) /\
    inp = {| in_vxchole := vxchole; in_ebarWF := ebarWF;
             in_taup_rho_WF := taup_rho_WF; in_emax := emax |}.
Proof.
  unfold setup. intros H.
  apply bind_ok in H. destruct H as [self [w1 [H1 H]]].
  injection H1 as <- <-.
  apply bind_ok in H. destruct H as [[] [w1 [H1 H]]].
  apply lift_ok in H1. destruct H1 as [Hcfg ->].
  split; [exact Hcfg |].
  apply bind_ok in H. destruct H as [[] [w2 [H2 H]]].
  rewrite prepare_grid_runs in H2. injection H2 as <-.
  apply bind_ok in H. destruct H as [[[ebarWF taup] rf] [w3 [H3 H]]].
  apply bind_ok in H. destruct H as [vxchole [w4 [H4 H]]].
  apply bind_ok in H. destruct H as [emax [w5 [H5 H]]].
  apply lift_ok in H5. destruct H5 as [Hmax ->].
  apply bind_ok in H. destruct H as [[] [w6 [H6 H]]].
  unfold ret in H. injection H as <- <- <-.
  exists ebarWF, taup, w3, vxchole, w4, emax. repeat split; assumption.
Qed.

(** The reference branch leaves the solver as it is. *)
Lemma reference_quantities_self (eng : Engine) (w w' : World)
  (r : result (vector * vector * Reference)) :
  reference_quantities eng w = (r, w') -> self_ w' = self_ w.
Proof.
  unfold reference_quantities, bind, get_self, lift, emit, raise, ret.
  cbn [fst snd].
  destruct (String.eqb (name (wfn (self_ w))) "CIWavefunction").
  - destruct (2 <? _); [cbn; now injection 1 as <- <- |].
    cbn -[_average_local_orbital_energy _pauli_kinetic_energy_density F_GFM].
    destruct (Matrix_diagonalize eng (F_GFM eng (self_ w)) Ascending) as [C1 e1].
    cbn -[_average_local_orbital_energy _pauli_kinetic_energy_density F_GFM].
    destruct (Matrix_diagonalize eng (opdm_active (wfn (self_ w))) Descending)
      as [C2 e2].
    cbn -[_average_local_orbital_energy _pauli_kinetic_energy_density F_GFM].
    destruct (_average_local_orbital_energy _ _ _ _ _) as [eb|];
      [| now injection 1 as <- <-].
    destruct (_pauli_kinetic_energy_density _ _ _ _ _) as [tp|];
      now injection 1 as <- <-.
  - destruct (String.eqb (name (wfn (self_ w))) "RHF");
      [| now injection 1 as <- <-].
    destruct (_average_local_orbital_energy _ _ _ _ _) as [eb|];
      [| now injection 1 as <- <-].
    destruct (_pauli_kinetic_energy_density _ _ _ _ _) as [tp|];
      now injection 1 as <- <-.
Qed.
End SetupFacts.

(** ** The cache of the hole potential *)

Module CacheFacts.
Import NumPy Psi4 MRKS LoopFacts SetupFacts.
Local Open Scope float_scope.

(** The hole potential is computed once per solver.  When a call on the
internal grid has returned, the solver holds the array it returned, and
every later call on the internal grid returns that array and leaves the
solver as it is, without a new quadrature, also when it is given another
tolerance [atol]. *)
Theorem hole_potential_computed_once (self self' : Solver) (atol atol' : float)
  (v : vector) :
  _vxc_hole_quadrature self None atol = (Ok v, self') ->
  vxc_hole_WF self' = Some v /\
  _vxc_hole_quadrature self' None atol' = (Ok v, self').
Proof.
  unfold _vxc_hole_quadrature.
  destruct (vxc_hole_WF self) as [cached|] eqn:Hc.
  - injection 1 as <- <-. rewrite Hc. split; reflexivity.
  - destruct (hole_quadrature self None atol) as [v'|e]; [| discriminate].
    injection 1 as <- <-. split; reflexivity.
Qed.

(** The two-point example; the second call is made with a tolerance that
would discard every pair of points. *)
Lemma hole_potential_computed_once_example :
  _vxc_hole_quadrature Example.gridded None atol_default
  = (Ok [-0.125; -0.5], set_vxc_hole_WF Example.gridded [-0.125; -0.5]) /\
  vxc_hole_WF (set_vxc_hole_WF Example.gridded [-0.125; -0.5])
  = Some [-0.125; -0.5] /\
  _vxc_hole_quadrature (set_vxc_hole_WF Example.gridded [-0.125; -0.5]) None 100
  = (Ok [-0.125; -0.5], set_vxc_hole_WF Example.gridded [-0.125; -0.5]).
Proof.
  assert (_vxc_hole_quadrature Example.gridded None atol_default
          = (Ok [-0.125; -0.5], set_vxc_hole_WF Example.gridded [-0.125; -0.5]))
    as H by (vm_compute; reflexivity).
  split; [exact H |].
  exact (hole_potential_computed_once _ _ atol_default 100 _ H).
Defined.

(** With an explicit grid the method is the quadrature on that grid. *)
Lemma explicit_grid_call (self : Solver) (g : GridInfo) (atol : float) :
  _vxc_hole_quadrature self (Some g) atol
  = (hole_quadrature self (Some g) atol, self).
Proof.
  unfold _vxc_hole_quadrature.
  destruct (vxc_hole_WF self); now destruct (hole_quadrature self (Some g) atol).
Qed.

(** A call with an explicit grid neither reads nor writes the cache: it runs
the quadrature on that grid, whether an array is cached or not, and leaves
the solver, cached array included, as it is. *)
Theorem hole_explicit_grid_bypasses_cache (self : Solver) (g : GridInfo)
  (atol : float) (cached : vector) :
  _vxc_hole_quadrature self (Some g) atol
  = (hole_quadrature self (Some g) atol, self) /\
  _vxc_hole_quadrature (set_vxc_hole_WF self cached) (Some g) atol
  = (hole_quadrature self (Some g) atol, set_vxc_hole_WF self cached).
Proof.
  split.
  - apply explicit_grid_call.
  - unfold _vxc_hole_quadrature. cbn [vxc_hole_WF set_vxc_hole_WF].
    change (hole_quadrature (set_vxc_hole_WF self cached) (Some g) atol)
      with (hole_quadrature self (Some g) atol).
    now destruct (hole_quadrature self (Some g) atol).
Qed.

Lemma initial_guess_cache (eng : Engine) (init : InitArg) (w w' : World)
  (r : result unit) :
  initial_guess eng init w = (r, w') ->
  vxc_hole_WF (self_ w') = vxc_hole_WF (self_ w).
Proof.
  unfold initial_guess, bind, get_self, modify_self, emit, ret. cbn [fst snd].
  destruct init as [m|wf].
  - destruct (String.eqb (lower m) "continue").
    + now injection 1 as <- <-.
    + cbn. now injection 1 as <- <-.
  - now injection 1 as <- <-.
Qed.

(** The hole potential [mRKS] works with is the one the solver caches.  A
solver that holds an array from an earlier call keeps using it: [mRKS]
builds its grid anew but runs no new hole quadrature.  Otherwise the hole
potential is the quadrature on the grid just built, and the solver holds it
from then on. *)
Theorem setup_hole_potential (eng : Engine) (init : InitArg) (w0 w : World)
  (inp : LoopInputs) (reference : Reference) :
  setup eng init w0 = (Ok (inp, reference), w) ->
  vxc_hole_WF (self_ w) = Some (in_vxchole inp) /\
  match vxc_hole_WF (self_ w0) with
  | Some cached => in_vxchole inp = cached
  | None =>
      hole_quadrature (self_ (grid_attached eng w0)) None atol_default
      = Ok (in_vxchole inp)
  end.
Proof.
  intros H. apply setup_steps in H.
  destruct H as [_ [ebarWF [taup [w2 [vxchole [w3 [emax
                   [Href [Hhole [_ [Hguess ->]]]]]]]]]]].
  cbn [in_vxchole].
  apply reference_quantities_self in Href.
  apply initial_guess_cache in Hguess. rewrite Hguess.
  unfold call_vxc_hole_quadrature in Hhole. rewrite Href in Hhole.
  unfold _vxc_hole_quadrature in Hhole.
  cbn [grid_attached self_ set_grid vxc_hole_WF] in Hhole |- *.
  destruct (vxc_hole_WF (self_ w0)) as [cached|] eqn:Hc.
  - injection Hhole as <- <-. cbn [self_ set_grid vxc_hole_WF].
    split; [exact Hc | reflexivity].
  - match type of Hhole with
    | context [hole_quadrature ?s None ?a] =>
        destruct (hole_quadrature s None a) as [v|e] eqn:Hq
    end; [| discriminate Hhole].
    injection Hhole as <- <-. cbn [self_]. split; reflexivity.
Qed.

(** A second call of [mRKS] on the solver of the example, after its grid of
two points has been replaced by a grid of one point: the hole potential is
still the one of the two points. *)
Definition second_call : result (LoopInputs * Reference) * World :=
  setup Example.single_point_engine (InitMethod "continue") Example.entry_world.

Definition second_inputs : LoopInputs :=
  match fst second_call with
  | Ok (inp, _) => inp
  | Raise _ => Example.entry_inputs
  end.

Lemma setup_hole_potential_example :
  setup Example.single_point_engine (InitMethod "continue") Example.entry_world
  = (Ok (second_inputs, RHF_reference [-0.5]), snd second_call) /\
  vxc_hole_WF (self_ Example.entry_world) = Some [-0.125; -0.5] /\
  length (in_ebarWF second_inputs) = 1%nat /\
  vxc_hole_WF (self_ (snd second_call)) = Some (in_vxchole second_inputs) /\
  match vxc_hole_WF (self_ Example.entry_world) with
  | Some cached => in_vxchole second_inputs = cached
  | None =>
      hole_quadrature
        (self_ (grid_attached Example.single_point_engine Example.entry_world))
        None atol_default
      = Ok (in_vxchole second_inputs)
  end.
Proof.
  assert (setup Example.single_point_engine (InitMethod "continue")
            Example.entry_world
          = (Ok (second_inputs, RHF_reference [-0.5]), snd second_call)) as H
    by (vm_compute; reflexivity).
  split; [exact H |]. split; [vm_compute; reflexivity |].
  split; [vm_compute; reflexivity |].
  exact (setup_hole_potential _ _ _ _ _ _ H).
Defined.
(** The hole potential of a solver that holds one from an earlier call. *)
Lemma setup_uses_cache (eng : Engine) (init : InitArg) (w0 w : World)
  (inp : LoopInputs) (reference : Reference) (cached : vector) :
  setup eng init w0 = (Ok (inp, reference), w) ->
  vxc_hole_WF (self_ w0) = Some cached ->
  in_vxchole inp = cached.
Proof.
  intros H Hc. apply setup_steps in H.
  destruct H as [_ [ebarWF [taup [w2 [vxchole [w3 [emax
                   [Href [Hhole [_ [_ ->]]]]]]]]]]].
  cbn [in_vxchole].
  apply reference_quantities_self in Href.
  unfold call_vxc_hole_quadrature in Hhole. rewrite Href in Hhole.
  unfold _vxc_hole_quadrature in Hhole.
  cbn [grid_attached self_ set_grid vxc_hole_WF] in Hhole.
  rewrite Hc in Hhole. now injection Hhole as <- _.
Qed.

(** A hole potential cached by an earlier call is used as it is, also when
[mRKS] has since built a grid of another size.  Unless one of the two sizes
is one, the sum of line 502 then raises [ValueError] in the first iteration,
after the shift has been stored and before anything is asked of the engine;
so does [mRKS], for every [maxiter >= 1], with or without an output grid. *)
Theorem stale_cache_stops_first_iteration (eng : Engine) (maxiter : Z)
  (tol : Tolerances) (init : InitArg) (w0 w : World) (inp : LoopInputs)
  (reference : Reference) (cached ebarKS taup : vector) (s : float) :
  setup eng init w0 = (Ok (inp, reference), w) ->
  vxc_hole_WF (self_ w0) = Some cached ->
  current_fields (self_ w) inp = Ok (ebarKS, taup, s) ->
  length cached <> npoints_DFT (self_ w) ->
  length cached <> 1%nat -> npoints_DFT (self_ w) <> 1%nat ->
  let stopped_world := {| self_ := set_shift s (self_ w); trace := trace w |} in
  (forall k loc,
     iteration eng tol inp k loc w
     = (Raise (ValueError broadcast_message), stopped_world)) /\
  ((1 <= maxiter)%Z ->
   forall vxc_grid,
     mRKS eng maxiter vxc_grid tol init w0
     = (Raise (ValueError broadcast_message), stopped_world)).
Proof.
  intros Hsetup Hc Hf Hl H1 Hn1 stopped_world.
  pose proof (setup_uses_cache _ _ _ _ _ _ _ Hsetup Hc) as Hh.
  pose proof (current_fields_ok _ _ _ _ _ Hf) as [He _].
  apply PassFacts.average_internal_length in He.
  assert (assemble (in_vxchole inp) ebarKS (in_ebarWF inp) (in_taup_rho_WF inp)
                   taup s = Raise (ValueError broadcast_message)) as Ha.
  { unfold assemble, vadd. rewrite Hh.
    destruct (broadcast2 add cached ebarKS) as [r|e] eqn:Hb.
    - apply NumPyFacts.broadcast2_shape in Hb. lia.
    - apply NumPyFacts.broadcast2_raises in Hb.
      destruct Hb as [_ [_ [_ ->]]]. reflexivity. }
  assert (forall k loc,
            iteration eng tol inp k loc w
            = (Raise (ValueError broadcast_message), stopped_world)) as Hi.
  { intros k loc.
    unfold iteration, bind, get_self, lift, modify_self, emit, ret.
    rewrite Hf.
    cbn -[potential_error eigenvalue_error density_error mixed assemble
          current_fields].
    now rewrite Ha. }
  split; [exact Hi |].
  intros Hmax vxc_grid. unfold mRKS. unfold bind at 1. rewrite Hsetup.
  unfold steps_of.
  destruct (Z.to_nat maxiter) as [|m] eqn:Hm; [lia |].
  cbn [seq loop]. unfold bind. now rewrite Hi.
Qed.

(** The solver of the example holding three cached values, on the grid of
two points. *)
Definition stale_world : World :=
  {| self_ := set_vxc_hole_WF Example.solver [1; 2; 3]; trace := [] |}.

Definition stale_entry : result (LoopInputs * Reference) * World :=
  setup Example.engine (InitMethod "svwn") stale_world.

Definition stale_inputs : LoopInputs :=
  {| in_vxchole := [1; 2; 3]; in_ebarWF := [-0.5; -0.5];
     in_taup_rho_WF := [0; 0]; in_emax := -0.5 |}.

Lemma stale_cache_stops_first_iteration_example :
  setup Example.engine (InitMethod "svwn") stale_world
  = (Ok (stale_inputs, RHF_reference [-0.5]), snd stale_entry) /\
  vxc_hole_WF (self_ stale_world) = Some [1; 2; 3] /\
  current_fields (self_ (snd stale_entry)) stale_inputs
  = Ok ([-0.5; -0.5], [0; 0], 0) /\
  npoints_DFT (self_ (snd stale_entry)) = 2%nat /\
  (1 <= 3)%Z /\
  fst (mRKS Example.engine 3 None default_tolerances (InitMethod "svwn")
            stale_world)
  = Raise (ValueError broadcast_message).
Proof.
  assert (setup Example.engine (InitMethod "svwn") stale_world
          = (Ok (stale_inputs, RHF_reference [-0.5]), snd stale_entry)) as Hs
    by (vm_compute; reflexivity).
  assert (current_fields (self_ (snd stale_entry)) stale_inputs
          = Ok ([-0.5; -0.5], [0; 0], 0)) as Hf by (vm_compute; reflexivity).
  split; [exact Hs |]. split; [reflexivity |]. split; [exact Hf |].
  split; [reflexivity |]. split; [lia |].
  destruct (stale_cache_stops_first_iteration Example.engine 3
              default_tolerances (InitMethod "svwn") stale_world
              (snd stale_entry) stale_inputs (RHF_reference [-0.5])
              [1; 2; 3] [-0.5; -0.5] [0; 0] 0 Hs eq_refl Hf)
    as [_ Hm]; try (vm_compute; lia).
  now rewrite (Hm ltac:(lia) None).
Defined.
End CacheFacts.

(** ** [_diagonalize_with_potential_mRKS] *)

Module DiagonalizeFacts.
Import NumPy Psi4 MRKS.
Local Open Scope float_scope.

(** The Fock matrix the method hands to the engine. *)
Definition fock_a (self : Solver) (v : option matrix) : matrix :=
  match v with
  | None => madd (madd (V self) (T self)) (va self)
  | Some v => madd (madd (madd (V self) (T self)) (va self)) v
  end.

(** What the method leaves untouched. *)
Definition same_problem (s s' : Solver) : Prop :=
  wfn s' = wfn s /\ ref s' = ref s /\
  guide_potential_components s' = guide_potential_components s /\
  nalpha s' = nalpha s /\ nbf s' = nbf s /\ basis_str s' = basis_str s /\
  T s' = T s /\ V s' = V s /\ va s' = va s /\ nt0 s' = nt0 s /\ ct0 s' = ct0 s /\
  Vpot s' = Vpot s /\ npoints_DFT s' = npoints_DFT s /\
  vxc_hole_WF s' = vxc_hole_WF s /\ shift s' = shift s.

(** For a spin-restricted solver the method requests one diagonalisation, of
[V + T + va] plus the potential it was given, stores the orbitals, the
occupied orbitals, the density and the eigenvalues the engine returns, and
copies the alpha quantities to the beta ones.  Nothing else changes. *)
Theorem diagonalize_restricted (eng : Engine) (v : option matrix) (w : World) :
  ref (self_ w) = 1%Z ->
  exists w',
    _diagonalize_with_potential_mRKS eng v w = (Ok tt, w') /\
    (Ca (self_ w'), Coca (self_ w'), Da (self_ w'), eigvecs_a (self_ w'))
    = diagonalize eng (fock_a (self_ w) v) (nalpha (self_ w)) /\
    Cb (self_ w') = Ca (self_ w') /\ Db (self_ w') = Da (self_ w') /\
    eigvecs_b (self_ w') = eigvecs_a (self_ w') /\
    trace w' = trace w ++ [Diagonalize] /\
    same_problem (self_ w) (self_ w').
Proof.
  intros Href.
  unfold _diagonalize_with_potential_mRKS, bind, get_self, emit, modify_self.
  cbn [fst snd self_ trace].
  change (match v with
          | Some v0 => madd (madd (madd (V (self_ w)) (T (self_ w))) (va (self_ w))) v0
          | None => madd (madd (V (self_ w)) (T (self_ w))) (va (self_ w))
          end) with (fock_a (self_ w) v).
  destruct (diagonalize eng (fock_a (self_ w) v) (nalpha (self_ w)))
    as [[[C Cocc] D] eps].
  cbn [self_ trace]. rewrite Href. cbn [Z.eqb Pos.eqb].
  eexists. split; [reflexivity |]. cbn. repeat split.
Qed.

Lemma diagonalize_restricted_example :
  ref (self_ Example.entry_world) = 1%Z /\
  exists w',
    _diagonalize_with_potential_mRKS Example.engine (Some [[0.5]])
      Example.entry_world = (Ok tt, w') /\
    (Ca (self_ w'), Coca (self_ w'), Da (self_ w'), eigvecs_a (self_ w'))
    = diagonalize Example.engine
        (fock_a (self_ Example.entry_world) (Some [[0.5]]))
        (nalpha (self_ Example.entry_world)) /\
    Cb (self_ w') = Ca (self_ w') /\ Db (self_ w') = Da (self_ w') /\
    eigvecs_b (self_ w') = eigvecs_a (self_ w') /\
    trace w' = trace Example.entry_world ++ [Diagonalize] /\
    same_problem (self_ Example.entry_world) (self_ w').
Proof.
  split; [reflexivity |].
  exact (diagonalize_restricted Example.engine (Some [[0.5]])
           Example.entry_world eq_refl).
Defined.

(** The spin restriction is checked after the diagonalisation.  For a solver
that is not spin-restricted the method raises a [ValueError], but only once
the engine has been asked to diagonalise and the alpha orbitals, density and
eigenvalues have been replaced by its answer; the beta quantities are left
as they were. *)
Theorem diagonalize_unrestricted (eng : Engine) (v : option matrix) (w : World) :
  ref (self_ w) <> 1%Z ->
  exists w',
    _diagonalize_with_potential_mRKS eng v w
    = (Raise (ValueError "Currently only spin-restricted in implemented."), w') /\
    (Ca (self_ w'), Coca (self_ w'), Da (self_ w'), eigvecs_a (self_ w'))
    = diagonalize eng (fock_a (self_ w) v) (nalpha (self_ w)) /\
    Cb (self_ w') = Cb (self_ w) /\ Db (self_ w') = Db (self_ w) /\
    eigvecs_b (self_ w') = eigvecs_b (self_ w) /\
    trace w' = trace w ++ [Diagonalize] /\
    same_problem (self_ w) (self_ w').
Proof.
  intros Href.
  unfold _diagonalize_with_potential_mRKS, bind, get_self, emit, modify_self,
    raise.
  cbn [fst snd self_ trace].
  change (match v with
          | Some v0 => madd (madd (madd (V (self_ w)) (T (self_ w))) (va (self_ w))) v0
          | None => madd (madd (V (self_ w)) (T (self_ w))) (va (self_ w))
          end) with (fock_a (self_ w) v).
  destruct (diagonalize eng (fock_a (self_ w) v) (nalpha (self_ w)))
    as [[[C Cocc] D] eps].
  cbn [self_ trace].
  destruct (Z.eqb_spec (ref (self_ w)) 1) as [E|_]; [contradiction |].
  eexists. split; [reflexivity |]. cbn. repeat split.
Qed.

Lemma diagonalize_unrestricted_example :
  let w := {| self_ := Example.with_configuration "RHF" 2 ["hartree"%string];
              trace := [] |} in
  ref (self_ w) <> 1%Z /\
  exists w',
    _diagonalize_with_potential_mRKS Example.engine None w
    = (Raise (ValueError "Currently only spin-restricted in implemented."), w') /\
    (Ca (self_ w'), Coca (self_ w'), Da (self_ w'), eigvecs_a (self_ w'))
    = diagonalize Example.engine (fock_a (self_ w) None) (nalpha (self_ w)) /\
    Cb (self_ w') = Cb (self_ w) /\ Db (self_ w') = Db (self_ w) /\
    eigvecs_b (self_ w') = eigvecs_b (self_ w) /\
    trace w' = trace w ++ [Diagonalize] /\
    same_problem (self_ w) (self_ w').
Proof.
  cbv zeta.
  assert (ref (self_ {| self_ := Example.with_configuration "RHF" 2 ["hartree"%string];
                        trace := [] |}) <> 1%Z) as H by (cbn; lia).
  split; [exact H |].
  exact (diagonalize_unrestricted Example.engine None _ H).
Defined.
End DiagonalizeFacts.

(** ** The requests before the loop and the initial guess *)

Module GuessFacts.
Import NumPy Psi4 MRKS LoopFacts SetupFacts.
Local Open Scope float_scope.

(** What the reference branch asks of the engine and prints: nothing for a
Hartree-Fock input; for a correlated input the line of the memory check,
the two-electron integrals and the two matrix diagonalisations. *)
Definition reference_events (self : Solver) : list event :=
  if String.eqb (name (wfn self)) "CIWavefunction"
  then [PrintMemory (F64.of_nat (nbf self ^ 4) * 8e-9 * 2 * 1.5);
        AoEri; MatrixDiagonalize Ascending; MatrixDiagonalize Descending]
  else [].

(** What the initial guess asks of the engine: one energy calculation with
the method [init/basis] when [init] is a method name other than
[continue], nothing otherwise. *)
Definition guess_events (self : Solver) (init : InitArg) : list event :=
  match init with
  | InitWavefunction _ => []
  | InitMethod m =>
      if String.eqb (lower m) "continue" then []
      else [Energy (m ++ "/" ++ basis_str self)%string]
  end.

(** The Kohn-Sham state the loop starts from. *)
Definition guess_state (eng : Engine) (self : Solver) (init : InitArg)
  : matrix * matrix * vector :=
  match init with
  | InitWavefunction wf =>
      (wDa wf, first_cols (wCa wf) (nalpha self), epsilon_a wf)
  | InitMethod m =>
      if String.eqb (lower m) "continue"
      then (Da self, Coca self, eigvecs_a self)
      else
        let wf := energy eng (m ++ "/" ++ basis_str self)%string in
        (wDa wf, first_cols (wCa wf) (nalpha self), epsilon_a wf)
  end.

Lemma reference_quantities_trace (eng : Engine) (w w' : World)
  (r : vector * vector * Reference) :
  reference_quantities eng w = (Ok r, w') ->
  trace w' = trace w ++ reference_events (self_ w).
Proof.
  unfold reference_quantities, reference_events, bind, get_self, lift, emit,
    raise, ret.
  cbn [fst snd].
  destruct (String.eqb (name (wfn (self_ w))) "CIWavefunction").
  - destruct (2 <? _)%float; [cbn; discriminate |].
    cbn -[_average_local_orbital_energy _pauli_kinetic_energy_density F_GFM].
    destruct (Matrix_diagonalize eng (F_GFM eng (self_ w)) Ascending) as [C1 e1].
    cbn -[_average_local_orbital_energy _pauli_kinetic_energy_density F_GFM].
    destruct (Matrix_diagonalize eng (opdm_active (wfn (self_ w))) Descending)
      as [C2 e2].
    cbn -[_average_local_orbital_energy _pauli_kinetic_energy_density F_GFM].
    destruct (_average_local_orbital_energy _ _ _ _ _) as [eb|];
      [| discriminate].
    destruct (_pauli_kinetic_energy_density _ _ _ _ _) as [tp|];
      [| discriminate].
    injection 1 as _ <-. cbn [trace]. now rewrite <- !app_assoc.
  - destruct (String.eqb (name (wfn (self_ w))) "RHF"); [| discriminate].
    destruct (_average_local_orbital_energy _ _ _ _ _) as [eb|];
      [| discriminate].
    destruct (_pauli_kinetic_energy_density _ _ _ _ _) as [tp|];
      [| discriminate].
    injection 1 as _ <-. now rewrite app_nil_r.
Qed.

(** The hole quadrature changes nothing of the solver but its cache. *)
Lemma call_vxc_hole_quadrature_state (grid_info : option GridInfo) (atol : float)
  (w w' : World) (r : result vector) :
  call_vxc_hole_quadrature grid_info atol w = (r, w') ->
  Da (self_ w') = Da (self_ w) /\ Coca (self_ w') = Coca (self_ w) /\
  eigvecs_a (self_ w') = eigvecs_a (self_ w) /\
  nalpha (self_ w') = nalpha (self_ w) /\
  basis_str (self_ w') = basis_str (self_ w) /\
  trace w' = trace w.
Proof.
  unfold call_vxc_hole_quadrature, _vxc_hole_quadrature.
  destruct (vxc_hole_WF (self_ w)) as [cached|], grid_info as [g|];
    try destruct (hole_quadrature (self_ w) _ atol);
    injection 1 as <- <-; cbn; repeat split.
Qed.

Lemma initial_guess_runs (eng : Engine) (init : InitArg) (w : World) :
  exists w',
    initial_guess eng init w = (Ok tt, w') /\
    (Da (self_ w'), Coca (self_ w'), eigvecs_a (self_ w'))
    = guess_state eng (self_ w) init /\
    trace w' = trace w ++ guess_events (self_ w) init.
Proof.
  unfold initial_guess, guess_state, guess_events, bind, get_self, modify_self,
    emit, ret.
  cbn [fst snd]. destruct init as [m|wf].
  - destruct (String.eqb (lower m) "continue").
    + eexists. split; [reflexivity |]. split; [reflexivity |].
      now rewrite app_nil_r.
    + eexists. split; [reflexivity |]. split; reflexivity.
  - eexists. split; [reflexivity |]. split; [reflexivity |].
    cbn. now rewrite app_nil_r.
Qed.

(** The requests of a successful [setup], in their order. *)
Lemma setup_trace (eng : Engine) (init : InitArg) (w0 w : World)
  (inp : LoopInputs) (reference : Reference) :
  setup eng init w0 = (Ok (inp, reference), w) ->
  trace w = trace w0 ++ [BuildGrid; SetPointers] ++ reference_events (self_ w0)
                     ++ guess_events (self_ w0) init.
Proof.
  intros H. apply setup_steps in H.
  destruct H as [_ [ebarWF [taup [w2 [vxchole [w3 [emax
                   [Href [Hhole [_ [Hguess _]]]]]]]]]]].
  pose proof (reference_quantities_self _ _ _ _ Href) as Hself.
  apply reference_quantities_trace in Href.
  apply call_vxc_hole_quadrature_state in Hhole.
  destruct Hhole as [_ [_ [_ [_ [Hb Ht]]]]].
  destruct (initial_guess_runs eng init w3) as [w' [Hrun [_ Htrace]]].
  rewrite Hrun in Hguess. injection Hguess as <-.
  assert (guess_events (self_ w3) init = guess_events (self_ w0) init) as Hge.
  { unfold guess_events. rewrite Hb, Hself. reflexivity. }
  rewrite Htrace, Ht, Href, Hge. cbn [grid_attached trace self_].
  unfold reference_events. cbn [set_grid wfn nbf].
  now rewrite <- !app_assoc.
Qed.

(** Before the loop [mRKS] builds its grid, evaluates the reference (with
the two-electron integrals and two matrix diagonalisations for a correlated
input only) and makes its initial guess, in this order and with no other
request.  The loop starts from the density, the first [nalpha] orbitals and
all the orbital energies of the wavefunction given as [init], or of the
energy calculation [init/basis]; when [init] is [continue] in any
capitalisation, from what the solver holds, with no calculation at all. *)
Theorem setup_requests_and_guess (eng : Engine) (init : InitArg) (w0 w : World)
  (inp : LoopInputs) (reference : Reference) :
  setup eng init w0 = (Ok (inp, reference), w) ->
  trace w = trace w0 ++ [BuildGrid; SetPointers] ++ reference_events (self_ w0)
                     ++ guess_events (self_ w0) init /\
  (Da (self_ w), Coca (self_ w), eigvecs_a (self_ w))
  = guess_state eng (self_ w0) init.
Proof.
  intros H. split; [exact (setup_trace _ _ _ _ _ _ H) |].
  apply setup_steps in H.
  destruct H as [_ [ebarWF [taup [w2 [vxchole [w3 [emax
                   [Href [Hhole [_ [Hguess _]]]]]]]]]]].
  pose proof (reference_quantities_self _ _ _ _ Href) as Hself.
  apply call_vxc_hole_quadrature_state in Hhole.
  destruct Hhole as [HD [HC [He [Hn [Hb Ht]]]]].
  destruct (initial_guess_runs eng init w3) as [w' [Hrun [Hstate _]]].
  rewrite Hrun in Hguess. injection Hguess as <-.
  rewrite Hstate. unfold guess_state. rewrite HD, HC, He, Hn, Hb, Hself.
  reflexivity.
Qed.

(** The example, resumed with [init = "Continue"] from the state its first
setup left: neither an energy calculation nor a change of the state. *)
Lemma setup_requests_and_guess_example :
  setup Example.engine (InitMethod "Continue") Example.entry_world
  = (Ok (Example.entry_inputs, RHF_reference [-0.5]%float),
     {| self_ := self_ Example.entry_world;
        trace := trace Example.entry_world ++ [BuildGrid; SetPointers] |}) /\
  trace Example.entry_world ++ [BuildGrid; SetPointers]
  = trace Example.entry_world ++ [BuildGrid; SetPointers]
      ++ reference_events (self_ Example.entry_world)
      ++ guess_events (self_ Example.entry_world) (InitMethod "Continue") /\
  (Da (self_ Example.entry_world), Coca (self_ Example.entry_world),
   eigvecs_a (self_ Example.entry_world))
  = guess_state Example.engine (self_ Example.entry_world) (InitMethod "Continue").
Proof.
  assert (setup Example.engine (InitMethod "Continue") Example.entry_world
          = (Ok (Example.entry_inputs, RHF_reference [-0.5]%float),
             {| self_ := self_ Example.entry_world;
                trace := trace Example.entry_world ++ [BuildGrid; SetPointers] |}))
    as H by (vm_compute; reflexivity).
  split; [exact H |].
  exact (setup_requests_and_guess _ _ _ _ _ _ H).
Defined.
End GuessFacts.

(** ** The fields on the output grid *)

Module OutputFacts.
Import NumPy Psi4 MRKS NumPyFacts PassFacts LoopFacts.
Local Open Scope float_scope.

(** A pass that returns on a described grid returns as many values as the
description declares points. *)
Lemma average_length (self : Solver) (D C : matrix) (eig : vector)
  (bs : list Block) (n : nat) (pf : PointsFunc) (v : vector) :
  _average_local_orbital_energy self D C eig (Some (bs, n, pf)) = Ok v ->
  length v = n.
Proof.
  unfold _average_local_orbital_energy. cbn [select_grid rbind]. intros H.
  apply asserted_count in H. destruct H as [iw [H _]].
  apply block_loop_counter in H. destruct H as [_ ->].
  unfold zeros. apply repeat_length.
Qed.

Lemma pauli_length (self : Solver) (D C : matrix) (occ : option vector)
  (bs : list Block) (n : nat) (pf : PointsFunc) (v : vector) :
  _pauli_kinetic_energy_density self D C occ (Some (bs, n, pf)) = Ok v ->
  length v = n.
Proof.
  unfold _pauli_kinetic_energy_density. cbn [select_grid rbind]. intros H.
  apply asserted_count in H. destruct H as [iw [H _]].
  apply block_loop_counter in H. destruct H as [_ ->].
  unfold zeros. apply repeat_length.
Qed.

Lemma hole_length (self : Solver) (atol : float)
  (bs : list Block) (n : nat) (pf : PointsFunc) (v : vector) :
  hole_quadrature self (Some (bs, n, pf)) atol = Ok v -> length v = n.
Proof.
  unfold hole_quadrature. cbn [select_grid rbind]. intros H.
  apply asserted_count in H. destruct H as [iw [H _]].
  apply hole_block_loop_counter in H. destruct H as [_ ->].
  unfold zeros. apply repeat_length.
Qed.

(** The reference fields on a described grid. *)
Definition reference_on (self : Solver) (reference : Reference) (g : GridInfo)
  : result vector * result vector :=
  match reference with
  | CI_reference C_a_GFM eigs_a_GFM C_a_NO eigs_a_NO =>
      (_average_local_orbital_energy self (nt0 self) C_a_GFM eigs_a_GFM (Some g),
       _pauli_kinetic_energy_density self (nt0 self) C_a_NO (Some eigs_a_NO) (Some g))
  | RHF_reference epsilon_a =>
      (_average_local_orbital_energy self (nt0 self) (ct0 self)
         (firstn (nalpha self) epsilon_a) (Some g),
       _pauli_kinetic_energy_density self (nt0 self) (ct0 self) None (Some g))
  end.

(** A successful re-evaluation, step by step. *)
Lemma output_fields_steps (eng : Engine) (reference : Reference) (g : matrix)
  (w w' : World) (vxc vxchole ebarKS ebarWF taup_rho_WF taup_rho_KS : vector) :
  output_fields eng reference g w
  = (Ok (vxc, vxchole, ebarKS, ebarWF, taup_rho_WF, taup_rho_KS), w') ->
  let self := self_ w in
  let grid_info := grid_to_blocks eng g in
  hole_quadrature self (Some grid_info) atol_default = Ok vxchole /\
  reference_on self reference grid_info = (Ok ebarWF, Ok taup_rho_WF) /\
  _average_local_orbital_energy self (Da self) (Coca self)
    (firstn (nalpha self) (eigvecs_a self)) (Some grid_info) = Ok ebarKS /\
  _pauli_kinetic_energy_density self (Da self) (Coca self) None (Some grid_info)
  = Ok taup_rho_KS /\
  exists potential_shift,
    output_shift ebarWF ebarKS = Ok potential_shift /\
    assemble vxchole ebarKS ebarWF taup_rho_WF taup_rho_KS potential_shift
    = Ok vxc /\
    w' = {| self_ := set_shift potential_shift self;
            trace := trace w ++ [GridToBlocks; SetPointers] |}.
Proof.
  cbv zeta. unfold output_fields. intros H.
  apply bind_ok in H. destruct H as [[] [w1 [H1 H]]].
  unfold emit in H1. injection H1 as <-.
  apply bind_ok in H. destruct H as [[] [w2 [H2 H]]].
  unfold emit in H2. injection H2 as <-. cbn [self_ trace] in H.
  apply bind_ok in H. destruct H as [h [w3 [H3 H]]].
  unfold call_vxc_hole_quadrature in H3. cbn [self_ trace] in H3.
  rewrite CacheFacts.explicit_grid_call in H3.
  injection H3 as Hh <-.
  apply bind_ok in H. destruct H as [self [w4 [H4 H]]].
  unfold get_self in H4. cbn [self_] in H4. injection H4 as <- <-.
  apply bind_ok in H. destruct H as [[eW tW] [w5 [H5 H]]].
  assert (reference_on (self_ w) reference (grid_to_blocks eng g) = (Ok eW, Ok tW)
          /\ w5 = {| self_ := self_ w;
                     trace := (trace w ++ [GridToBlocks]) ++ [SetPointers] |})
    as [Href ->].
  { unfold reference_on. destruct reference as [C1 e1 C2 e2|eps];
      apply bind_ok in H5; destruct H5 as [a [w6 [H6 H5]]];
      apply lift_ok in H6; destruct H6 as [-> ->];
      apply bind_ok in H5; destruct H5 as [b [w7 [H7 H5]]];
      apply lift_ok in H7; destruct H7 as [-> ->];
      unfold ret in H5; injection H5 as <- <- <-; split; reflexivity. }
  apply bind_ok in H. destruct H as [eK [w6 [H6 H]]].
  apply lift_ok in H6. destruct H6 as [HeK ->].
  apply bind_ok in H. destruct H as [tK [w7 [H7 H]]].
  apply lift_ok in H7. destruct H7 as [HtK ->].
  apply bind_ok in H. destruct H as [s [w8 [H8 H]]].
  apply lift_ok in H8. destruct H8 as [Hs ->].
  apply bind_ok in H. destruct H as [[] [w9 [H9 H]]].
  unfold modify_self in H9. injection H9 as <-.
  apply bind_ok in H. destruct H as [v [w10 [H10 H]]].
  apply lift_ok in H10. destruct H10 as [Hv ->].
  unfold ret in H. injection H as <- <- <- <- <- <- <-.
  cbn [self_ trace].
  repeat split; try assumption.
  exists s. repeat split; try assumption. now rewrite <- app_assoc.
Qed.

(** The six arrays [mRKS] returns for an output grid all have the number of
points the description of the grid declares, which is at least one (the
maximum of an empty array raises).  The returned potential is, point by
point, [vxchole + ebarKS - ebarWF + taup_rho_WF - taup_rho_KS] plus the
shift, and the shift, the maximum of [ebarWF] minus the maximum of [ebarKS]
over the output grid, is the one left in [self.shift]. *)
Theorem output_fields_consistent (eng : Engine) (reference : Reference)
  (g : matrix) (w w' : World) (bs : list Block) (n : nat) (pf : PointsFunc)
  (vxc vxchole ebarKS ebarWF taup_rho_WF taup_rho_KS : vector) :
  grid_to_blocks eng g = (bs, n, pf) ->
  output_fields eng reference g w
  = (Ok (vxc, vxchole, ebarKS, ebarWF, taup_rho_WF, taup_rho_KS), w') ->
  (0 < n)%nat /\
  (length vxc = n /\ length vxchole = n /\ length ebarKS = n /\
   length ebarWF = n /\ length taup_rho_WF = n /\ length taup_rho_KS = n) /\
  (exists max_WF max_KS,
     NumPy.max ebarWF = Ok max_WF /\ NumPy.max ebarKS = Ok max_KS /\
     shift (self_ w') = max_WF - max_KS) /\
  forall i, (i < n)%nat ->
    at1 vxc i = at1 vxchole i + at1 ebarKS i - at1 ebarWF i
                + at1 taup_rho_WF i - at1 taup_rho_KS i + shift (self_ w').
Proof.
  intros Hg H. apply output_fields_steps in H. cbv zeta in H. rewrite Hg in H.
  destruct H as [Hh [Href [HeK [HtK [s [Hs [Ha ->]]]]]]].
  apply hole_length in Hh. apply average_length in HeK. apply pauli_length in HtK.
  assert (length ebarWF = n /\ length taup_rho_WF = n) as [HeW HtW].
  { unfold reference_on in Href. destruct reference as [C1 e1 C2 e2|eps];
      injection Href as He Ht;
      apply average_length in He; apply pauli_length in Ht; now split. }
  destruct (assemble_same_size vxchole ebarKS ebarWF taup_rho_WF taup_rho_KS s n
              Hh HeK HeW HtW HtK) as [v [Ev [Hv Hat]]].
  rewrite Ev in Ha. injection Ha as <-.
  unfold output_shift in Hs.
  destruct (NumPy.max ebarWF) as [mW|] eqn:HmW; cbn [rbind] in Hs; [| discriminate].
  destruct (NumPy.max ebarKS) as [mK|] eqn:HmK; cbn [rbind] in Hs; [| discriminate].
  injection Hs as <-.
  split.
  { destruct ebarWF as [|a l]; [discriminate HmW |]. cbn in HeW. lia. }
  split; [repeat split; assumption |].
  split; [exists mW, mK; repeat split |].
  intros i Hi. cbn [self_ set_shift shift]. now apply Hat.
Qed.

(** The example on its output grid of one point. *)
Definition example_output : result Fields * World :=
  output_fields Example.engine (RHF_reference [-0.5]) [[0.5]; [0]; [0]]
    Example.entry_world.

Lemma output_fields_consistent_example :
  grid_to_blocks Example.engine [[0.5]; [0]; [0]]
  = ([Example.output_block], 1%nat, Example.points_func) /\
  example_output = (Ok ([-1.25], [-1.25], [-0.5], [-0.5], [0], [0]), snd example_output) /\
  (0 < 1)%nat /\
  (length [-1.25] = 1%nat /\ length [-1.25] = 1%nat /\ length [-0.5] = 1%nat /\
   length [-0.5] = 1%nat /\ length [0] = 1%nat /\ length [0] = 1%nat) /\
  (exists max_WF max_KS,
     NumPy.max [-0.5] = Ok max_WF /\ NumPy.max [-0.5] = Ok max_KS /\
     shift (self_ (snd example_output)) = max_WF - max_KS) /\
  forall i, (i < 1)%nat ->
    at1 [-1.25] i = at1 [-1.25] i + at1 [-0.5] i - at1 [-0.5] i
                    + at1 [0] i - at1 [0] i + shift (self_ (snd example_output)).
Proof.
  assert (example_output
          = (Ok ([-1.25], [-1.25], [-0.5], [-0.5], [0], [0]), snd example_output))
    as H by (vm_compute; reflexivity).
  split; [reflexivity |]. split; [exact H |].
  exact (output_fields_consistent Example.engine (RHF_reference [-0.5])
           [[0.5]; [0]; [0]] Example.entry_world (snd example_output)
           [Example.output_block] 1 Example.points_func
           _ _ _ _ _ _ eq_refl H).
Defined.

Lemma bind_raise {A B} (c : M A) (k : A -> M B) (w w' : World) (e : exn) :
  bind c k w = (Raise e, w') ->
  c w = (Raise e, w') \/
  exists a w1, c w = (Ok a, w1) /\ k a w1 = (Raise e, w').
Proof.
  unfold bind. destruct (c w) as [[a|e0] w1]; [right; eauto |].
  injection 1 as -> ->. now left.
Qed.

Lemma lift_raise {A} (r : result A) (w w' : World) (e : exn) :
  lift r w = (Raise e, w') -> r = Raise e /\ w' = w.
Proof. unfold lift. now injection 1 as -> ->. Qed.

(** A re-evaluation that raises leaves the solver as it was: once the
shift has been stored, the five arrays have the size of the output grid and
their combination cannot raise. *)
Lemma output_fields_raises (eng : Engine) (reference : Reference) (g : matrix)
  (w w' : World) (e : exn) :
  output_fields eng reference g w = (Raise e, w') ->
  w' = {| self_ := self_ w; trace := trace w ++ [GridToBlocks; SetPointers] |}.
Proof.
  unfold output_fields. intros H.
  destruct (grid_to_blocks eng g) as [[bs n] pf].
  apply bind_raise in H. destruct H as [H|[[] [w1 [H1 H]]]]; [discriminate H |].
  unfold emit in H1. injection H1 as <-.
  apply bind_raise in H. destruct H as [H|[[] [w2 [H2 H]]]]; [discriminate H |].
  unfold emit in H2. injection H2 as <-. cbn [self_ trace] in H.
  rewrite <- app_assoc in H. cbn [app] in H.
  apply bind_raise in H. destruct H as [H|[h [w3 [H3 H]]]];
    unfold call_vxc_hole_quadrature in *; cbn [self_ trace] in *;
    rewrite CacheFacts.explicit_grid_call in *.
  { now injection H as _ <-. }
  injection H3 as Hh <-. apply hole_length in Hh.
  apply bind_raise in H. destruct H as [H|[self [w4 [H4 H]]]]; [discriminate H |].
  unfold get_self in H4. cbn [self_] in H4. injection H4 as <- <-.
  apply bind_raise in H. destruct H as [H|[[eW tW] [w5 [H5 H]]]].
  { destruct reference as [C1 e1 C2 e2|eps];
      (apply bind_raise in H; destruct H as [H|[a [w6 [H6 H]]]];
       [now apply lift_raise in H |];
       apply lift_ok in H6; destruct H6 as [_ ->];
       apply bind_raise in H; destruct H as [H|[b [w7 [H7 H]]]];
       [now apply lift_raise in H | discriminate H]). }
  assert (length eW = n /\ length tW = n
          /\ w5 = {| self_ := self_ w;
                     trace := trace w ++ [GridToBlocks; SetPointers] |})
    as [HeW [HtW ->]].
  { destruct reference as [C1 e1 C2 e2|eps];
      apply bind_ok in H5; destruct H5 as [a [w6 [H6 H5]]];
      apply lift_ok in H6; destruct H6 as [Ha ->];
      apply bind_ok in H5; destruct H5 as [b [w7 [H7 H5]]];
      apply lift_ok in H7; destruct H7 as [Hb ->];
      unfold ret in H5; injection H5 as <- <- <-;
      apply average_length in Ha; apply pauli_length in Hb; now repeat split. }
  apply bind_raise in H. destruct H as [H|[eK [w6 [H6 H]]]];
    [now apply lift_raise in H |].
  apply lift_ok in H6. destruct H6 as [HeK ->]. apply average_length in HeK.
  apply bind_raise in H. destruct H as [H|[tK [w7 [H7 H]]]];
    [now apply lift_raise in H |].
  apply lift_ok in H7. destruct H7 as [HtK ->]. apply pauli_length in HtK.
  apply bind_raise in H. destruct H as [H|[s [w8 [H8 H]]]];
    [now apply lift_raise in H |].
  apply lift_ok in H8. destruct H8 as [_ ->].
  apply bind_raise in H. destruct H as [H|[[] [w9 [H9 H]]]]; [discriminate H |].
  unfold modify_self in H9. injection H9 as <-.
  apply bind_raise in H. destruct H as [H|[v [w10 [_ H]]]]; [| discriminate H].
  apply lift_raise in H. destruct H as [H _].
  destruct (assemble_same_size h eK eW tW tK s n Hh HeK HeW HtW HtK)
    as [v [Ev _]].
  rewrite Ev in H. discriminate H.
Qed.

(** Whether it returns or raises, the re-evaluation on the output grid asks
the engine for the blocks of that grid and for nothing else (no Fock build,
no diagonalisation), and changes nothing of the solver but, when it
returns, [self.shift]: the hole potential cached for the internal grid,
the orbitals and the density stay as the loop left them. *)
Theorem output_fields_effects (eng : Engine) (reference : Reference)
  (g : matrix) (w : World) :
  let w' := snd (output_fields eng reference g w) in
  trace w' = trace w ++ [GridToBlocks; SetPointers] /\
  (self_ w' = self_ w \/ exists s, self_ w' = set_shift s (self_ w)) /\
  ((exists e, fst (output_fields eng reference g w) = Raise e) ->
   self_ w' = self_ w) /\
  ((exists fields, fst (output_fields eng reference g w) = Ok fields) ->
   exists s, self_ w' = set_shift s (self_ w)).
Proof.
  cbv zeta.
  destruct (output_fields eng reference g w) as [[fields|e] w'] eqn:H;
    cbn [fst snd].
  - destruct fields as [[[[[vxc vxchole] ebarKS] ebarWF] taup_rho_WF] taup_rho_KS].
    apply output_fields_steps in H. cbv zeta in H.
    destruct H as [_ [_ [_ [_ [s [_ [_ ->]]]]]]]. cbn [self_ trace].
    split; [reflexivity |]. split; [right; now exists s |].
    split; [intros [e He]; discriminate He | intros _; now exists s].
  - apply output_fields_raises in H. subst w'. cbn [self_ trace].
    split; [reflexivity |]. split; [now left |].
    split; [reflexivity | intros [f Hf]; discriminate Hf].
Qed.
(** The block of a pass whose eigenvalues do not fit the columns of [C]. *)
Lemma ebar_block_label_mismatch (pf : PointsFunc) (D C : matrix) (eig : vector)
  (b : Block) :
  indices_fit D C b ->
  cols C <> length eig -> cols C <> 1%nat -> length eig <> 1%nat ->
  ebar_block pf D C eig b
  = Raise (ValueError "Size of label does not match previous terms").
Proof.
  intros [HD HC] H1 H2 H3. unfold ebar_block.
  destruct (take2_returns D _ _ HD) as [lD ->].
  destruct (take_rows_returns C _ HC) as [lC ->].
  cbn [rbind]. unfold label_size.
  destruct (Nat.eqb_spec (cols C) (length eig)) as [|_]; [contradiction |].
  destruct (Nat.eqb_spec (cols C) 1) as [|_]; [contradiction |].
  destruct (Nat.eqb_spec (length eig) 1) as [|_]; [contradiction |].
  reflexivity.
Qed.

(** For a mean-field reference, the reference orbital-energy average is
computed before the loop from the first [Nalpha] columns of [ct[0]] and the
occupied eigenvalues, but on the output grid from all the columns of
[ct[0]] and the first [Nalpha] eigenvalues.  When [ct[0]] has another number
of columns than there are such eigenvalues (neither number being one), the
first block that returned before the loop makes the re-evaluation on the
output grid raise [ValueError], after the hole quadrature on that grid and
with the solver left as it was. *)
Theorem output_reference_columns (eng : Engine) (epsilon_a : vector)
  (g : matrix) (w : World) (b : Block) (bs : list Block) (n : nat)
  (pf : PointsFunc) (vxchole : vector) :
  let self := self_ w in
  let eig := firstn (nalpha self) epsilon_a in
  grid_to_blocks eng g = (b :: bs, n, pf) ->
  hole_quadrature self (Some (b :: bs, n, pf)) atol_default = Ok vxchole ->
  indices_fit (nt0 self) (ct0 self) b ->
  cols (ct0 self) <> length eig -> cols (ct0 self) <> 1%nat ->
  length eig <> 1%nat ->
  output_fields eng (RHF_reference epsilon_a) g w
  = (Raise (ValueError "Size of label does not match previous terms"),
     {| self_ := self; trace := trace w ++ [GridToBlocks; SetPointers] |}) /\
  (length epsilon_a = nalpha self -> (nalpha self <= cols (ct0 self))%nat ->
   exists v, ebar_block pf (nt0 self) (first_cols (ct0 self) (nalpha self))
                        epsilon_a b = Ok v).
Proof.
  cbv zeta. intros Hg Hh Hfit H1 H2 H3. split.
  - assert (_average_local_orbital_energy (self_ w) (nt0 (self_ w))
              (ct0 (self_ w)) (firstn (nalpha (self_ w)) epsilon_a)
              (Some (b :: bs, n, pf))
            = Raise (ValueError "Size of label does not match previous terms"))
      as Have.
    { unfold _average_local_orbital_energy. cbn [select_grid rbind block_loop].
      now rewrite ebar_block_label_mismatch. }
    unfold output_fields, bind, emit, get_self, lift, modify_self, ret,
      call_vxc_hole_quadrature.
    rewrite Hg. cbn [fst snd self_ trace].
    rewrite CacheFacts.explicit_grid_call. cbn [fst snd self_ trace].
    match goal with
    | |- context [hole_quadrature ?s ?gi ?a] =>
        replace (hole_quadrature s gi a) with (@Ok vector vxchole)
          by (symmetry; exact Hh)
    end.
    cbn [fst snd self_ trace].
    match goal with
    | |- context [_average_local_orbital_energy ?s ?D ?C ?e ?gi] =>
        replace (_average_local_orbital_energy s D C e gi)
          with (@Raise vector
                  (ValueError "Size of label does not match previous terms"))
          by (symmetry; exact Have)
    end.
    now rewrite <- app_assoc.
  - intros Hl Hle. apply ebar_block_returns.
    + destruct Hfit as [HD HC]. split; [exact HD |].
      intros i Hi. unfold first_cols. rewrite length_map. now apply HC.
    + exists (nalpha (self_ w)). unfold label_size, first_cols, cols in *.
      destruct (ct0 (self_ w)) as [|row rest]; cbn [map hd length] in *.
      * replace (nalpha (self_ w)) with 0%nat in * by lia.
        now rewrite Hl.
      * rewrite length_firstn, Hl, Nat.min_l by exact Hle.
        now rewrite Nat.eqb_refl.
Qed.

(** The system of three basis functions, two of them occupied: the run on
the internal grid returns, the run with an output grid raises. *)
Definition entry3 : result (LoopInputs * Reference) * World :=
  setup Example.engine3 (InitMethod "svwn") Example.world3.

Lemma output_reference_columns_example :
  let g := [[0.5]; [0]; [0]] in
  let self := self_ (snd entry3) in
  grid_to_blocks Example.engine3 g
  = ([Example.output_block3], 1%nat, Example.points_func3) /\
  hole_quadrature self
    (Some ([Example.output_block3], 1%nat, Example.points_func3)) atol_default
  = Ok [-1.7134831460674156] /\
  indices_fit (nt0 self) (ct0 self) Example.output_block3 /\
  cols (ct0 self) = 3%nat /\
  length (firstn (nalpha self) [-1; -0.5]) = 2%nat /\
  (exists fields,
     fst (mRKS Example.engine3 2 None Example.negative_tolerances
               (InitMethod "svwn") Example.world3) = Ok fields) /\
  fst (output_fields Example.engine3 (RHF_reference [-1; -0.5]) g (snd entry3))
  = Raise (ValueError "Size of label does not match previous terms").
Proof.
  cbv zeta.
  assert (hole_quadrature (self_ (snd entry3))
            (Some ([Example.output_block3], 1%nat, Example.points_func3))
            atol_default = Ok [-1.7134831460674156]) as Hh
    by (vm_compute; reflexivity).
  assert (indices_fit (nt0 (self_ (snd entry3))) (ct0 (self_ (snd entry3)))
                      Example.output_block3) as Hfit.
  { split.
    - intros i j Hi Hj. cbn in Hi, Hj.
      destruct Hi as [<-|[<-|[<-|[]]]], Hj as [<-|[<-|[<-|[]]]];
        vm_compute; eauto.
    - intros i Hi. cbn in Hi.
      destruct Hi as [<-|[<-|[<-|[]]]]; vm_compute; lia. }
  split; [reflexivity |]. split; [exact Hh |]. split; [exact Hfit |].
  split; [reflexivity |]. split; [reflexivity |].
  split; [eexists; vm_compute; reflexivity |].
  destruct (output_reference_columns Example.engine3 [-1; -0.5]
              [[0.5]; [0]; [0]] (snd entry3) Example.output_block3 [] 1
              Example.points_func3 [-1.7134831460674156] eq_refl Hh Hfit)
    as [Hraise _]; try (vm_compute; lia).
  now rewrite Hraise.
Defined.
End OutputFacts.

(** ** What a run of [mRKS] asks and returns *)

Module RunFacts.
Import NumPy Psi4 MRKS NumPyFacts LoopFacts ExhaustionFacts SetupFacts GuessFacts.
Local Open Scope float_scope.

(** An iteration that does not raise ends in one of two ways: a [break],
with one of the two lines printed, the shift stored and nothing asked of the
engine; or the Fock build, the diagonalisation and the line of the
iteration. *)
Lemma iteration_inv (eng : Engine) (tol : Tolerances) (inp : LoopInputs)
  (k : nat) (loc : Locals) (w w' : World) (o : Outcome) :
  iteration eng tol inp k loc w = (Ok o, w') ->
  exists e t s v,
    candidate (self_ w) inp = Ok (e, t, s, v) /\
    match o with
    | Break l =>
        l = stopped loc e t v /\ self_ w' = set_shift s (self_ w) /\
        exists msg, trace w' = trace w ++ [Print msg]
    | Continue l =>
        (exists vmix, mixed tol k v (vxc_old loc) = Ok vmix /\
                      l = saved (self_ w) e t vmix) /\
        same_grid (self_ w) (self_ w') /\
        exists Derror eerror verror,
          trace w' = trace w ++ [GridToFock; Diagonalize;
                                 PrintIter k Derror eerror verror]
    end.
Proof.
  intros H. destruct o as [l|l].
  - apply iteration_break_inv in H.
    destruct H as [e [t [s [v [verror [Hc [_ [-> [Hs Hcases]]]]]]]]].
    exists e, t, s, v. split; [exact Hc |].
    split; [reflexivity |]. split; [exact Hs |].
    destruct Hcases as [[_ Ht]|[_ [Ht _]]]; eauto.
  - pose proof (iteration_continue_inv _ _ _ _ _ _ _ _ H)
      as [e [t [s [v [verror [eerror [vmix
            [Hc [Hp [Ht [He [Hs [Hm [-> Hready]]]]]]]]]]]]]].
    destruct (iteration_keep_going eng tol inp k loc w e t s v verror eerror vmix
                Hready Hc Hp Ht He Hs Hm) as [w2 [Hi2 [Htr Hg]]].
    rewrite H in Hi2. injection Hi2 as <-.
    exists e, t, s, v. split; [exact Hc |].
    split; [now exists vmix |]. split; [exact Hg |]. eauto.
Qed.

(** How a loop that does not raise ended: by a [break] of its last
iteration, or by running every step. *)
Inductive Ending (inp : LoopInputs) (w0 : World) (loc0 : Locals)
  : Locals -> World -> nat -> Prop :=
| Ended_by_break (w1 : World) (loc1 : Locals) (e t v : vector) (s : float)
    (msg : string) (w' : World) (n : nat) :
    same_grid (self_ w0) (self_ w1) ->
    candidate (self_ w1) inp = Ok (e, t, s, v) ->
    self_ w' = set_shift s (self_ w1) ->
    trace w' = trace w1 ++ [Print msg] ->
    diagonalizations (trace w1) = (diagonalizations (trace w0) + n)%nat ->
    completed_iterations (trace w1) = (completed_iterations (trace w0) + n)%nat ->
    Ending inp w0 loc0 (stopped loc1 e t v) w' n
| Ended_by_exhaustion (loc' : Locals) (w' : World) (n : nat) :
    diagonalizations (trace w') = (diagonalizations (trace w0) + n)%nat ->
    completed_iterations (trace w') = (completed_iterations (trace w0) + n)%nat ->
    (n = 0%nat -> loc' = loc0 /\ w' = w0) ->
    ((0 < n)%nat -> exists tr k D e v, trace w' = tr ++ [PrintIter k D e v]) ->
    Ending inp w0 loc0 loc' w' n.

Lemma loop_ending (eng : Engine) (tol : Tolerances) (inp : LoopInputs)
  (steps : list nat) :
  forall (loc : Locals) (w : World) (loc' : Locals) (w' : World),
    loop eng tol inp steps loc w = (Ok loc', w') ->
    exists n, (n <= length steps)%nat /\ Ending inp w loc loc' w' n.
Proof.
  induction steps as [|k rest IH]; intros loc w loc' w' H; cbn [loop] in H.
  - unfold ret in H. injection H as <- <-. exists 0%nat. split; [cbn; lia |].
    apply Ended_by_exhaustion; try lia. now split.
  - apply bind_ok in H. destruct H as [o [w1 [Hi H]]].
    apply iteration_inv in Hi. destruct Hi as [e [t [s [v [Hc Ho]]]]].
    destruct o as [l|l].
    + destruct Ho as [-> [Hs [msg Ht]]]. unfold ret in H. injection H as <- <-.
      exists 0%nat. split; [lia |].
      apply (Ended_by_break inp w loc w loc e t v s msg w1 0);
        try assumption; try lia. apply same_grid_refl.
    + destruct Ho as [[vmix [_ ->]] [Hg [Derr [eerr [verr Ht]]]]].
      apply IH in H. destruct H as [n [Hn He]].
      exists (S n). split; [cbn; lia |].
      assert (diagonalizations (trace w1) = (diagonalizations (trace w) + 1)%nat)
        as Hd1 by (rewrite Ht, diagonalizations_app; cbn; lia).
      assert (completed_iterations (trace w1)
              = (completed_iterations (trace w) + 1)%nat)
        as Hc1 by (rewrite Ht, completed_iterations_app; cbn; lia).
      destruct He as [w2 loc2 e2 t2 v2 s2 msg2 w'' n Hg2 Hc2 Hs2 Ht2 Hd2 Hi2
                     |loc'' w'' n Hd2 Hi2 Hz Hp].
      * apply (Ended_by_break inp w loc w2 loc2 e2 t2 v2 s2 msg2 w'' (S n));
          try assumption; try lia.
        exact (same_grid_trans _ _ _ Hg Hg2).
      * apply Ended_by_exhaustion; try lia.
        intros _. destruct n as [|n].
        -- destruct (Hz eq_refl) as [_ ->].
           exists (trace w ++ [GridToFock; Diagonalize]), k, Derr, eerr, verr.
           now rewrite Ht, <- app_assoc.
        -- apply Hp. lia.
Qed.

Lemma Ending_counts (inp : LoopInputs) (w : World) (loc loc' : Locals)
  (w' : World) (n : nat) :
  Ending inp w loc loc' w' n ->
  diagonalizations (trace w') = (diagonalizations (trace w) + n)%nat /\
  completed_iterations (trace w') = (completed_iterations (trace w) + n)%nat.
Proof.
  intros [w1 loc1 e t v s msg w'' m _ _ _ Ht Hd Hc|loc'' w'' m Hd Hc _ _].
  - rewrite Ht, diagonalizations_app, completed_iterations_app, Hd, Hc.
    cbn. lia.
  - now split.
Qed.

(** Nothing [setup] asks is a re-diagonalisation or the line of an
iteration. *)
Lemma setup_counts (eng : Engine) (init : InitArg) (w0 w : World)
  (inp : LoopInputs) (reference : Reference) :
  setup eng init w0 = (Ok (inp, reference), w) ->
  diagonalizations (trace w) = diagonalizations (trace w0) /\
  completed_iterations (trace w) = completed_iterations (trace w0).
Proof.
  intros H. rewrite (setup_trace _ _ _ _ _ _ H).
  rewrite !diagonalizations_app, !completed_iterations_app.
  unfold reference_events, guess_events.
  destruct (String.eqb (name (wfn (self_ w0))) "CIWavefunction");
    destruct init as [m|wf]; try destruct (String.eqb (lower m) "continue");
    cbn; lia.
Qed.

(** A run of [mRKS] that returns has requested at most [maxiter]
re-diagonalisations, one for each iteration that ran to its last line; the
grid build, the reference and the re-evaluation on an output grid request
none. *)
Theorem run_requests_at_most_maxiter (eng : Engine) (maxiter : Z)
  (vxc_grid : option matrix) (tol : Tolerances) (init : InitArg)
  (w0 w' : World) (fields : Fields) :
  mRKS eng maxiter vxc_grid tol init w0 = (Ok fields, w') ->
  exists n,
    (n <= Z.to_nat maxiter)%nat /\
    diagonalizations (trace w') = (diagonalizations (trace w0) + n)%nat /\
    completed_iterations (trace w') = (completed_iterations (trace w0) + n)%nat.
Proof.
  unfold mRKS. intros H.
  apply bind_ok in H. destruct H as [[inp reference] [w1 [Hsetup H]]].
  apply bind_ok in H. destruct H as [loc [w2 [Hloop H]]].
  apply setup_counts in Hsetup. destruct Hsetup as [Hd1 Hc1].
  apply loop_ending in Hloop. destruct Hloop as [n [Hn Hend]].
  apply Ending_counts in Hend. destruct Hend as [Hd2 Hc2].
  unfold steps_of in Hn. rewrite length_seq in Hn.
  exists n. split; [exact Hn |].
  destruct vxc_grid as [g|].
  - destruct fields as [[[[[v h] eK] eW] tW] tK].
    apply OutputFacts.output_fields_steps in H. cbv zeta in H.
    destruct H as [_ [_ [_ [_ [s [_ [_ ->]]]]]]]. cbn [trace].
    rewrite diagonalizations_app, completed_iterations_app. cbn. lia.
  - apply lift_ok in H. destruct H as [_ ->]. lia.
Qed.

(** The example, stopped by its potential test in the first of five
iterations: no re-diagonalisation. *)
Definition stopped_run : result Fields * World :=
  mRKS Example.engine 5 None Example.loose_tolerances (InitMethod "svwn")
       Example.world.

Lemma run_requests_at_most_maxiter_example :
  stopped_run
  = (Ok ([-0.125; -0.5], [-0.125; -0.5], [-0.5; -0.5], [-0.5; -0.5], [0; 0], [0; 0]),
     snd stopped_run) /\
  exists n,
    (n <= Z.to_nat 5)%nat /\
    diagonalizations (trace (snd stopped_run))
    = (diagonalizations (trace Example.world) + n)%nat /\
    completed_iterations (trace (snd stopped_run))
    = (completed_iterations (trace Example.world) + n)%nat.
Proof.
  assert (stopped_run
          = (Ok ([-0.125; -0.5], [-0.125; -0.5], [-0.5; -0.5], [-0.5; -0.5],
                 [0; 0], [0; 0]), snd stopped_run)) as H
    by (vm_compute; reflexivity).
  split; [exact H |].
  exact (run_requests_at_most_maxiter Example.engine 5 None
           Example.loose_tolerances (InitMethod "svwn") Example.world _ _ H).
Defined.

(** When [mRKS], called without an output grid, returns after one of its two
convergence lines, the potential it returns is the candidate of the last
iteration, not a mixture with the previous one: the arrays returned satisfy
[vxc = vxchole + ebarKS - ebarWF + taup_rho_WF - taup_rho_KS + shift] with
the shift left in [self.shift], which is the maximum of [ebarWF] minus the
maximum of [ebarKS]; point by point on the grid when the hole potential was
computed by this call, and as NumPy broadcasts a hole potential cached by
an earlier call on a grid of another size. *)
Theorem converged_fields_identity (eng : Engine) (maxiter : Z)
  (tol : Tolerances) (init : InitArg) (w0 w' : World)
  (vxc vxchole ebarKS ebarWF taup_rho_WF taup_rho_KS : vector)
  (tr : list event) (msg : string) :
  mRKS eng maxiter None tol init w0
  = (Ok (vxc, vxchole, ebarKS, ebarWF, taup_rho_WF, taup_rho_KS), w') ->
  trace w' = tr ++ [Print msg] ->
  (exists max_WF max_KS,
     NumPy.max ebarWF = Ok max_WF /\ NumPy.max ebarKS = Ok max_KS /\
     shift (self_ w') = max_WF - max_KS) /\
  (forall i, (i < length vxc)%nat ->
     at1 vxc i = bat vxchole i + bat ebarKS i - bat ebarWF i
                 + bat taup_rho_WF i - bat taup_rho_KS i + shift (self_ w')) /\
  (vxc_hole_WF (self_ w0) = None ->
   let n := npoints_DFT (self_ w') in
   (length vxc = n /\ length vxchole = n /\ length ebarKS = n /\
    length ebarWF = n /\ length taup_rho_WF = n /\ length taup_rho_KS = n) /\
   forall i, (i < n)%nat ->
     at1 vxc i = at1 vxchole i + at1 ebarKS i - at1 ebarWF i
                 + at1 taup_rho_WF i - at1 taup_rho_KS i + shift (self_ w')).
Proof.
  unfold mRKS. intros H Hlast.
  apply bind_ok in H. destruct H as [[inp reference] [w1 [Hsetup H]]].
  apply bind_ok in H. destruct H as [loc [w2 [Hloop H]]].
  apply lift_ok in H. destruct H as [Hfields ->].
  pose proof (setup_sizes _ _ _ _ _ _ Hsetup) as [HlW [HlT Hlh]].
  apply setup_ok in Hsetup. destruct Hsetup as [_ [Hmax _]].
  apply loop_ending in Hloop. destruct Hloop as [n [_ Hend]].
  destruct Hend as [w3 loc3 e t v s msg' w'' m Hg Hc Hs Ht _ _
                   |loc'' w'' m _ _ Hz Hp].
  - cbn in Hfields. injection Hfields as <- <- <- <- <- <-.
    apply candidate_ok in Hc. destruct Hc as [He [Htk [Hshift Ha]]].
    rewrite Hs. cbn [shift set_shift npoints_DFT].
    unfold loop_shift in Hshift.
    destruct (NumPy.max e) as [mK|] eqn:HmK; cbn [rbind] in Hshift;
      [| discriminate].
    injection Hshift as <-. split; [| split].
    + exists (in_emax inp), mK. repeat split. exact Hmax.
    + intros i Hi. now apply assemble_at.
    + intros Hcache. cbv zeta. destruct Hg as [_ [Hn _]].
      apply PassFacts.average_internal_length in He.
      apply PassFacts.pauli_internal_length in Htk.
      specialize (Hlh Hcache). rewrite <- Hn in HlW, HlT, Hlh.
      destruct (assemble_same_size _ _ _ _ _ (in_emax inp - mK) _
                  Hlh He HlW HlT Htk) as [v' [Ev [Hl Hat]]].
      rewrite Ev in Ha. injection Ha as <-.
      split; [repeat split; assumption | exact Hat].
  - exfalso. destruct m as [|m].
    + destruct (Hz eq_refl) as [-> _]. cbn in Hfields. discriminate Hfields.
    + destruct (Hp ltac:(lia)) as [tr' [k [D [e [v Ht]]]]].
      rewrite Ht in Hlast. apply app_inj_tail in Hlast.
      destruct Hlast as [_ Hl]. discriminate Hl.
Qed.

Lemma converged_fields_identity_example :
  stopped_run
  = (Ok ([-0.125; -0.5], [-0.125; -0.5], [-0.5; -0.5], [-0.5; -0.5], [0; 0], [0; 0]),
     snd stopped_run) /\
  trace (snd stopped_run)
  = [BuildGrid; SetPointers; Energy "svwn/sto-3g"] ++ [Print "vxc stops updating."] /\
  vxc_hole_WF (self_ Example.world) = None /\
  (exists max_WF max_KS,
     NumPy.max [-0.5; -0.5] = Ok max_WF /\ NumPy.max [-0.5; -0.5] = Ok max_KS /\
     shift (self_ (snd stopped_run)) = max_WF - max_KS) /\
  forall i, (i < npoints_DFT (self_ (snd stopped_run)))%nat ->
    at1 [-0.125; -0.5] i
    = at1 [-0.125; -0.5] i + at1 [-0.5; -0.5] i - at1 [-0.5; -0.5] i
      + at1 [0; 0] i - at1 [0; 0] i + shift (self_ (snd stopped_run)).
Proof.
  assert (stopped_run
          = (Ok ([-0.125; -0.5], [-0.125; -0.5], [-0.5; -0.5], [-0.5; -0.5],
                 [0; 0], [0; 0]), snd stopped_run)) as H
    by (vm_compute; reflexivity).
  assert (trace (snd stopped_run)
          = [BuildGrid; SetPointers; Energy "svwn/sto-3g"]
              ++ [Print "vxc stops updating."]) as Ht
    by (vm_compute; reflexivity).
  split; [exact H |]. split; [exact Ht |]. split; [reflexivity |].
  destruct (converged_fields_identity Example.engine 5 Example.loose_tolerances
              (InitMethod "svwn") Example.world _ _ _ _ _ _ _ _ _ H Ht)
    as [Hshift [_ Hgrid]].
  split; [exact Hshift |]. exact (proj2 (Hgrid eq_refl)).
Defined.
End RunFacts.

(** ** The hole quadrature and the grid of the solver *)

Module GridFacts.
Import NumPy Psi4 MRKS PassFacts SetupFacts.
Local Open Scope float_scope.

(** The result of a pass is not a failure of its closing assertion. *)
Definition assertion_holds (r : result vector) : Prop :=
  match r with
  | Raise (AssertionError _) => False
  | _ => True
  end.

(** On the grid [mRKS] builds, the assertion that closes the hole quadrature
cannot fail, whatever blocks the engine delivers: the size of the output
array, [npoints_DFT], was counted from the same [x] arrays the quadrature
counts its points by. *)
Theorem hole_assertion_holds_on_built_grid (eng : Engine) (w : World)
  (atol : float) :
  assertion_holds (hole_quadrature (self_ (snd (prepare_grid eng w))) None atol).
Proof.
  rewrite prepare_grid_runs. cbn [snd grid_attached self_].
  unfold hole_quadrature. cbn [select_grid set_grid Vpot npoints_DFT rbind].
  match goal with
  | |- context [hole_block_loop ?d ?bs ?o 0] =>
      destruct (hole_block_loop d bs o 0) as [[out iw]|e] eqn:H
  end; cbn [rbind assert_fully_integrated].
  - apply hole_block_loop_counter in H. destruct H as [-> Hl].
    unfold zeros in Hl. rewrite repeat_length, count_points_sum in Hl.
    cbn [Nat.add]. rewrite Hl, Nat.eqb_refl. exact I.
  - apply hole_block_loop_raises in H; [| intros b e'; apply hole_block_raises].
    destruct e; try exact I. apply H. exact I.
Qed.

(** The hole density [n_xc] is assigned for the two supported kinds of
wavefunction only.  Called on a solver whose wavefunction is of another
kind, the hole quadrature raises [UnboundLocalError] in the first pair of
blocks, that is as soon as its outer grid and the grid of the solver both
have a block (and the index map of the outer block stays inside the density
matrix, which is read first). *)
Theorem hole_quadrature_unsupported_wavefunction (self : Solver)
  (grid_info : option GridInfo) (atol : float) (vpot : VBase)
  (r : Block) (rs : list Block) (b : Block) (bs : list Block)
  (out0 : vector) (pf : PointsFunc) (lD1 : matrix) :
  supported_wfn (name (wfn self)) = false ->
  Vpot self = Some vpot -> blocks vpot = r :: rs ->
  select_grid self grid_info = Ok (b :: bs, out0, pf) ->
  take2 (D2 (wfn self)) (functions_local_to_global b)
        (functions_local_to_global b) = Ok lD1 ->
  hole_quadrature self grid_info atol = Raise (UnboundLocalError "n_xc").
Proof.
  unfold supported_wfn. intros Hn HV Hr Hg HD.
  apply orb_false_elim in Hn. destruct Hn as [Hci Hrhf].
  unfold hole_quadrature. rewrite Hg. cbn [rbind hole_block_loop].
  unfold hole_block. rewrite HD, HV, Hr. cbn [rbind inner_loop].
  unfold inner_block_sum, n_xc. rewrite Hci, Hrhf. reflexivity.
Qed.

Lemma hole_quadrature_unsupported_wavefunction_example :
  let self :=
    set_grid Example.vpot 2
      (Example.with_configuration "UHF" 1 ["hartree"%string]) in
  supported_wfn (name (wfn self)) = false /\
  Vpot self = Some Example.vpot /\ blocks Example.vpot = [Example.block] /\
  select_grid self None = Ok ([Example.block], zeros 2, Example.points_func) /\
  take2 (D2 (wfn self)) [0%nat] [0%nat] = Ok [[2]] /\
  hole_quadrature self None atol_default = Raise (UnboundLocalError "n_xc").
Proof.
  cbv zeta. split; [reflexivity |]. split; [reflexivity |].
  split; [reflexivity |]. split; [reflexivity |].
  assert (take2 (D2 (wfn (set_grid Example.vpot 2
                            (Example.with_configuration "UHF" 1
                               ["hartree"%string]))))
                [0%nat] [0%nat] = Ok [[2]]) as HD by (vm_compute; reflexivity).
  split; [exact HD |].
  exact (hole_quadrature_unsupported_wavefunction
           (set_grid Example.vpot 2
              (Example.with_configuration "UHF" 1 ["hartree"%string]))
           None atol_default
           Example.vpot Example.block [] Example.block [] (zeros 2)
           Example.points_func [[2]] eq_refl eq_refl eq_refl eq_refl HD).
Defined.
End GridFacts.

(** ** The memory check of a correlated input *)

Module MemoryFacts.
Import NumPy Psi4 MRKS SetupFacts.
Local Open Scope float_scope.

(** The estimate [mRKS] compares with its limit of 2 (GB):
[nbf ** 4 * 8e-9 * 2]. *)
Definition I_size (self : Solver) : float :=
  F64.of_nat (nbf self ^ 4) * 8e-9 * 2.

(** For a correlated input whose estimate exceeds the limit, [mRKS] raises a
plain [Exception].  It does so after the configuration checks and after the
grid has been built and attached to the solver, having asked the engine to
clean up, and before it requests the two-electron integrals or runs any
quadrature. *)
Theorem memory_check_refuses (eng : Engine) (maxiter : Z)
  (vxc_grid : option matrix) (tol : Tolerances) (init : InitArg) (w0 : World) :
  check_configuration (self_ w0) = Ok tt ->
  name (wfn (self_ w0)) = "CIWavefunction"%string ->
  (2 <? I_size (self_ w0)) = true ->
  mRKS eng maxiter vxc_grid tol init w0
  = (Raise (Exception memory_message),
     {| self_ := self_ (grid_attached eng w0);
        trace := trace w0 ++ [BuildGrid; SetPointers; Clean] |}).
Proof.
  intros Hcfg Hname Hmem. unfold I_size in Hmem.
  unfold mRKS, setup, bind, get_self, lift. rewrite Hcfg.
  rewrite prepare_grid_runs.
  unfold reference_quantities, bind, get_self.
  cbn [self_ grid_attached set_grid wfn nbf fst snd].
  rewrite Hname, String.eqb_refl, Hmem.
  unfold emit, raise. cbn [self_ trace grid_attached].
  now rewrite <- app_assoc.
Qed.

(** A correlated input with 106 basis functions: the estimate is just above
the limit. *)
Definition large_ci : Solver :=
  {| wfn := {| name := "CIWavefunction"; wDa := []; wDb := []; wCa := [];
               epsilon_a := []; epsilon_a_occ := [];
               opdm_full := []; opdm_active := []; tpdm := [] |};
     ref := 1; guide_potential_components := ["hartree"%string];
     nalpha := 1; nbf := 106; basis_str := "cc-pvdz";
     T := []; V := []; va := []; nt0 := []; ct0 := [];
     Vpot := None; npoints_DFT := 0; vxc_hole_WF := None;
     Da := []; Coca := []; eigvecs_a := [];
     Ca := []; Cb := []; Db := []; eigvecs_b := []; shift := 0 |}.

Lemma I_size_large_ci : (2 <? I_size large_ci) = true.
Proof.
  unfold I_size, F64.of_nat. change (nbf large_ci) with 106%nat.
  rewrite Nat2Z.inj_pow. vm_compute. reflexivity.
Qed.

Lemma memory_check_refuses_example :
  let w0 := {| self_ := large_ci; trace := [] |} in
  check_configuration (self_ w0) = Ok tt /\
  name (wfn (self_ w0)) = "CIWavefunction"%string /\
  (2 <? I_size (self_ w0)) = true /\
  mRKS Example.engine 10 None default_tolerances (InitMethod "svwn") w0
  = (Raise (Exception memory_message),
     {| self_ := self_ (grid_attached Example.engine w0);
        trace := trace w0 ++ [BuildGrid; SetPointers; Clean] |}).
Proof.
  cbv zeta. split; [reflexivity |]. split; [reflexivity |].
  split; [exact I_size_large_ci |].
  exact (memory_check_refuses Example.engine 10 None default_tolerances
           (InitMethod "svwn") {| self_ := large_ci; trace := [] |}
           eq_refl eq_refl I_size_large_ci).
Defined.
End MemoryFacts.
